(** * backupTool.js: a shallow embedding and its verified properties

    The script is glue code around [git], [gh], the file system and a
    terminal.  Its functions are embedded as programs of a small monad that
    threads the outside world, may throw a JavaScript [Error], and records
    every interaction (command, prompt, console line) in a trace. *)

From Stdlib Require Strings.String Strings.Ascii.
From Stdlib Require Import ZArith.
From stdpp Require Import base strings list gmap pretty sorting.
Import Stdlib.Strings.Ascii (ascii(..)).
Import (notations) Stdlib.Strings.Ascii.

Set Default Proof Using "Type".
Set Warnings "-register-all,-clear-no-such-hyp".
#[local] Open Scope Z_scope.

(** ** JavaScript strings

    A string is a sequence of 8-bit character codes (the Latin-1 range of
    JavaScript's code units). *)

Module JS.

Definition nl : string := String "010"%char "".
Definition dq : string := String "034"%char "".

(** [WhiteSpace] and [LineTerminator] code points below 256. *)
Definition isWhiteSpace (c : ascii) : bool :=
  match c with
  | "009" | "010" | "011" | "012" | "013" | " " | "160" => true
  | _ => false
  end%char.

Fixpoint trimStart (s : string) : string :=
  match s with
  | String c s' => if isWhiteSpace c then trimStart s' else s
  | EmptyString => EmptyString
  end.

Fixpoint trimEnd (s : string) : string :=
  match s with
  | EmptyString => EmptyString
  | String c s' =>
      match trimEnd s' with
      | EmptyString => if isWhiteSpace c then EmptyString else String c EmptyString
      | rest => String c rest
      end
  end.

Definition trim (s : string) : string := trimEnd (trimStart s).

Definition lowerChar (c : ascii) : ascii :=
  let n := Ascii.nat_of_ascii c in
  if ((65 <=? n)%nat && (n <=? 90)%nat)
     || ((192 <=? n)%nat && (n <=? 222)%nat && negb (n =? 215)%nat)
  then Ascii.ascii_of_nat (n + 32) else c.

Fixpoint toLowerCase (s : string) : string :=
  match s with
  | String c s' => String (lowerChar c) (toLowerCase s')
  | EmptyString => EmptyString
  end.

Fixpoint startsWith (s p : string) : bool :=
  match p, s with
  | EmptyString, _ => true
  | String a p', String b s' => Ascii.eqb a b && startsWith s' p'
  | String _ _, EmptyString => false
  end.

Definition endsWith (s p : string) : bool :=
  startsWith (String.rev s) (String.rev p).

Fixpoint includes (s p : string) : bool :=
  startsWith s p ||
  match s with
  | String _ s' => includes s' p
  | EmptyString => false
  end.

(** [s.split(sep)] for a one-character separator. *)
Fixpoint split (sep : ascii) (s : string) : list string :=
  match s with
  | EmptyString => [""]
  | String c s' =>
      if Ascii.eqb c sep then "" :: split sep s'
      else match split sep s' with
           | h :: t => String c h :: t
           | [] => [String c ""]
           end
  end.

Fixpoint join (sep : string) (l : list string) : string :=
  match l with
  | [] => ""
  | [x] => x
  | x :: l' => x +:+ sep +:+ join sep l'
  end.

(** [s.slice(0, -1)]. *)
Fixpoint dropLast (s : string) : string :=
  match s with
  | EmptyString => EmptyString
  | String _ EmptyString => EmptyString
  | String c s' => String c (dropLast s')
  end.

(** [s.replace(/c/g, r)] for a one-character pattern. *)
Fixpoint replaceAll (c : ascii) (r : string) (s : string) : string :=
  match s with
  | EmptyString => EmptyString
  | String a s' =>
      (if Ascii.eqb a c then r else String a "") +:+ replaceAll c r s'
  end.

(** [s.substring(0, n)]. *)
Fixpoint take (n : nat) (s : string) : string :=
  match n, s with
  | S n', String c s' => String c (take n' s')
  | _, _ => EmptyString
  end.

(** Truthiness of a string: only the empty string is falsy. *)
Definition truthy (s : string) : bool := negb (String.eqb s "").

End JS.

Infix "===" := String.eqb (at level 70, no associativity).

(** ** Data model *)

(** A thrown JavaScript [Error]: its [message], and the captured [stderr] of
    a failed child process (empty when there is none). *)
Record Error := mkError { message : string; stderr : string }.

#[global] Instance Error_eq_dec : EqDecision Error.
Proof. solve_decision. Defined.

(** The [stdio] option of [execSync]. *)
Inductive stdio := pipe | inherit.

(** One interaction of the script with its surroundings.  [console.error]
    calls that also print [error.stack] are recorded by their message. *)
Inductive event :=
| Exec (io : stdio) (cmd : string) (r : Error + string)
| Asked (query answer : string)
| Log (msg : string)
| Warn (msg : string)
| Err (msg : string).

(** The persisted configuration (backup-config.json). *)
Record Config := mkConfig {
  projectName : string;
  githubUsername : string;
  backupBranch : string;
  autoIgnoreFiles : list string;
  maxBackupAttempts : Z;
  createdAt : string;
  version : string
}.

(** The transient status object built by [getGitStatus]. *)
Record GitStatus := mkGitStatus {
  hasChanges : bool;
  isRepo : bool;
  sync : string;
  localHash : string;
  remoteHash : string;
  baseHash : string
}.

Definition set_hasChanges (b : bool) (s : GitStatus) : GitStatus :=
  mkGitStatus b (isRepo s) (sync s) (localHash s) (remoteHash s) (baseHash s).
Definition set_sync (v : string) (s : GitStatus) : GitStatus :=
  mkGitStatus (hasChanges s) (isRepo s) v (localHash s) (remoteHash s) (baseHash s).
Definition set_localHash (v : string) (s : GitStatus) : GitStatus :=
  mkGitStatus (hasChanges s) (isRepo s) (sync s) v (remoteHash s) (baseHash s).
Definition set_remoteHash (v : string) (s : GitStatus) : GitStatus :=
  mkGitStatus (hasChanges s) (isRepo s) (sync s) (localHash s) v (baseHash s).
Definition set_baseHash (v : string) (s : GitStatus) : GitStatus :=
  mkGitStatus (hasChanges s) (isRepo s) (sync s) (localHash s) (remoteHash s) v.

(** A line of [git log --pretty=format:"%H|%an|%ae|%s"] after
    [split('|')] and destructuring; a missing field is [undefined]. *)
Record Commit := mkCommit {
  hash : string;
  authorName : option string;
  authorEmail : option string;
  subject : option string
}.

#[global] Instance Commit_eq_dec : EqDecision Commit.
Proof. solve_decision. Defined.

(** ** The outside world

    Everything the script does not compute itself: child processes, the
    terminal, the file system, the clock and the JSON codec of the runtime.
    The two laws say that a file holds what was last written to it. *)
Class World (W : Type) := {
  SCRIPT_DIR : string;
  execSync : stdio → string → W → (Error + string) * W;
  question : string → W → string * W;
  existsSync : string → W → bool;
  readFileSync : string → W → Error + string;
  writeFileSync : string → string → W → Error + W;
  appendFileSync : string → string → W → Error + W;
  (** [new Date(Date.now() + offset).toISOString()] *)
  toISOString : Z → W → string;
  (** [JSON.parse]; [None] is JSON [null]. *)
  JSON_parse : string → Error + option Config;
  (** [JSON.stringify(_, null, 2)] *)
  JSON_stringify : Config → string;
  write_read : ∀ p s w w',
    writeFileSync p s w = inr w' →
    existsSync p w' = true ∧ readFileSync p w' = inr s;
  append_read : ∀ p s w w' old,
    appendFileSync p s w = inr w' → readFileSync p w = inr old →
    existsSync p w' = true ∧ readFileSync p w' = inr (old +:+ s)
}.

(** ** The monad of script fragments *)

Definition M (W A : Type) : Type := W → (Error + A) * W * list event.

Definition result {W A} (x : (Error + A) * W * list event) : Error + A := x.1.1.
Definition world {W A} (x : (Error + A) * W * list event) : W := x.1.2.
Definition trace {W A} (x : (Error + A) * W * list event) : list event := x.2.

Section Monad.
Context {W : Type}.

Definition ret {A} (a : A) : M W A := λ w, (inr a, w, []).

Definition throw {A} (e : Error) : M W A := λ w, (inl e, w, []).

Definition bind {A B} (m : M W A) (k : A → M W B) : M W B :=
  λ w, match m w with
       | (inl e, w1, t1) => (inl e, w1, t1)
       | (inr a, w1, t1) => let '(r, w2, t2) := k a w1 in (r, w2, t1 ++ t2)
       end.

(** [try { m } catch (e) { h e }] *)
Definition try_catch {A} (m : M W A) (h : Error → M W A) : M W A :=
  λ w, match m w with
       | (inl e, w1, t1) => let '(r, w2, t2) := h e w1 in (r, w2, t1 ++ t2)
       | (inr a, w1, t1) => (inr a, w1, t1)
       end.

(** One statement of a [try] block with the handler that is in force and
    the rest of the block: the handler sees the local variables as they are
    when the statement throws. *)
Definition attempt {A B} (m : M W A) (h : Error → M W B) (k : A → M W B) : M W B :=
  λ w, match m w with
       | (inl e, w1, t1) => let '(r, w2, t2) := h e w1 in (r, w2, t1 ++ t2)
       | (inr a, w1, t1) => let '(r, w2, t2) := k a w1 in (r, w2, t1 ++ t2)
       end.

Definition emit (e : event) : M W unit := λ w, (inr tt, w, [e]).

(** A pure computation that returns or throws. *)
Definition of_result {A} (r : Error + A) : M W A := λ w, (r, w, []).

Definition when_ (b : bool) (m : M W unit) : M W unit := if b then m else ret tt.

End Monad.

#[global] Instance M_ret {W} : MRet (M W) := λ A, ret.
#[global] Instance M_bind {W} : MBind (M W) := λ A B k m, bind m k.

Definition console_log {W} (msg : string) : M W unit := emit (Log msg).
Definition console_warn {W} (msg : string) : M W unit := emit (Warn msg).
Definition console_error {W} (msg : string) : M W unit := emit (Err msg).

(** ** The script *)

Section Script.
Context `{World W}.
Import JS.

#[local] Abbreviation M := (M W).

Definition TOOL_DIR : string := "backupTool".
Definition TOOL_SCRIPT : string := "backupTool.js".
Definition CONFIG_FILE : string := "backup-config.json".

(** [path.join] and [path.resolve(dir, '..')] on the POSIX paths the tool
    builds (no [.] or [..] segments to normalise inside them). *)
Definition path_sep : string := "/".

Definition path_join (a b : string) : string :=
  if a === "" then b
  else if endsWith a path_sep then a +:+ b
  else a +:+ path_sep +:+ b.

Fixpoint afterSlash (s : string) : string :=
  match s with
  | EmptyString => EmptyString
  | String c s' => if Ascii.eqb c "/" then s' else afterSlash s'
  end.

Definition path_parent (dir : string) : string :=
  let d := String.rev (afterSlash (String.rev dir)) in
  if d === "" then path_sep else d.

Definition isOpMode : bool := endsWith SCRIPT_DIR (path_join path_sep TOOL_DIR).
Definition projectRoot : string := if isOpMode then path_parent SCRIPT_DIR else "".
(** [None] is [undefined]: the variable is only assigned in operation mode. *)
Definition configFilePath : option string :=
  if isOpMode then Some (path_join SCRIPT_DIR CONFIG_FILE) else None.

(** *** Primitive interactions *)

Definition exec (io : stdio) (cmd : string) : M string :=
  λ w, let '(r, w') := execSync io cmd w in (r, w', [Exec io cmd r]).

Definition fs_existsSync (p : string) : M bool :=
  λ w, (inr (existsSync p w), w, []).

Definition fs_readFileSync (p : string) : M string :=
  λ w, of_result (readFileSync p w) w.

Definition fs_writeFileSync (p s : string) : M unit :=
  λ w, match writeFileSync p s w with
       | inl e => (inl e, w, [])
       | inr w' => (inr tt, w', [])
       end.

Definition fs_appendFileSync (p s : string) : M unit :=
  λ w, match appendFileSync p s w with
       | inl e => (inl e, w, [])
       | inr w' => (inr tt, w', [])
       end.

(** [s.replace('T', ' ')]: the first occurrence only. *)
Fixpoint replaceFirst (c : ascii) (r : string) (s : string) : string :=
  match s with
  | EmptyString => EmptyString
  | String a s' => if Ascii.eqb a c then r +:+ s' else String a (replaceFirst c r s')
  end.

Definition getFormattedTimestamp : M string :=
  λ w, let utc7Offset := 7 * 60 * 60 * 1000 in
       (inr (take 19 (replaceFirst "T" " " (toISOString utc7Offset w))), w, []).

Definition askQuestion (query : string) : M string :=
  λ w, let '(ans, w') := question query w in (inr (trim ans), w', [Asked query ans]).

Definition runCommand (command : string) (suppressErrorLogging : bool) : M string :=
  try_catch
    (console_log ("Executing: " +:+ command);;
     raw ← exec pipe command;
     let output := trim raw in
     when_ (truthy output) (console_log ("Output: " +:+ output));;
     mret output)
    (λ error,
       let errMsg := if truthy (stderr error) then trim (stderr error)
                     else message error in
       when_ (negb suppressErrorLogging)
         (console_error ("Cmd Error for " +:+ dq +:+ command +:+ dq +:+ ": " +:+ errMsg));;
       throw error).

Definition runCommandStdIO (command : string) : M bool :=
  try_catch
    (console_log ("Executing (stdio): " +:+ command);;
     exec inherit command;;
     mret true)
    (λ error,
       console_error ("Cmd Error (stdio) for " +:+ dq +:+ command +:+ dq +:+ ": "
                      +:+ message error);;
       throw error).

(** *** Configuration store *)

Definition show_path (p : option string) : string := default "undefined" p.

Definition readConfig : M (option Config) :=
  match configFilePath with
  | None =>
      console_warn ("Config file not found: " +:+ show_path configFilePath);;
      mret None
  | Some path =>
      present ← fs_existsSync path;
      if negb present then
        console_warn ("Config file not found: " +:+ show_path configFilePath);;
        mret None
      else
        try_catch
          (rawData ← fs_readFileSync path;
           of_result (JSON_parse rawData))
          (λ error,
             console_error ("Error reading config " +:+ path +:+ ": " +:+ message error);;
             mret None)
  end.

Definition updateConfig (newConfigData : Config) : M bool :=
  match configFilePath with
  | None =>
      console_error "Config file path is not set. Cannot update configuration.";;
      mret false
  | Some path =>
      try_catch
        (fs_writeFileSync path (JSON_stringify newConfigData);;
         console_log ("Configuration updated: " +:+ path);;
         mret true)
        (λ error,
           console_error ("Error writing config " +:+ path +:+ ": " +:+ message error);;
           mret false)
  end.

(** *** Branch and sync status *)

Definition getCurrentGitBranch : M string :=
  try_catch
    (branch ← runCommand "git rev-parse --abbrev-ref HEAD" false;
     branch ← (if negb (truthy branch) || (trim branch === "HEAD")
               then runCommand "git branch --show-current" false
               else mret branch);
     if negb (truthy branch) || (trim branch === "")
     then throw (mkError "Could not determine current branch or in detached HEAD state." "")
     else
       let trimmedBranch := trim branch in
       console_log ("Current branch: " +:+ trimmedBranch);;
       mret trimmedBranch)
    (λ error,
       console_error ("Error getting current branch: " +:+ message error);;
       throw error).

(** The [catch] clause of [getGitStatus], entered with the status object as
    the [try] block left it. *)
Definition getGitStatus_catch (branchName : string) (status : GitStatus)
    (error : Error) : M GitStatus :=
  console_error ("Error getting Git status for " +:+ branchName +:+ ": "
                 +:+ message error);;
  let status := set_sync "error" status in
  when_ (truthy (message error)
         && (includes (message error) "unknown revision"
             || includes (message error) "ambiguous argument"))
    (console_warn ("Possible issue: Remote branch origin/" +:+ branchName
                   +:+ " may not be tracked or a remote error occurred."));;
  mret status.

Definition getGitStatus (branchName : string) : M GitStatus :=
  console_log ("Fetching Git status for branch " +:+ branchName +:+ "...");;
  repo ← fs_existsSync (path_join projectRoot ".git");
  let status := mkGitStatus false repo "unknown" "" "" "" in
  if negb (isRepo status) then
    console_error "This is not a Git repository. Please run --init to set up.";;
    mret status
  else
    let catch := getGitStatus_catch branchName in
    attempt (runCommand "git status --porcelain" false) (catch status) (λ statusOutput,
    let status := set_hasChanges (0 <? String.length statusOutput)%nat status in
    console_log (if hasChanges status then "Local changes detected."
                 else "No local changes.");;
    attempt (runCommand "git remote update" false) (catch status) (λ _,
    attempt (runCommand "git rev-parse HEAD" false) (catch status) (λ local,
    let status := set_localHash local status in
    attempt (runCommand ("git ls-remote --heads origin " +:+ branchName) true)
            (catch status) (λ remoteBranchExistsResult,
    if negb (truthy remoteBranchExistsResult) then
      console_log ("Remote branch origin/" +:+ branchName +:+ " not found.");;
      mret (set_sync "no_remote" status)
    else
    attempt (runCommand ("git rev-parse origin/" +:+ branchName) false)
            (catch status) (λ remote,
    let status := set_remoteHash remote status in
    attempt (runCommand ("git merge-base HEAD origin/" +:+ branchName) false)
            (catch status) (λ base,
    let status := set_baseHash base status in
    let status :=
      if localHash status === remoteHash status then set_sync "uptodate" status
      else if localHash status === baseHash status then set_sync "behind" status
      else if remoteHash status === baseHash status then set_sync "ahead" status
      else set_sync "diverged" status in
    console_log ("Sync status with origin/" +:+ branchName +:+ ": " +:+ sync status);;
    mret status)))))).

Definition displaySyncStatus (gitStatus : GitStatus) (branchName operationType : string)
    : M unit :=
  let remoteBranch := "origin/" +:+ branchName in
  console_log (operationType +:+ ": Sync status for branch '" +:+ branchName
               +:+ "' is " +:+ sync gitStatus +:+ ".");;
  if sync gitStatus === "uptodate" then
    console_log ("OK: Branch '" +:+ branchName +:+ "' is up-to-date with "
                 +:+ remoteBranch +:+ ".")
  else if sync gitStatus === "behind" then
    console_warn ("Warning: Local branch '" +:+ branchName +:+ "' is behind "
                  +:+ remoteBranch +:+ ". Consider pulling changes.")
  else if sync gitStatus === "ahead" then
    console_log ("Local branch '" +:+ branchName +:+ "' is ahead of " +:+ remoteBranch
                 +:+ ". Pushing existing commits...");;
    try_catch
      (runCommandStdIO ("git push origin " +:+ branchName);;
       console_log ("Successfully pushed '" +:+ branchName +:+ "' to "
                    +:+ remoteBranch +:+ "."))
      (λ e, console_error ("Error pushing '" +:+ branchName
                           +:+ "'. Check Git output for details."))
  else if sync gitStatus === "diverged" then
    console_warn ("Warning: Local branch '" +:+ branchName +:+ "' has diverged from "
                  +:+ remoteBranch +:+ ". A merge or rebase is required.")
  else if sync gitStatus === "no_remote" then
    console_log ("Remote branch " +:+ remoteBranch +:+ " not found. Pushing '"
                 +:+ branchName +:+ "' as a new remote branch...");;
    try_catch
      (runCommandStdIO ("git push -u origin " +:+ branchName);;
       console_log ("Successfully pushed '" +:+ branchName +:+ "' to new remote branch "
                    +:+ remoteBranch +:+ "."))
      (λ e, console_error ("Error pushing new branch '" +:+ branchName
                           +:+ "'. Check Git output for details."))
  else
    console_log ("Could not reliably determine the sync status for '" +:+ branchName
                 +:+ "' with " +:+ remoteBranch +:+ ".").

Definition commitAndPush (commitMessage branchName projectName : string) : M bool :=
  console_log ("Attempting to commit " +:+ dq +:+ commitMessage +:+ dq
               +:+ " and push to origin/" +:+ branchName +:+ ".");;
  try_catch
    (console_log "Staging all changes...";;
     runCommandStdIO "git add -A";;
     console_log ("Committing with message: " +:+ dq +:+ commitMessage +:+ dq);;
     runCommandStdIO ("git commit -m " +:+ dq
                      +:+ replaceAll "034" ("\" +:+ dq) commitMessage +:+ dq);;
     console_log ("Pushing changes to origin/" +:+ branchName +:+ "...");;
     runCommandStdIO ("git push origin " +:+ branchName);;
     console_log (nl +:+ "OK: Changes committed and pushed to origin/" +:+ branchName
                  +:+ ".");;
     when_ (truthy projectName)
       (console_log ("Project '" +:+ projectName +:+ "' has been backed up."));;
     mret true)
    (λ error,
       console_error "Commit and push operation failed. Check Git output for details.";;
       when_ (truthy (message error) && includes (toLowerCase (message error)) "push")
         (console_log ("Hint: If this is the first push for this branch, you might need to use: git push --set-upstream origin "
                       +:+ branchName));;
       mret false).

(** *** Backup operations *)

(** The guard [!config || !config.field]: [Some] when it lets the
    configuration through. *)
Definition usable (field : Config → string) (config : option Config) : option Config :=
  match config with
  | Some c => if truthy (field c) then Some c else None
  | None => None
  end.

Definition opQuickBackup : M unit :=
  console_log (nl +:+ "=== " +:+ TOOL_DIR +:+ " - Quick Backup ===");;
  console_log "Operation: --qbackup";;
  config ← readConfig;
  match usable projectName config with
  | None =>
      console_error "Error: Project configuration is missing or incomplete (projectName not found). Please run --init first."
  | Some config =>
    attempt getCurrentGitBranch (λ _, mret tt) (λ currentBranch,
    gitStatus ← getGitStatus currentBranch;
    if negb (isRepo gitStatus) then mret tt
    else if negb (hasChanges gitStatus) then
      console_log ("No local changes detected on branch '" +:+ currentBranch +:+ "'.");;
      displaySyncStatus gitStatus currentBranch "QuickBackup"
    else
      console_log ("Local changes found on branch '" +:+ currentBranch
                   +:+ "'. Proceeding with backup...");;
      stamp ← getFormattedTimestamp;
      let commitMessage := "Quick backup: " +:+ stamp in
      commitAndPush commitMessage currentBranch (projectName config);;
      mret tt)
  end.

Definition emptyCommitQuery (currentBranch : string) : string :=
  "No local changes detected on branch '" +:+ currentBranch
  +:+ "'. Do you want to create an empty commit anyway? (Y/N): ".

Definition opCommitWithMessage (customMessage : string) : M unit :=
  console_log (nl +:+ "=== " +:+ TOOL_DIR +:+ " - Commit with Custom Message ===");;
  console_log "Operation: --commit";;
  config ← readConfig;
  match usable projectName config with
  | None =>
      console_error "Error: Project configuration is missing or incomplete (projectName not found). Please run --init first."
  | Some config =>
    attempt getCurrentGitBranch (λ _, mret tt) (λ currentBranch,
    let finalCommitMessage := customMessage in
    finalCommitMessage ←
      (if negb (truthy finalCommitMessage) || (trim finalCommitMessage === "")
       then askQuestion "Please enter your commit message: "
       else mret finalCommitMessage);
    if negb (truthy finalCommitMessage) || (trim finalCommitMessage === "") then
      console_log "No commit message provided. Aborting commit operation."
    else
    gitStatus ← getGitStatus currentBranch;
    if negb (isRepo gitStatus) then mret tt
    else
    proceed ←
      (if negb (hasChanges gitStatus) then
         commitEmpty ← askQuestion (emptyCommitQuery currentBranch);
         if negb (startsWith (toLowerCase commitEmpty) "y") then
           console_log "Commit aborted as there are no local changes and user chose not to create an empty commit.";;
           displaySyncStatus gitStatus currentBranch "CommitWithMessage";;
           mret false
         else
           console_log "Proceeding with an empty commit as requested.";;
           mret true
       else mret true);
    if negb proceed then mret tt
    else
      console_log ("Committing changes on branch '" +:+ currentBranch +:+ "'...");;
      commitAndPush finalCommitMessage currentBranch (projectName config);;
      mret tt)
  end.

Definition checkRemoteSync : M unit :=
  console_log (nl +:+ "=== Check Remote Sync Status ===");;
  console_log "Operation: Check remote synchronization status";;
  attempt getCurrentGitBranch (λ _, mret tt) (λ currentBranch,
  console_log ("Checking remote synchronization for current branch '"
               +:+ currentBranch +:+ "'...");;
  gitStatus ← getGitStatus currentBranch;
  if negb (isRepo gitStatus) then mret tt
  else displaySyncStatus gitStatus currentBranch "CheckRemoteSync").

(** *** History rewriting *)

Definition show (field : option string) : string := default "undefined" field.

Definition parseCommit (commitLine : string) : Commit :=
  let fields := split "|" commitLine in
  mkCommit (default "" (fields !! 0%nat)) (fields !! 1%nat) (fields !! 2%nat)
           (fields !! 3%nat).

(** The test [isCurrentUser] of the partition loop.  The disjunction is
    evaluated left to right, and [authorEmail.includes] on [undefined]
    throws a [TypeError]. *)
Definition isCurrentUser (currentUser : string) (c : Commit) : Error + bool :=
  if bool_decide (authorName c = Some currentUser) then inr true
  else match authorEmail c with
       | None => inl (mkError "Cannot read properties of undefined (reading 'includes')" "")
       | Some email =>
           inr (includes email currentUser
                || (email === currentUser +:+ "@users.noreply.github.com"))
       end.

(** The [forEach] that fills [currentUserCommits] and [oldUserCommits]. *)
Fixpoint partitionCommits (currentUser : string) (commits : list string)
    (currentUserCommits oldUserCommits : list Commit)
    : Error + (list Commit * list Commit) :=
  match commits with
  | [] => inr (currentUserCommits, oldUserCommits)
  | commitLine :: rest =>
      let c := parseCommit commitLine in
      match isCurrentUser currentUser c with
      | inl e => inl e
      | inr true => partitionCommits currentUser rest (currentUserCommits ++ [c]) oldUserCommits
      | inr false => partitionCommits currentUser rest currentUserCommits (oldUserCommits ++ [c])
      end
  end.

(** [oldUserCommits.forEach((commit, index) => console.log(...))] *)
Fixpoint logOldCommits (index : nat) (l : list Commit) : M unit :=
  match l with
  | [] => mret tt
  | commit :: l' =>
      console_log (pretty (index + 1)%nat +:+ ". " +:+ dq +:+ show (subject commit) +:+ dq
                   +:+ " by " +:+ show (authorName commit)
                   +:+ " (" +:+ show (authorEmail commit) +:+ ")");;
      logOldCommits (S index) l'
  end.

Definition gitLogCommand : string :=
  "git log --pretty=format:" +:+ dq +:+ "%H|%an|%ae|%s" +:+ dq +:+ " --all".

Definition cleanHistoryQuery : string :=
  nl +:+ "This will remove ALL commits from other users and keep only your commits. Continue? (Y/N): ".

Definition forcePushQuery : string :=
  "Force push the cleaned history to remote? (Y/N): ".

(** The optional force push that ends both rewrite operations. *)
Definition forcePushCleaned (currentBranch : string) : M unit :=
  pushClean ← askQuestion forcePushQuery;
  when_ (toLowerCase pushClean === "y")
    (try_catch
       (console_log "Force pushing cleaned history to remote...";;
        runCommandStdIO ("git push --force origin " +:+ currentBranch);;
        console_log "Successfully pushed cleaned history to remote.")
       (λ error,
          console_error ("Error force pushing to remote: " +:+ message error);;
          console_log ("You may need to manually push: git push --force origin "
                       +:+ currentBranch))).

Definition opCleanOldUserCommits : M unit :=
  console_log (nl +:+ "=== " +:+ TOOL_DIR +:+ " - Clean Old User Commits ===");;
  console_log "Operation: --clean-history";;
  config ← readConfig;
  match usable githubUsername config with
  | None => console_error "Error: Project configuration is missing. Please run --init first."
  | Some config =>
    attempt getCurrentGitBranch (λ _, mret tt) (λ currentBranch,
    console_log ("Analyzing commit history on branch '" +:+ currentBranch +:+ "'...");;
    try_catch
      (logOutput ← runCommand gitLogCommand false;
       let commits := filter (λ line, truthy (trim line) = true) (split "010" logOutput) in
       if (length commits =? 0)%nat then console_log "No commits found in repository."
       else
       let currentUser := githubUsername config in
       '(currentUserCommits, oldUserCommits) ←
          of_result (partitionCommits currentUser commits [] []);
       if (length oldUserCommits =? 0)%nat then
         console_log ("No commits from other users found. All commits belong to "
                      +:+ currentUser +:+ ".")
       else
       console_log (nl +:+ "Found " +:+ pretty (length oldUserCommits)
                    +:+ " commits from other users:");;
       logOldCommits 0 oldUserCommits;;
       console_log (nl +:+ "Found " +:+ pretty (length currentUserCommits)
                    +:+ " commits from current user (" +:+ currentUser +:+ ")");;
       confirmClean ← askQuestion cleanHistoryQuery;
       if negb (toLowerCase confirmClean === "y") then
         console_log "Operation cancelled by user."
       else
       cleaned ←
         (if (length currentUserCommits =? 0)%nat then
            console_log "Creating a fresh repository with current files...";;
            try_catch
              (runCommandStdIO "git checkout --orphan temp-clean-branch";;
               runCommandStdIO "git add -A";;
               runCommandStdIO ("git commit -m " +:+ dq
                                +:+ "Clean repository - Initial commit by "
                                +:+ currentUser +:+ dq);;
               runCommandStdIO ("git branch -D " +:+ currentBranch);;
               runCommandStdIO ("git branch -m " +:+ currentBranch);;
               console_log ("Successfully created clean repository with only current user commits on branch '"
                            +:+ currentBranch +:+ "'.");;
               mret true)
              (λ error,
                 console_error ("Error creating clean repository: " +:+ message error);;
                 mret false)
          else
            console_log "Preserving commits from current user and removing others...";;
            try_catch
              (firstCurrentUserCommit ← of_result
                 (match last currentUserCommits with
                  | Some c => inr c
                  | None => inl (mkError "Cannot read properties of undefined (reading 'subject')" "")
                  end);
               console_log ("Resetting to first commit by " +:+ currentUser +:+ ": " +:+ dq
                            +:+ show (subject firstCurrentUserCommit) +:+ dq);;
               runCommandStdIO ("git reset --hard " +:+ hash firstCurrentUserCommit);;
               console_log ("Successfully cleaned repository. Now showing only commits from "
                            +:+ currentUser +:+ ".");;
               mret true)
              (λ error,
                 console_error ("Error cleaning repository: " +:+ message error);;
                 mret false));
       if negb cleaned then mret tt
       else
         forcePushCleaned currentBranch;;
         console_log (nl +:+ "Repository history has been cleaned successfully."))
      (λ error, console_error ("Error analyzing commit history: " +:+ message error)))
  end.

Definition cleanAllQuery : string :=
  "Continue with cleaning all commit history? (Y/N): ".

Definition opCleanAllCommits : M unit :=
  console_log (nl +:+ "=== " +:+ TOOL_DIR +:+ " - Clean All Commit History ===");;
  console_log "Operation: --clean-all";;
  config ← readConfig;
  match usable githubUsername config with
  | None => console_error "Error: Project configuration is missing. Please run --init first."
  | Some config =>
    attempt getCurrentGitBranch (λ _, mret tt) (λ currentBranch,
    console_log ("Current branch: " +:+ currentBranch);;
    console_log "This will remove ALL commit history and create a fresh repository with current files.";;
    confirmClean ← askQuestion cleanAllQuery;
    if negb (toLowerCase confirmClean === "y") then
      console_log "Operation cancelled by user."
    else
    try_catch
      (console_log "Creating orphan branch to preserve current files...";;
       runCommandStdIO "git checkout --orphan temp-clean-branch";;
       console_log "Adding all current files to new branch...";;
       runCommandStdIO "git add -A";;
       let commitMessage := "Clean repository - Initial commit by "
                            +:+ githubUsername config in
       console_log ("Creating initial commit: " +:+ dq +:+ commitMessage +:+ dq);;
       runCommandStdIO ("git commit -m " +:+ dq +:+ commitMessage +:+ dq);;
       console_log ("Deleting old branch: " +:+ currentBranch);;
       runCommandStdIO ("git branch -D " +:+ currentBranch);;
       console_log ("Renaming clean branch to: " +:+ currentBranch);;
       runCommandStdIO ("git branch -m " +:+ currentBranch);;
       console_log ("Successfully cleaned all commit history on branch '"
                    +:+ currentBranch +:+ "'.");;
       console_log "Repository now contains only one commit with all current files.";;
       forcePushCleaned currentBranch;;
       console_log (nl +:+ "Repository history has been completely cleaned.");;
       console_log "All your current files are preserved in a single initial commit.")
      (λ error,
         console_error ("Error cleaning repository history: " +:+ message error);;
         try_catch
           (console_log "Attempting to recover by switching back to original branch...";;
            runCommandStdIO ("git checkout " +:+ currentBranch);;
            mret tt)
           (λ recoverError,
              console_error "Critical error during cleanup. Please manually check git status.")))
  end.

(** *** Installer: the project's .gitignore *)

Definition toolGitignoreContent : string :=
  nl +:+ "# " +:+ TOOL_DIR +:+ nl +:+ "/" +:+ TOOL_DIR +:+ "/" +:+ nl +:+ ".env*" +:+ nl
  +:+ "*.key" +:+ nl +:+ "*.pem" +:+ nl +:+ "config.local.*" +:+ nl.

Definition toolGitignoreMarker : string := "# " +:+ TOOL_DIR.

Definition rulesToAdd (gitignoreContent : string) : list string :=
  filter (λ rule,
            let trimmedRule := trim rule in
            (if trimmedRule === "" then false
             else
               let ruleToCheck := if endsWith trimmedRule "/" then dropLast trimmedRule
                                  else trimmedRule in
               negb (includes gitignoreContent ruleToCheck)) = true)
         (split "010" toolGitignoreContent).

Definition contentToAppend (gitignoreContent : string) : string :=
  let rules := rulesToAdd gitignoreContent in
  if (0 <? length rules)%nat then
    (if includes gitignoreContent toolGitignoreMarker then nl
     else nl +:+ toolGitignoreMarker +:+ nl +:+ "# " +:+ TOOL_DIR +:+ " rules" +:+ nl)
    +:+ join nl rules +:+ nl
  else if negb (includes gitignoreContent ("/" +:+ TOOL_DIR +:+ "/")) then
    nl +:+ toolGitignoreMarker +:+ nl +:+ "/" +:+ TOOL_DIR +:+ "/" +:+ nl
  else "".

Definition appendPrefix (gitignoreContent contentToAppend : string) : string :=
  if (0 <? String.length gitignoreContent)%nat && negb (endsWith gitignoreContent nl)
  then nl
  else if (0 <? String.length gitignoreContent)%nat && endsWith gitignoreContent nl
          && negb (endsWith gitignoreContent (nl +:+ nl))
          && negb (startsWith contentToAppend nl)
  then nl
  else "".

Definition updateProjectGitignore (targetDir : string) : M unit :=
  let projectGitignorePath := path_join targetDir ".gitignore" in
  console_log ("Updating .gitignore file: " +:+ projectGitignorePath);;
  present ← fs_existsSync projectGitignorePath;
  if negb present then
    console_log ".gitignore not found. Creating a new one with tool-specific rules.";;
    try_catch
      (fs_writeFileSync projectGitignorePath
         ("# Generated by " +:+ TOOL_DIR +:+ nl +:+ toolGitignoreContent);;
       console_log ("Successfully created .gitignore: " +:+ projectGitignorePath))
      (λ e, console_error ("Error creating .gitignore file " +:+ projectGitignorePath
                           +:+ ": " +:+ message e +:+ "."))
  else
    console_log ".gitignore exists. Checking and appending rules if necessary.";;
    attempt (fs_readFileSync projectGitignorePath)
      (λ e, console_error ("Error reading .gitignore file " +:+ projectGitignorePath
                           +:+ ": " +:+ message e))
      (λ gitignoreContent,
    if includes gitignoreContent toolGitignoreMarker then
      console_warn (".gitignore already contains a section for " +:+ TOOL_DIR
                    +:+ ". Skipping modification.")
    else
      let contentToAppend := contentToAppend gitignoreContent in
      if truthy contentToAppend then
        try_catch
          (let prefix := appendPrefix gitignoreContent contentToAppend in
           fs_appendFileSync projectGitignorePath (prefix +:+ contentToAppend);;
           console_log ".gitignore file has been updated.")
          (λ e, console_error ("Error appending to .gitignore file "
                               +:+ projectGitignorePath +:+ ": " +:+ message e))
      else
        console_log ("All necessary " +:+ TOOL_DIR
                     +:+ " .gitignore rules seem to be present. No changes made.")).

End Script.

(** ** The other operations *)

(** Directories are made by the installer and by [--init] only; the rest of
    the script does without them. *)
Class FileTree (W : Type) := {
  (** [fs.mkdirSync(dir, { recursive: true })] *)
  mkdirSync : string → W → Error + W
}.

Section Operations.
Context `{World W}.
Import JS.

#[local] Abbreviation M := (M W).

(** [s.replace(/\s+/g, '-')]: every run of white space becomes one dash.
    [afterSpace] says that the character before was white space. *)
Fixpoint dashRuns (afterSpace : bool) (s : string) : string :=
  match s with
  | EmptyString => EmptyString
  | String c s' =>
      if isWhiteSpace c then
        if afterSpace then dashRuns true s' else String "-" (dashRuns true s')
      else String c (dashRuns false s')
  end.

Definition dashWhiteSpace (s : string) : string := dashRuns false s.

Definition pullChanges : M unit :=
  console_log (nl +:+ "=== Pull Latest Changes ===");;
  console_log "Operation: Pull latest changes from remote";;
  attempt getCurrentGitBranch (λ _, mret tt) (λ currentBranch,
  console_log ("Attempting to pull latest changes for branch '" +:+ currentBranch
               +:+ "' from remote 'origin'...");;
  try_catch
    (runCommandStdIO ("git pull origin " +:+ currentBranch);;
     console_log ("Successfully pulled latest changes for branch '" +:+ currentBranch
                  +:+ "'."))
    (λ e, console_error ("Error pulling changes for branch '" +:+ currentBranch
                         +:+ "'. Check Git output for details."))).


Definition set_githubUsername (v : string) (c : Config) : Config :=
  mkConfig (projectName c) v (backupBranch c) (autoIgnoreFiles c) (maxBackupAttempts c)
           (createdAt c) (version c).

(** The function assigns to [config.githubUsername]; the configuration is
    returned as the function leaves it, beside the answer. *)
Definition setupProjectConfigAndGhUser (config : Config) : M (bool * Config) :=
  named ←
    ((if negb (truthy (githubUsername config)) then
       console_log "Attempting to get GitHub username from authenticated GitHub CLI...";;
       try_catch
         (login ← runCommand "gh api user --jq .login" false;
          mret (Some (set_githubUsername login config)))
         (λ e,
            console_error ("Could not retrieve GitHub username. Ensure GitHub CLI is authenticated ("
                           +:+ dq +:+ "gh auth status" +:+ dq +:+ ").");;
            mret None)
     else mret (Some config)) : M (option Config));
  match named with
  | None => mret (false, config)
  | Some config =>
      updated ← updateConfig config;
      if (updated : bool) then
        console_log ("Configuration updated: Project Name " +:+ dq +:+ projectName config
                     +:+ dq +:+ ", GitHub Username " +:+ dq +:+ githubUsername config
                     +:+ dq +:+ ".");;
        mret (true, config)
      else
        console_error "Failed to update project configuration with GitHub username.";;
        mret (false, config)
  end.

Definition newBranchQuery : string := "Enter the name for the new backup branch: ".

Definition newBranchMessageQuery (newBranchName : string) : string :=
  "Enter commit message for the new branch '" +:+ newBranchName +:+ "': ".

Definition opBackupToNewBranch : M unit :=
  console_log (nl +:+ "=== " +:+ TOOL_DIR +:+ " - Backup to New Branch ===");;
  console_log "Operation: Backup to a new branch";;
  config ← readConfig;
  match usable projectName config with
  | None =>
      console_error "Error: Project configuration is missing or incomplete (projectName not found). Please run --init first."
  | Some config =>
    attempt getCurrentGitBranch
      (λ _, console_error "Could not determine the current branch to switch back to later. Aborting.")
      (λ previousBranch,
    newBranchName ← askQuestion newBranchQuery;
    if negb (truthy newBranchName) || (trim newBranchName === "") then
      console_log "No branch name provided. Aborting operation."
    else
    let newBranchName := dashWhiteSpace (trim newBranchName) in
    try_catch
      (console_log ("Creating and switching to new branch: " +:+ newBranchName +:+ "...");;
       runCommandStdIO ("git checkout -b " +:+ newBranchName);;
       console_log ("Successfully switched to new branch: " +:+ newBranchName);;
       answer ← askQuestion (newBranchMessageQuery newBranchName);
       let commitMessage := if truthy answer then answer
                            else "Initial commit for new branch " +:+ newBranchName in
       pushed ← commitAndPush commitMessage newBranchName (projectName config);
       if (pushed : bool) then
         console_log ("Successfully backed up to new branch: " +:+ newBranchName);;
         console_log ("You are currently on branch: " +:+ newBranchName);;
         console_log ("To switch back to your previous branch, use: git checkout "
                      +:+ previousBranch)
       else
         console_error "Failed to commit and push to the new branch. Attempting to switch back and clean up.";;
         runCommandStdIO ("git checkout " +:+ previousBranch);;
         runCommandStdIO ("git branch -D " +:+ newBranchName);;
         console_log ("Switched back to branch " +:+ previousBranch
                      +:+ " and attempted to delete the new branch " +:+ newBranchName
                      +:+ "."))
      (λ error,
         console_error ("Error during backup to new branch operation: " +:+ message error);;
         try_catch
           (console_log ("Attempting to switch back to original branch: "
                         +:+ previousBranch);;
            runCommandStdIO ("git checkout " +:+ previousBranch);;
            mret tt)
           (λ checkoutError,
              console_error ("Critical error: Failed to switch back to branch "
                             +:+ previousBranch +:+ " after an error: "
                             +:+ message checkoutError))))
  end.

Definition menuQuery : string := "Please choose an option (0-6): ".

(** The menu calls itself on an invalid choice; [fuel] bounds the number of
    prompts, and [None] is the answer of a run that would need more. *)
Fixpoint opShowBackupMenu (fuel : nat) : M (option unit) :=
  match fuel with
  | O => mret None
  | S fuel =>
      console_log (nl +:+ "Operation: --menu (Advanced Backup Options)");;
      console_log (nl +:+ "=== " +:+ TOOL_DIR +:+ " - Advanced Backup Options ===");;
      console_log "1. Backup with custom message (current branch)";;
      console_log "2. Create a new branch and backup to it";;
      console_log "3. Check remote sync status (current branch)";;
      console_log "4. Pull latest changes from remote (current branch)";;
      console_log "5. Clean old user commits from history";;
      console_log "6. Clean ALL commit history (keep current files only)";;
      console_log "0. Cancel and exit menu";;
      choice ← askQuestion menuQuery;
      if choice === "1" then opCommitWithMessage "";; mret (Some tt)
      else if choice === "2" then opBackupToNewBranch;; mret (Some tt)
      else if choice === "3" then checkRemoteSync;; mret (Some tt)
      else if choice === "4" then pullChanges;; mret (Some tt)
      else if choice === "5" then opCleanOldUserCommits;; mret (Some tt)
      else if choice === "6" then opCleanAllCommits;; mret (Some tt)
      else if choice === "0" then console_log "Operation cancelled by user.";; mret (Some tt)
      else
        console_log "Invalid option selected. Please try again.";;
        opShowBackupMenu fuel
  end.

(** *** The name of a new remote repository *)

(** [[a-zA-Z0-9_.-]] *)
Definition isRepoNameChar (c : ascii) : bool :=
  let n := Ascii.nat_of_ascii c in
  ((97 <=? n)%nat && (n <=? 122)%nat) || ((65 <=? n)%nat && (n <=? 90)%nat)
  || ((48 <=? n)%nat && (n <=? 57)%nat)
  || Ascii.eqb c "_" || Ascii.eqb c "." || Ascii.eqb c "-".

(** [[-._]] *)
Definition isNameSeparator (c : ascii) : bool :=
  Ascii.eqb c "-" || Ascii.eqb c "." || Ascii.eqb c "_".

Fixpoint keepChars (p : ascii → bool) (s : string) : string :=
  match s with
  | EmptyString => EmptyString
  | String c s' => if p c then String c (keepChars p s') else keepChars p s'
  end.

(** [s.replace(/^[-._]+/, '')] *)
Fixpoint dropLeading (p : ascii → bool) (s : string) : string :=
  match s with
  | String c s' => if p c then dropLeading p s' else s
  | EmptyString => EmptyString
  end.

(** [s.replace(/[-._]+$/, '')] *)
Fixpoint dropTrailing (p : ascii → bool) (s : string) : string :=
  match s with
  | EmptyString => EmptyString
  | String c s' =>
      match dropTrailing p s' with
      | EmptyString => if p c then EmptyString else String c EmptyString
      | rest => String c rest
      end
  end.

(** The [baseRepoName] of [setupRemoteRepo]. *)
Definition baseRepoName (projectName : string) : string :=
  let name :=
    dropTrailing isNameSeparator
      (dropLeading isNameSeparator
        (keepChars isRepoNameChar (dashWhiteSpace (trim projectName)))) in
  if truthy name then name else "new-backup-repository".

(** *** The default configuration *)

Fixpoint beforeSlash (s : string) : string :=
  match s with
  | EmptyString => EmptyString
  | String c s' => if Ascii.eqb c "/" then EmptyString else String c (beforeSlash s')
  end.

(** [path.basename] on POSIX paths: the last segment, trailing slashes
    apart. *)
Definition path_basename (p : string) : string :=
  String.rev (beforeSlash (dropLeading (Ascii.eqb "/") (String.rev p))).

Definition defaultConfig (projectNameForConfig stamp : string) : Config :=
  mkConfig projectNameForConfig "" "main"
    [".env*"; "*.log"; "*.tmp"; "node_modules/"; ".wrangler/"; "dist/"; "build/";
     "__pycache__/"; ".vscode/settings.json"; "Thumbs.db"; ".DS_Store";
     "/" +:+ TOOL_DIR +:+ "/"]
    5 stamp "2.7-nodejs-console-quieter".

Context `{FileTree W}.

Definition fs_mkdirSync (p : string) : M unit :=
  λ w, match mkdirSync p w with
       | inl e => (inl e, w, [])
       | inr w' => (inr tt, w', [])
       end.

Definition createProjectConfig (targetProjectRootDir : string) : M unit :=
  let toolDirInTarget := path_join targetProjectRootDir TOOL_DIR in
  let actualConfigPath := path_join toolDirInTarget CONFIG_FILE in
  let projectNameForConfig := path_basename targetProjectRootDir in
  present ← fs_existsSync actualConfigPath;
  if (present : bool) then
    console_warn ("Configuration file " +:+ actualConfigPath
                  +:+ " already exists. Skipping creation.")
  else
    console_log ("Creating default configuration file: " +:+ actualConfigPath);;
    stamp ← getFormattedTimestamp;
    let defaultConfig := defaultConfig projectNameForConfig stamp in
    try_catch
      (toolDirPresent ← fs_existsSync toolDirInTarget;
       when_ (negb toolDirPresent) (fs_mkdirSync toolDirInTarget);;
       fs_writeFileSync actualConfigPath (JSON_stringify defaultConfig);;
       console_log ("Successfully created configuration file: " +:+ actualConfigPath))
      (λ e, console_error ("Failed to create configuration file " +:+ actualConfigPath
                           +:+ ": " +:+ message e)).

End Operations.

(** ** A JSON codec for the configuration record

    The reference worlds below need a concrete [JSON.stringify(_, null, 2)]
    and [JSON.parse]; this one covers the values a configuration is made of
    (strings, integers, arrays, objects, [null]). *)

Module Json.
Import JS.

Inductive value :=
| Null
| Num (n : Z)
| Str (s : string)
| Arr (l : list value)
| Obj (l : list (string * value)).

Definition hexDigit (n : nat) : ascii :=
  Ascii.ascii_of_nat (if (n <? 10)%nat then 48 + n else 87 + n).

Definition escapeChar (c : ascii) : string :=
  let n := Ascii.nat_of_ascii c in
  if Ascii.eqb c "034" then "\" +:+ dq
  else if Ascii.eqb c "\" then "\\"
  else if Ascii.eqb c "008" then "\b"
  else if Ascii.eqb c "009" then "\t"
  else if Ascii.eqb c "010" then "\n"
  else if Ascii.eqb c "012" then "\f"
  else if Ascii.eqb c "013" then "\r"
  else if (n <? 32)%nat then
    "\u00" +:+ String (hexDigit (n / 16)) (String (hexDigit (n mod 16)) "")
  else String c "".

Fixpoint escape (s : string) : string :=
  match s with
  | EmptyString => EmptyString
  | String c s' => escapeChar c +:+ escape s'
  end.

Definition quote (s : string) : string := dq +:+ escape s +:+ dq.

Fixpoint spaces (n : nat) : string :=
  match n with O => "" | S n' => " " +:+ spaces n' end.

Fixpoint print (indent : nat) (v : value) : string :=
  match v with
  | Null => "null"
  | Num n => pretty n
  | Str s => quote s
  | Arr [] => "[]"
  | Arr l =>
      "[" +:+ nl
      +:+ join ("," +:+ nl) (map (λ x, spaces (indent + 2) +:+ print (indent + 2) x) l)
      +:+ nl +:+ spaces indent +:+ "]"
  | Obj [] => "{}"
  | Obj l =>
      "{" +:+ nl
      +:+ join ("," +:+ nl)
            (map (λ kv, spaces (indent + 2) +:+ quote kv.1 +:+ ": "
                        +:+ print (indent + 2) kv.2) l)
      +:+ nl +:+ spaces indent +:+ "}"
  end.

Inductive token :=
| LBrace | RBrace | LBracket | RBracket | Colon | Comma
| TStr (s : string) | TNum (n : Z) | TNull.

Inductive lexer :=
| Idle
| InString (acc : string)
| InEscape (acc : string)
| InUnicode (acc : string) (digits : list nat)
| InNumber (negative : bool) (acc : Z)
| InNull (seen : nat).

Definition hexValue (c : ascii) : option nat :=
  let n := Ascii.nat_of_ascii c in
  if (48 <=? n)%nat && (n <=? 57)%nat then Some (n - 48)%nat
  else if (97 <=? n)%nat && (n <=? 102)%nat then Some (n - 87)%nat
  else if (65 <=? n)%nat && (n <=? 70)%nat then Some (n - 55)%nat
  else None.

Definition digitValue (c : ascii) : option Z :=
  let n := Ascii.nat_of_ascii c in
  if (48 <=? n)%nat && (n <=? 57)%nat then Some (Z.of_nat (n - 48)) else None.

Definition finishNumber (negative : bool) (acc : Z) : token :=
  TNum (if negative then - acc else acc).

Definition punctuation (c : ascii) : option token :=
  if Ascii.eqb c "{" then Some LBrace
  else if Ascii.eqb c "}" then Some RBrace
  else if Ascii.eqb c "[" then Some LBracket
  else if Ascii.eqb c "]" then Some RBracket
  else if Ascii.eqb c ":" then Some Colon
  else if Ascii.eqb c "," then Some Comma
  else None.

(** Start of a token, in the idle state. *)
Definition lexIdle (c : ascii) : option (list token * lexer) :=
  if isWhiteSpace c then Some ([], Idle)
  else if Ascii.eqb c "034" then Some ([], InString "")
  else if Ascii.eqb c "-" then Some ([], InNumber true 0)
  else if Ascii.eqb c "n" then Some ([], InNull 1)
  else match punctuation c, digitValue c with
       | Some t, _ => Some ([t], Idle)
       | None, Some d => Some ([], InNumber false d)
       | None, None => None
       end.

Definition unescape (c : ascii) : option ascii :=
  if Ascii.eqb c "034" then Some "034"%char
  else if Ascii.eqb c "\" then Some "\"%char
  else if Ascii.eqb c "/" then Some "/"%char
  else if Ascii.eqb c "b" then Some "008"%char
  else if Ascii.eqb c "t" then Some "009"%char
  else if Ascii.eqb c "n" then Some "010"%char
  else if Ascii.eqb c "f" then Some "012"%char
  else if Ascii.eqb c "r" then Some "013"%char
  else None.

Definition lexStep (st : lexer) (c : ascii) : option (list token * lexer) :=
  match st with
  | Idle => lexIdle c
  | InString acc =>
      if Ascii.eqb c "034" then Some ([TStr (String.rev acc)], Idle)
      else if Ascii.eqb c "\" then Some ([], InEscape acc)
      else Some ([], InString (String c acc))
  | InEscape acc =>
      if Ascii.eqb c "u" then Some ([], InUnicode acc [])
      else match unescape c with
           | Some a => Some ([], InString (String a acc))
           | None => None
           end
  | InUnicode acc digits =>
      match hexValue c with
      | None => None
      | Some d =>
          match digits with
          | [d1; d2; d3] =>
              if (d1 =? 0)%nat && (d2 =? 0)%nat
              then Some ([], InString (String (Ascii.ascii_of_nat (16 * d3 + d)) acc))
              else None
          | _ => Some ([], InUnicode acc (digits ++ [d]))
          end
      end
  | InNumber negative acc =>
      match digitValue c with
      | Some d => Some ([], InNumber negative (10 * acc + d))
      | None =>
          match lexIdle c with
          | Some (ts, st') => Some (finishNumber negative acc :: ts, st')
          | None => None
          end
      end
  | InNull seen =>
      match seen, c with
      | 1%nat, "u"%char => Some ([], InNull 2)
      | 2%nat, "l"%char => Some ([], InNull 3)
      | 3%nat, "l"%char => Some ([TNull], Idle)
      | _, _ => None
      end
  end.

Fixpoint lex (st : lexer) (s : string) : option (list token) :=
  match s with
  | EmptyString =>
      match st with
      | Idle => Some []
      | InNumber negative acc => Some [finishNumber negative acc]
      | _ => None
      end
  | String c s' =>
      '(ts, st') ← lexStep st c;
      rest ← lex st' s';
      Some (ts ++ rest)
  end.

(** Recursive descent over the tokens; [fuel] bounds the nesting depth plus
    the number of elements read. *)
Fixpoint parseValue (fuel : nat) (ts : list token) : option (value * list token) :=
  match fuel with
  | O => None
  | S fuel =>
      match ts with
      | TNull :: ts => Some (Null, ts)
      | TNum n :: ts => Some (Num n, ts)
      | TStr s :: ts => Some (Str s, ts)
      | LBracket :: RBracket :: ts => Some (Arr [], ts)
      | LBracket :: ts =>
          '(l, ts) ← parseElements fuel ts;
          Some (Arr l, ts)
      | LBrace :: RBrace :: ts => Some (Obj [], ts)
      | LBrace :: ts =>
          '(l, ts) ← parseMembers fuel ts;
          Some (Obj l, ts)
      | _ => None
      end
  end
with parseElements (fuel : nat) (ts : list token) : option (list value * list token) :=
  match fuel with
  | O => None
  | S fuel =>
      '(v, ts) ← parseValue fuel ts;
      match ts with
      | RBracket :: ts => Some ([v], ts)
      | Comma :: ts =>
          '(l, ts) ← parseElements fuel ts;
          Some (v :: l, ts)
      | _ => None
      end
  end
with parseMembers (fuel : nat) (ts : list token)
    : option (list (string * value) * list token) :=
  match fuel with
  | O => None
  | S fuel =>
      match ts with
      | TStr k :: Colon :: ts =>
          '(v, ts) ← parseValue fuel ts;
          match ts with
          | RBrace :: ts => Some ([(k, v)], ts)
          | Comma :: ts =>
              '(l, ts) ← parseMembers fuel ts;
              Some ((k, v) :: l, ts)
          | _ => None
          end
      | _ => None
      end
  end.

Definition parse (s : string) : option value :=
  ts ← lex Idle s;
  '(v, rest) ← parseValue (S (length ts)) ts;
  match rest with [] => Some v | _ => None end.

(** *** The configuration as a JSON object *)

Definition ofConfig (c : Config) : value :=
  Obj [("projectName", Str (projectName c));
       ("githubUsername", Str (githubUsername c));
       ("backupBranch", Str (backupBranch c));
       ("autoIgnoreFiles", Arr (map Str (autoIgnoreFiles c)));
       ("maxBackupAttempts", Num (maxBackupAttempts c));
       ("createdAt", Str (createdAt c));
       ("version", Str (version c))].

Definition field (k : string) (l : list (string * value)) : option value :=
  snd <$> find (λ kv, k === kv.1) l.

(** A property read as a string: a missing one reads as the empty (falsy)
    string. *)
Definition stringField (k : string) (l : list (string * value)) : option string :=
  match field k l with
  | Some (Str s) => Some s
  | None => Some ""
  | _ => None
  end.

Definition asString (v : value) : option string :=
  match v with Str s => Some s | _ => None end.

Definition toConfig (v : value) : option (option Config) :=
  match v with
  | Null => Some None
  | Obj l =>
      pn ← stringField "projectName" l;
      gu ← stringField "githubUsername" l;
      bb ← stringField "backupBranch" l;
      ig ← match field "autoIgnoreFiles" l with
           | Some (Arr a) => mapM asString a
           | None => Some []
           | _ => None
           end;
      mb ← match field "maxBackupAttempts" l with
           | Some (Num n) => Some n
           | None => Some 0
           | _ => None
           end;
      ca ← stringField "createdAt" l;
      ve ← stringField "version" l;
      Some (Some (mkConfig pn gu bb ig mb ca ve))
  | _ => None
  end.

Definition stringify (c : Config) : string := print 0 (ofConfig c).

Definition parseConfig (s : string) : Error + option Config :=
  match parse s ≫= toConfig with
  | Some c => inr c
  | None => inl (mkError "Unexpected token in JSON" "")
  end.

End Json.

(** ** A scripted world

    A reference instance for running the script on concrete inputs: child
    processes answer from a prepared list, the user's lines come from
    another, files live in a finite map and a set of paths refuses writes. *)

Module Scripted.

Record state := mkState {
  outcomes : list (Error + string);
  answers : list string;
  files : gmap string string;
  readonly : gset string;
  clock : string
}.

Definition run (io : stdio) (cmd : string) (s : state) : (Error + string) * state :=
  match outcomes s with
  | [] => (inl (mkError ("spawnSync ENOENT: " +:+ cmd) ""), s)
  | r :: rest => (r, mkState rest (answers s) (files s) (readonly s) (clock s))
  end.

Definition readLine (query : string) (s : state) : string * state :=
  match answers s with
  | [] => ("", s)
  | a :: rest => (a, mkState (outcomes s) rest (files s) (readonly s) (clock s))
  end.

Definition exists_ (p : string) (s : state) : bool := bool_decide (is_Some (files s !! p)).

Definition read (p : string) (s : state) : Error + string :=
  match files s !! p with
  | Some c => inr c
  | None => inl (mkError ("ENOENT: no such file or directory, open '" +:+ p +:+ "'") "")
  end.

Definition write (p c : string) (s : state) : Error + state :=
  if bool_decide (p ∈ readonly s)
  then inl (mkError ("EACCES: permission denied, open '" +:+ p +:+ "'") "")
  else inr (mkState (outcomes s) (answers s) (<[p := c]> (files s)) (readonly s) (clock s)).

Definition append (p c : string) (s : state) : Error + state :=
  write p (default "" (files s !! p) +:+ c) s.

Lemma files_write_read p c s s' :
  write p c s = inr s' → exists_ p s' = true ∧ read p s' = inr c.
Proof.
  unfold write, exists_, read. case_bool_decide; [done|].
  intros [= <-]. simpl. rewrite lookup_insert_eq. split; [|done].
  by apply bool_decide_eq_true_2.
Qed.

Lemma files_append_read p c s s' old :
  append p c s = inr s' → read p s = inr old →
  exists_ p s' = true ∧ read p s' = inr (old +:+ c).
Proof.
  unfold append. intros Hw Hr. apply files_write_read in Hw as [? ->]. split; [done|].
  unfold read in Hr. destruct (files s !! p); by simplify_eq.
Qed.

Definition world (scriptDir : string) : World state := {|
  SCRIPT_DIR := scriptDir;
  execSync := run;
  question := readLine;
  existsSync := exists_;
  readFileSync := read;
  writeFileSync := write;
  appendFileSync := append;
  toISOString := λ _ s, clock s;
  JSON_parse := Json.parseConfig;
  JSON_stringify := Json.stringify;
  write_read := files_write_read;
  append_read := files_append_read
|}.

End Scripted.

(** ** A model of git

    A second reference world, in which the commands of the history rewrite
    act on a repository: branches with their histories, the remote-tracking
    branches of [origin], the checked-out branch, git's own identity and a
    working tree.  It follows git's documented behaviour for the commands
    the rewrite operations issue and rejects any other command.  Prompts and
    files are those of the scripted world. *)

Module Git.
Import JS.

Record commit := mkCommit {
  id : string;
  name : string;
  email : string;
  summary : string;
  time : nat
}.

#[global] Instance commit_eq_dec : EqDecision commit.
Proof. solve_decision. Defined.

Record repository := mkRepository {
  (** Local branches: the tip and its ancestors, newest first. *)
  heads : gmap string (list commit);
  (** Remote-tracking branches, as last fetched or pushed. *)
  origin : gmap string (list commit);
  (** The branch checked out; it is unborn while it is not in [heads]. *)
  HEAD : string;
  (** [user.name] and [user.email] of git's configuration. *)
  userName : string;
  userEmail : string;
  (** The working tree has files. *)
  worktree : bool;
  (** The working tree differs from the commit checked out. *)
  dirty : bool;
  (** The number of commits made so far: fresh ids and commit times. *)
  made : nat
}.

Record state := mkState { repo : repository; io : Scripted.state }.

(** Every commit reachable from a branch or a remote-tracking branch. *)
Definition reachable (r : repository) : list commit :=
  remove_dups (concat (snd <$> map_to_list (heads r))
               ++ concat (snd <$> map_to_list (origin r))).

Definition notOlder (a b : commit) : Prop := (time b ≤ time a)%nat.

#[global] Instance notOlder_dec : RelDecision notOlder.
Proof. intros a b. unfold notOlder. apply _. Defined.

(** [git log --all]: reverse chronological. *)
Definition logAll (r : repository) : list commit :=
  merge_sort notOlder (reachable r).

(** [--pretty=format:"%H|%an|%ae|%s"] *)
Definition format (c : commit) : string :=
  id c +:+ "|" +:+ name c +:+ "|" +:+ email c +:+ "|" +:+ summary c.

(** [s] without the prefix [p], if it has it. *)
Fixpoint stripPrefix (p s : string) : option string :=
  match p, s with
  | EmptyString, _ => Some s
  | String a p', String b s' => if Ascii.eqb a b then stripPrefix p' s' else None
  | String _ _, EmptyString => None
  end.

(** The history that ends in the commit [hash], looked up in one history. *)
Fixpoint historyFrom (hash : string) (h : list commit) : option (list commit) :=
  match h with
  | [] => None
  | c :: h' => if id c === hash then Some h else historyFrom hash h'
  end.

Definition histories (r : repository) : list (list commit) :=
  (snd <$> map_to_list (heads r)) ++ (snd <$> map_to_list (origin r)).

Definition resolve (hash : string) (r : repository) : option (list commit) :=
  list_find is_Some (historyFrom hash <$> histories r) ≫= snd.

Definition fatal (msg : string) : Error := mkError ("Command failed: " +:+ msg) msg.

Definition withHeads (hs : gmap string (list commit)) (head : string) (r : repository)
    : repository :=
  mkRepository hs (origin r) head (userName r) (userEmail r) (worktree r) (dirty r)
               (made r).

(** [git commit -m msg] *)
Definition commitAs (msg : string) (r : repository) : Error + repository :=
  if (userName r === "") || (userEmail r === "") then
    inl (fatal "Author identity unknown")
  else
    let c := mkCommit ("commit" +:+ pretty (made r)) (userName r) (userEmail r) msg
                      (made r) in
    match heads r !! HEAD r with
    | None =>
        if worktree r then
          inr (mkRepository (<[HEAD r := [c]]> (heads r)) (origin r) (HEAD r)
                            (userName r) (userEmail r) true false (S (made r)))
        else inl (fatal "nothing to commit")
    | Some h =>
        if dirty r then
          inr (mkRepository (<[HEAD r := c :: h]> (heads r)) (origin r) (HEAD r)
                            (userName r) (userEmail r) (worktree r) false (S (made r)))
        else inl (fatal "nothing to commit, working tree clean")
    end.

(** One git command on a repository: its output and the repository after
    it, or the error it exits with. *)
Definition git (cmd : string) (r : repository) : Error + (string * repository) :=
  if cmd === "git rev-parse --abbrev-ref HEAD" then
    if bool_decide (is_Some (heads r !! HEAD r)) then inr (HEAD r +:+ nl, r)
    else inl (fatal "ambiguous argument 'HEAD': unknown revision or path not in the working tree.")
  else if cmd === "git branch --show-current" then inr (HEAD r +:+ nl, r)
  else if cmd === gitLogCommand then inr (join nl (format <$> logAll r), r)
  else if cmd === "git add -A" then inr ("", r)
  else
  match stripPrefix "git checkout --orphan " cmd with
  | Some b =>
      if bool_decide (is_Some (heads r !! b))
      then inl (fatal ("a branch named '" +:+ b +:+ "' already exists"))
      else inr ("", withHeads (heads r) b r)
  | None =>
  match stripPrefix ("git commit -m " +:+ dq) cmd with
  | Some quoted =>
      match commitAs (dropLast quoted) r with
      | inl e => inl e
      | inr r' => inr ("", r')
      end
  | None =>
  match stripPrefix "git branch -D " cmd with
  | Some b =>
      if bool_decide (is_Some (heads r !! b)) then
        if b === HEAD r
        then inl (fatal ("Cannot delete branch '" +:+ b +:+ "' checked out"))
        else inr ("", withHeads (delete b (heads r)) (HEAD r) r)
      else inl (fatal ("branch '" +:+ b +:+ "' not found."))
  | None =>
  match stripPrefix "git branch -m " cmd with
  | Some b =>
      match heads r !! HEAD r, heads r !! b with
      | Some h, None => inr ("", withHeads (<[b := h]> (delete (HEAD r) (heads r))) b r)
      | Some _, Some _ => inl (fatal ("a branch named '" +:+ b +:+ "' already exists"))
      | None, _ => inl (fatal "no branch to rename")
      end
  | None =>
  match stripPrefix "git reset --hard " cmd with
  | Some hash =>
      match resolve hash r with
      | Some h =>
          inr ("HEAD is now at " +:+ hash,
               mkRepository (<[HEAD r := h]> (heads r)) (origin r) (HEAD r) (userName r)
                            (userEmail r) (worktree r) false (made r))
      | None => inl (fatal ("ambiguous argument '" +:+ hash +:+ "': unknown revision"))
      end
  | None =>
  match stripPrefix "git push --force origin " cmd with
  | Some b =>
      match heads r !! b with
      | Some h =>
          inr ("", mkRepository (heads r) (<[b := h]> (origin r)) (HEAD r) (userName r)
                                (userEmail r) (worktree r) (dirty r) (made r))
      | None => inl (fatal ("src refspec " +:+ b +:+ " does not match any"))
      end
  | None => inl (fatal ("'" +:+ cmd +:+ "' is not a git command of this model"))
  end end end end end end.

Definition run (io_ : stdio) (cmd : string) (s : state) : (Error + string) * state :=
  match git cmd (repo s) with
  | inl e => (inl e, s)
  | inr (out, r) => (inr out, mkState r (io s))
  end.

Definition readLine (query : string) (s : state) : string * state :=
  let '(a, io') := Scripted.readLine query (io s) in (a, mkState (repo s) io').

Definition write (p c : string) (s : state) : Error + state :=
  match Scripted.write p c (io s) with
  | inl e => inl e
  | inr io' => inr (mkState (repo s) io')
  end.

Definition append (p c : string) (s : state) : Error + state :=
  match Scripted.append p c (io s) with
  | inl e => inl e
  | inr io' => inr (mkState (repo s) io')
  end.

Lemma state_write_read p c s s' :
  write p c s = inr s' →
  Scripted.exists_ p (io s') = true ∧ Scripted.read p (io s') = inr c.
Proof.
  unfold write. destruct (Scripted.write p c (io s)) as [e|io'] eqn:Hw; [done|].
  intros [= <-]. by apply Scripted.files_write_read in Hw.
Qed.

Lemma state_append_read p c s s' old :
  append p c s = inr s' → Scripted.read p (io s) = inr old →
  Scripted.exists_ p (io s') = true ∧ Scripted.read p (io s') = inr (old +:+ c).
Proof.
  unfold append. destruct (Scripted.append p c (io s)) as [e|io'] eqn:Hw; [done|].
  intros [= <-] Hr. by eapply Scripted.files_append_read in Hw.
Qed.

Definition world (scriptDir : string) : World state := {|
  SCRIPT_DIR := scriptDir;
  execSync := run;
  question := readLine;
  existsSync := λ p s, Scripted.exists_ p (io s);
  readFileSync := λ p s, Scripted.read p (io s);
  writeFileSync := write;
  appendFileSync := append;
  toISOString := λ _ s, Scripted.clock (io s);
  JSON_parse := Json.parseConfig;
  JSON_stringify := Json.stringify;
  write_read := state_write_read;
  append_read := state_append_read
|}.

(** The repository after one command, if the command succeeds. *)
Definition step (cmd : string) (r : repository) : option repository :=
  match git cmd r with
  | inr (_, r') => Some r'
  | inl _ => None
  end.


(** The repository after the commands of a trace, provided the outcomes
    recorded in the trace are those git gives. *)
Fixpoint replay (t : list event) (r : repository) : option repository :=
  match t with
  | [] => Some r
  | Exec _ cmd (inr _) :: t' => step cmd r ≫= replay t'
  | Exec _ cmd (inl _) :: t' =>
      match git cmd r with
      | inl _ => replay t' r
      | inr _ => None
      end
  | _ :: t' => replay t' r
  end.


(** The claim about a repository after the rewrite: it holds exactly one
    commit, and the configured user [u] is its author by the tool's own
    test. *)
Definition authoredAs (u : string) (c : commit) : Prop :=
  name c = u ∨ includes (email c) u = true.

Definition singleCommitBy (u : string) (r : repository) : Prop :=
  ∃ c, reachable r = [c] ∧ authoredAs u c.

End Git.

(** ** Specification vocabulary *)

(** The six sync states of the specification. *)
Definition syncStates : list string :=
  ["uptodate"; "behind"; "ahead"; "diverged"; "no_remote"; "error"].

(** What one run of the classifier learns from its commands. *)
Inductive observation :=
| CommandFailed
| NoRemoteBranch
| Hashes (local remote base : string).

(** The decision table of the specification, row by row. *)
Definition decision_table (o : observation) : string :=
  match o with
  | CommandFailed => "error"
  | NoRemoteBranch => "no_remote"
  | Hashes local remote base =>
      if local === remote then "uptodate"
      else if local === base then "behind"
      else if remote === base then "ahead"
      else "diverged"
  end.

(** Some child process of the trace exited with an error. *)
Definition failed (t : list event) : Prop :=
  ∃ io cmd e, Exec io cmd (inl e) ∈ t.

(** [cmd] ran through a pipe and printed [out] (before trimming). *)
Definition printed (t : list event) (cmd out : string) : Prop :=
  Exec pipe cmd (inr out) ∈ t.

(** How a trace of [getGitStatus] is read as an observation. *)
Inductive observed (branchName : string) (t : list event) : observation → Prop :=
| observed_failure :
    failed t → observed branchName t CommandFailed
| observed_no_remote heads :
    ¬ failed t →
    printed t ("git ls-remote --heads origin " +:+ branchName) heads →
    JS.trim heads = "" →
    observed branchName t NoRemoteBranch
| observed_hashes heads local remote base :
    ¬ failed t →
    printed t ("git ls-remote --heads origin " +:+ branchName) heads →
    JS.trim heads ≠ "" →
    printed t "git rev-parse HEAD" local →
    printed t ("git rev-parse origin/" +:+ branchName) remote →
    printed t ("git merge-base HEAD origin/" +:+ branchName) base →
    observed branchName t (Hashes (JS.trim local) (JS.trim remote) (JS.trim base)).

(** Events of a fragment whose commands satisfy [cmds] and whose questions
    satisfy [queries]; console output is unrestricted. *)
Definition allows (cmds : stdio → string → Prop) (queries : string → Prop) (e : event)
    : Prop :=
  match e with
  | Exec io cmd _ => cmds io cmd
  | Asked query _ => queries query
  | Log _ | Warn _ | Err _ => True
  end.

(** The same with the commands and questions listed. *)
Definition only (cmds : list (stdio * string)) (queries : list string) : event → Prop :=
  allows (λ io cmd, (io, cmd) ∈ cmds) (λ query, query ∈ queries).

(** [p] occurs in [s]. *)
Definition substring (p s : string) : Prop := ∃ s1 s2, s = s1 +:+ p +:+ s2.

(** A trace in which the status report pushed: [git push] for [ahead],
    [git push -u] for [no_remote]. *)
Definition pushes (st : GitStatus) (branchName : string) (t : list event) : Prop :=
  (sync st = "ahead" → ∃ r, Exec inherit ("git push origin " +:+ branchName) r ∈ t)
  ∧ (sync st = "no_remote" →
     ∃ r, Exec inherit ("git push -u origin " +:+ branchName) r ∈ t).

(** The commands each status function may run. *)
Definition branchCommands : list (stdio * string) :=
  [(pipe, "git rev-parse --abbrev-ref HEAD"); (pipe, "git branch --show-current")].

Definition statusCommands (branchName : string) : list (stdio * string) :=
  [(pipe, "git status --porcelain"); (pipe, "git remote update");
   (pipe, "git rev-parse HEAD");
   (pipe, "git ls-remote --heads origin " +:+ branchName);
   (pipe, "git rev-parse origin/" +:+ branchName);
   (pipe, "git merge-base HEAD origin/" +:+ branchName)].

Definition pushCommands (branchName : string) : list (stdio * string) :=
  [(inherit, "git push origin " +:+ branchName);
   (inherit, "git push -u origin " +:+ branchName)].


(** The question [--commit] asks when it has no message. *)
Definition messageQuery : string := "Please enter your commit message: ".


(** The commands the rewrite operations run before asking for
    confirmation. *)
Definition inspectCommands : list (stdio * string) :=
  [(pipe, "git rev-parse --abbrev-ref HEAD"); (pipe, "git branch --show-current");
   (pipe, gitLogCommand)].

(** Commands that change the repository or the remote: checkout, reset,
    branch deletion or renaming, add, commit, push. *)
Definition mutating (cmd : string) : bool :=
  existsb (JS.startsWith cmd)
    ["git checkout"; "git reset"; "git branch -D"; "git branch -m"; "git add";
     "git commit"; "git push"].

(** The lines of the log that the rewrite parses. *)
Definition logCommits (out : string) : list string :=
  filter (λ line, JS.truthy (JS.trim line) = true) (JS.split "010" (JS.trim out)).

(** What a confirmed rewrite that resets to [c] on branch [b] may run. *)
Definition resetCommands (c : Commit) (b : string) : list (stdio * string) :=
  inspectCommands ++ [(inherit, "git reset --hard " +:+ hash c);
                      (inherit, "git push --force origin " +:+ b)].



(** The commands of a trace that ran with inherited stdio, in order. *)
Fixpoint stdioCommands (t : list event) : list string :=
  match t with
  | [] => []
  | Exec inherit cmd _ :: t' => cmd :: stdioCommands t'
  | _ :: t' => stdioCommands t'
  end.

(** A fragment over the git model whose final repository is the one its
    trace replays to. *)
Definition replays {A} (m : M Git.state A) : Prop :=
  ∀ s, Git.replay (trace (m s)) (Git.repo s) = Some (Git.repo (world (m s))).


(** A string that does not start with white space. *)
Definition trimmedStart (s : string) : Prop :=
  match s with
  | EmptyString => True
  | String c _ => JS.isWhiteSpace c = false
  end.

(** A run that only wrote to the console: the world is as before, and
    nothing was run or asked. *)
Definition untouched {W A} (w : W) (x : (Error + A) * W * list event) : Prop :=
  world x = w ∧ Forall (only [] []) (trace x).

(** A string without white space. *)
Definition spaceless (s : string) : Prop :=
  Forall (λ c, JS.isWhiteSpace c = false) (String.list_ascii_of_string s).

Definition firstChar (s : string) : option ascii :=
  match s with
  | EmptyString => None
  | String c _ => Some c
  end.

Fixpoint lastChar (s : string) : option ascii :=
  match s with
  | EmptyString => None
  | String c EmptyString => Some c
  | String _ s' => lastChar s'
  end.

(** Some command run with inherited stdio exited with an error. *)
Definition failedStdio (t : list event) : Prop :=
  ∃ cmd e, Exec inherit cmd (inl e) ∈ t.

(** How often the character [c] occurs in [s]. *)
Fixpoint occurrences (c : ascii) (s : string) : nat :=
  match s with
  | EmptyString => 0
  | String a s' => (if Ascii.eqb a c then 1 else 0) + occurrences c s'
  end.

(** ** Reasoning about script fragments *)

Section Logic.
Context {W : Type}.

(** [wp m w Q]: the run of [m] from [w] ends in an outcome, a world and a
    trace that satisfy [Q]. *)
Definition wp {A} (m : M W A) (w : W) (Q : Error + A → W → list event → Prop) : Prop :=
  Q (result (m w)) (world (m w)) (trace (m w)).

(** Every event a fragment can emit satisfies [P]. *)
Definition emits {A} (P : event → Prop) (m : M W A) : Prop :=
  ∀ w, Forall P (trace (m w)).

(** A fragment that never throws. *)
Definition total {A} (m : M W A) : Prop :=
  ∀ w, ∃ a, result (m w) = inr a.

End Logic.

(** ** Reference inputs *)

Module Sample.

(** The tool installed in [/proj], running in operation mode. *)
Definition installed : World Scripted.state := Scripted.world "/proj/backupTool".

Definition config : Config :=
  mkConfig "proj" "alice" "main" [".env*"; "*.log"] 5 "2025-01-01 07:00:00"
           "2.7-nodejs-console-quieter".

Definition configPath : string := "/proj/backupTool/backup-config.json".


(** A project directory with a configuration but no [.git]. *)
Definition plainDirectory : Scripted.state :=
  Scripted.mkState [] [] {[ configPath := Json.stringify config ]} ∅
                   "2025-01-01T00:00:00.000Z".

(** A repository in which the commands answer with [outcomes] and the user
    with [answers]. *)
Definition repository (outcomes : list (Error + string)) (answers : list string)
    : Scripted.state :=
  Scripted.mkState outcomes answers
    {[ configPath := Json.stringify config; "/proj/.git" := "" ]} ∅
    "2025-01-01T00:00:00.000Z".

(** Local HEAD is the merge base and the remote has moved on. *)
Definition behindRemote : Scripted.state :=
  repository [inr ""; inr ""; inr "1111"; inr "2222 refs/heads/main"; inr "2222";
              inr "1111"] [].

(** The local branch has a commit the remote lacks; the first outcome is
    the current branch. *)
Definition aheadOfRemote : Scripted.state :=
  repository [inr "main"; inr ""; inr ""; inr "2222"; inr "1111 refs/heads/main";
              inr "1111"; inr "1111"; inr ""] [].

(** Four log lines, newest first: another author, the user by name, the
    user by a noreply address, and a differently capitalised name. *)
Definition logLines : list string :=
  ["c3|Bob|bob@example.com|third";
   "c2|alice|a@example.org|second";
   "c1|Carol|12345+alice@users.noreply.github.com|first";
   "c0|Alice|ALICE@example.com|zero"].

(** A project whose .gitignore has one rule of its own. *)
Definition withGitignore : Scripted.state :=
  Scripted.mkState [] [] {[ "/proj/.gitignore" := "node_modules/" +:+ JS.nl ]} ∅
                   "2025-01-01T00:00:00.000Z".

(** The user answers [n] to the confirmation of [--clean-all]. *)
Definition decliningCleanAll : Scripted.state := repository [inr "main"] ["n"].

(** The user answers [No] to the confirmation of [--clean-history]. *)
Definition decliningCleanHistory : Scripted.state :=
  repository [inr "main"; inr (JS.join JS.nl logLines)] [" No "].


(** The user confirms [--clean-history] and declines the force push. *)
Definition confirmingCleanHistory : Scripted.state :=
  repository [inr "main"; inr (JS.join JS.nl logLines); inr ""] ["y"; "n"].

(** The tool in [/proj] on top of the git model. *)
Definition versioned : World Git.state := Git.world "/proj/backupTool".

Definition bob (hash : string) (time : nat) (summary : string) : Git.commit :=
  Git.mkCommit hash "Bob" "bob@example.com" summary time.

(** The user confirms the rewrite and declines the force push. *)
Definition session : Scripted.state :=
  Scripted.mkState [] ["y"; "n"] {[ configPath := Json.stringify config ]} ∅
                   "2025-01-01T00:00:00.000Z".

(** One branch, two commits, both by someone else; git commits as alice. *)
Definition foreignHistory : Git.state :=
  Git.mkState
    (Git.mkRepository {[ "main" := [bob "b2" 1 "second"; bob "b1" 0 "first"] ]} ∅
                      "main" "alice" "alice@example.com" true false 2)
    session.


Definition alice (hash : string) (time : nat) (summary : string) : Git.commit :=
  Git.mkCommit hash "alice" "alice@example.com" summary time.

(** One branch on which the user and someone else alternate. *)
Definition mixedHistory : Git.state :=
  Git.mkState
    (Git.mkRepository
       {[ "main" := [alice "a3" 3 "fourth"; bob "b2" 2 "third";
                     alice "a1" 1 "second"; bob "b0" 0 "first"] ]} ∅
       "main" "alice" "alice@example.com" true false 4)
    session.

(** One branch by someone else; git commits under an identity that is not
    the configured user. *)
Definition foreignHistoryOtherIdentity : Git.state :=
  Git.mkState
    (Git.mkRepository {[ "main" := [bob "b2" 1 "second"; bob "b1" 0 "first"] ]} ∅
                      "main" "Build Bot" "bot@example.com" true false 2)
    session.

End Sample.

(** ** More reference inputs *)

(** In the scripted world a directory is an entry of the file map, as
    [.git] is in the reference inputs. *)
#[global] Instance Scripted_FileTree : FileTree Scripted.state :=
  {| mkdirSync p s := Scripted.write p "" s |}.

Module Scenario.

(** A project directory with nothing of the tool's in it. *)
Definition bare : Scripted.state :=
  Scripted.mkState [] [] ∅ ∅ "2025-01-01T00:00:00.000Z".

(** [--commit] without a message; the user types only spaces. *)
Definition noMessage : Scripted.state := Sample.repository [inr "main"] ["  "].

(** A log in which every commit is the user's. *)
Definition ownHistory : Scripted.state :=
  Sample.repository
    [inr "main";
     inr (JS.join JS.nl ["c2|alice|a@example.org|second"; "c1|alice|a@example.org|first"])]
    [].

(** A new branch named with two spaces in the middle, no commit message;
    every command succeeds. *)
Definition newBranch : Scripted.state :=
  Sample.repository [inr "main"; inr ""; inr ""; inr ""; inr ""] ["my  branch"; " "].

(** The user answers the menu with [9], then with [0]. *)
Definition undecided : Scripted.state := Sample.repository [] ["9"; " 0 "].

(** The user chooses [3] in the menu, and the local branch is ahead. *)
Definition menuSync : Scripted.state :=
  Sample.repository [inr "main"; inr ""; inr ""; inr "2222"; inr "1111 refs/heads/main";
                     inr "1111"; inr "1111"; inr ""] ["3"].


End Scenario.

(** * Verified properties *)

#[local] Arguments String.append : simpl nomatch.

(** ** Rules of the program logic *)

Section Rules.
Context {W : Type}.
Implicit Types (w : W) (t : list event).

Lemma wp_ret {A} (a : A) w Q : Q (inr a) w [] → wp (mret a) w Q.
Proof. done. Qed.

Lemma wp_throw {A} e w (Q : Error + A → W → list event → Prop) :
  Q (inl e) w [] → wp (throw e) w Q.
Proof. done. Qed.

Lemma wp_of_result {A} (r : Error + A) w Q : Q r w [] → wp (of_result r) w Q.
Proof. done. Qed.

Lemma wp_emit e w Q : Q (inr tt) w [e] → wp (emit e) w Q.
Proof. done. Qed.

Lemma wp_bind {A B} (m : M W A) (k : A → M W B) w Q :
  wp m w (λ r w1 t1,
            match r with
            | inl e => Q (inl e) w1 t1
            | inr a => wp (k a) w1 (λ r2 w2 t2, Q r2 w2 (t1 ++ t2))
            end) →
  wp (m ≫= k) w Q.
Proof.
  unfold wp, mbind, M_bind, bind, result, world, trace.
  destruct (m w) as [[[e|a] w1] t1]; simpl; [done|].
  by destruct (k a w1) as [[r2 w2] t2].
Qed.

Lemma wp_try_catch {A} (m : M W A) h w Q :
  wp m w (λ r w1 t1,
            match r with
            | inl e => wp (h e) w1 (λ r2 w2 t2, Q r2 w2 (t1 ++ t2))
            | inr a => Q (inr a) w1 t1
            end) →
  wp (try_catch m h) w Q.
Proof.
  unfold wp, try_catch, result, world, trace.
  destruct (m w) as [[[e|a] w1] t1]; simpl; [|done].
  by destruct (h e w1) as [[r2 w2] t2].
Qed.

Lemma wp_attempt {A B} (m : M W A) h (k : A → M W B) w Q :
  wp m w (λ r w1 t1,
            match r with
            | inl e => wp (h e) w1 (λ r2 w2 t2, Q r2 w2 (t1 ++ t2))
            | inr a => wp (k a) w1 (λ r2 w2 t2, Q r2 w2 (t1 ++ t2))
            end) →
  wp (attempt m h k) w Q.
Proof.
  unfold wp, attempt, result, world, trace.
  destruct (m w) as [[[e|a] w1] t1]; simpl.
  - by destruct (h e w1) as [[r2 w2] t2].
  - by destruct (k a w1) as [[r2 w2] t2].
Qed.

Lemma wp_mono {A} (m : M W A) w (Q Q' : Error + A → W → list event → Prop) :
  wp m w Q → (∀ r w' t, Q r w' t → Q' r w' t) → wp m w Q'.
Proof. unfold wp. auto. Qed.

(** A run whose outcome is known. *)
Lemma wp_run {A} (m : M W A) w r w' t (Q : Error + A → W → list event → Prop) :
  m w = (r, w', t) → Q r w' t → wp m w Q.
Proof. unfold wp. by intros ->. Qed.

Lemma wp_when b (m : M W unit) w Q :
  (b = true → wp m w Q) → (b = false → Q (inr tt) w []) → wp (when_ b m) w Q.
Proof. intros H1 H2. destruct b; [by apply H1|by apply H2]. Qed.

(** Using what a fragment is known to emit. *)
Lemma wp_emits {A} P (m : M W A) w (Q : Error + A → W → list event → Prop) :
  emits P m → (∀ r w' t, Forall P t → Q r w' t) → wp m w Q.
Proof. unfold wp, emits. auto. Qed.

Lemma emits_ret {A} P (a : A) : emits P (mret a : M W A).
Proof. intros w. constructor. Qed.

Lemma emits_throw {A} P e : emits P (throw e : M W A).
Proof. intros w. constructor. Qed.

Lemma emits_of_result {A} P (r : Error + A) : emits P (of_result r : M W A).
Proof. intros w. constructor. Qed.

Lemma emits_emit (P : event → Prop) e : P e → emits P (emit e : M W unit).
Proof. intros ? w. by repeat constructor. Qed.

Lemma emits_bind {A B} P (m : M W A) (k : A → M W B) :
  emits P m → (∀ a, emits P (k a)) → emits P (m ≫= k).
Proof.
  intros Hm Hk w. specialize (Hm w).
  unfold mbind, M_bind, bind, trace in *.
  destruct (m w) as [[[e|a] w1] t1]; simpl in *; [done|].
  specialize (Hk a w1). unfold trace in Hk.
  destruct (k a w1) as [[r2 w2] t2]. simpl in *. by apply Forall_app.
Qed.

Lemma emits_try_catch {A} P (m : M W A) h :
  emits P m → (∀ e, emits P (h e)) → emits P (try_catch m h).
Proof.
  intros Hm Hh w. specialize (Hm w). unfold try_catch, trace in *.
  destruct (m w) as [[[e|a] w1] t1]; simpl in *; [|done].
  specialize (Hh e w1). unfold trace in Hh.
  destruct (h e w1) as [[r2 w2] t2]. simpl in *. by apply Forall_app.
Qed.

Lemma emits_attempt {A B} P (m : M W A) h (k : A → M W B) :
  emits P m → (∀ e, emits P (h e)) → (∀ a, emits P (k a)) → emits P (attempt m h k).
Proof.
  intros Hm Hh Hk w. specialize (Hm w). unfold attempt, trace in *.
  destruct (m w) as [[[e|a] w1] t1]; simpl in *.
  - specialize (Hh e w1). unfold trace in Hh.
    destruct (h e w1) as [[r2 w2] t2]. simpl in *. by apply Forall_app.
  - specialize (Hk a w1). unfold trace in Hk.
    destruct (k a w1) as [[r2 w2] t2]. simpl in *. by apply Forall_app.
Qed.

Lemma emits_when P b (m : M W unit) : emits P m → emits P (when_ b m).
Proof. intros Hm. destruct b; [done|apply emits_ret]. Qed.

Lemma emits_mono {A} (P P' : event → Prop) (m : M W A) :
  (∀ e, P e → P' e) → emits P m → emits P' m.
Proof. intros HP Hm w. eapply Forall_impl; eauto. Qed.

Lemma total_ret {A} (a : A) : total (mret a : M W A).
Proof. intros w. by exists a. Qed.

Lemma total_emit e : total (emit e : M W unit).
Proof. intros w. by exists tt. Qed.

Lemma total_bind {A B} (m : M W A) (k : A → M W B) :
  total m → (∀ a, total (k a)) → total (m ≫= k).
Proof.
  intros Hm Hk w. destruct (Hm w) as [a Ha].
  unfold mbind, M_bind, bind, result in *.
  destruct (m w) as [[[e|a'] w1] t1]; simplify_eq/=.
  destruct (Hk a w1) as [b Hb]. unfold result in Hb.
  destruct (k a w1) as [[r2 w2] t2]. eauto.
Qed.

Lemma total_try_catch {A} (m : M W A) h :
  (∀ e, total (h e)) → total (try_catch m h).
Proof.
  intros Hh w. unfold try_catch, result.
  destruct (m w) as [[[e|a] w1] t1]; simpl; [|eauto].
  destruct (Hh e w1) as [b Hb]. unfold result in Hb.
  destruct (h e w1) as [[r2 w2] t2]. eauto.
Qed.

Lemma total_attempt {A B} (m : M W A) h (k : A → M W B) :
  (∀ e, total (h e)) → (∀ a, total (k a)) → total (attempt m h k).
Proof.
  intros Hh Hk w. unfold attempt, result.
  destruct (m w) as [[[e|a] w1] t1]; simpl.
  - destruct (Hh e w1) as [b Hb]. unfold result in Hb.
    destruct (h e w1) as [[r2 w2] t2]. eauto.
  - destruct (Hk a w1) as [b Hb]. unfold result in Hb.
    destruct (k a w1) as [[r2 w2] t2]. eauto.
Qed.

Lemma total_when b (m : M W unit) : total m → total (when_ b m).
Proof. intros Hm. destruct b; [done|apply total_ret]. Qed.

End Rules.

(** ** What each function may run and ask *)

Lemma allows_mono (cmds cmds' : stdio → string → Prop) (queries queries' : string → Prop) e :
  (∀ io cmd, cmds io cmd → cmds' io cmd) → (∀ query, queries query → queries' query) →
  allows cmds queries e → allows cmds' queries' e.
Proof. destruct e; simpl; auto. Qed.

Section Footprints.
Context `{World W}.
Import JS.

#[local] Abbreviation M := (M W).

Lemma emits_exec P io cmd :
  (∀ r, P (Exec io cmd r)) → emits P (exec io cmd).
Proof.
  intros HP w. unfold exec, trace. destruct (execSync io cmd w) as [r w'].
  simpl. by repeat constructor.
Qed.

Lemma emits_askQuestion P query :
  (∀ a, P (Asked query a)) → emits P (askQuestion query).
Proof.
  intros HP w. unfold askQuestion, trace. destruct (question query w) as [a w'].
  simpl. by repeat constructor.
Qed.

Lemma emits_fs_existsSync P p : emits P (fs_existsSync p).
Proof. intros w. constructor. Qed.

Lemma emits_fs_readFileSync P p : emits P (fs_readFileSync p).
Proof. intros w. constructor. Qed.

Lemma emits_fs_writeFileSync P p c : emits P (fs_writeFileSync p c).
Proof. intros w. unfold fs_writeFileSync, trace. destruct writeFileSync; constructor. Qed.

Lemma emits_fs_appendFileSync P p c : emits P (fs_appendFileSync p c).
Proof. intros w. unfold fs_appendFileSync, trace. destruct appendFileSync; constructor. Qed.

Lemma emits_getFormattedTimestamp P : emits P getFormattedTimestamp.
Proof. intros w. constructor. Qed.

End Footprints.

Create HintDb footprints.

(** Breaks a fragment down along its syntax; calls of functions are left to
    the [footprints] hints. *)
Ltac emits_step :=
  lazymatch goal with
  | |- emits _ (mbind _ _) => apply emits_bind; [|intros ?]
  | |- emits _ (try_catch _ _) => apply emits_try_catch; [|intros ?]
  | |- emits _ (attempt _ _ _) => apply emits_attempt; [|intros ?|intros ?]
  | |- emits _ (when_ _ _) => apply emits_when
  | |- emits _ (mret _) => apply emits_ret
  | |- emits _ (throw _) => apply emits_throw
  | |- emits _ (of_result _) => apply emits_of_result
  | |- emits _ (emit _) => apply emits_emit; try exact I
  | |- emits _ (console_log _) => apply emits_emit; try exact I
  | |- emits _ (console_warn _) => apply emits_emit; try exact I
  | |- emits _ (console_error _) => apply emits_emit; try exact I
  | |- emits _ (exec _ _) => apply emits_exec; intros ?
  | |- emits _ (askQuestion _) => apply emits_askQuestion; intros ?
  | |- emits _ (fs_existsSync _) => apply emits_fs_existsSync
  | |- emits _ (fs_readFileSync _) => apply emits_fs_readFileSync
  | |- emits _ (fs_writeFileSync _ _) => apply emits_fs_writeFileSync
  | |- emits _ (fs_appendFileSync _ _) => apply emits_fs_appendFileSync
  | |- emits _ getFormattedTimestamp => apply emits_getFormattedTimestamp
  | |- emits _ (if ?b then _ else _) => destruct b
  | |- emits _ (match ?x with _ => _ end) => destruct x
  | |- emits _ (let _ := _ in _) => cbv zeta
  | |- emits _ _ => solve [auto with footprints]
  end.

Ltac in_footprint := simpl; set_solver.

(** Reuses the footprint [lem] of a called function inside a larger one. *)
Ltac footprint lem :=
  eapply emits_mono; [|apply lem]; intros ?; apply allows_mono;
  [intros ? ?; simpl; try done; set_solver|intros ?; simpl; try done; set_solver].

Section Footprints.
Context `{World W}.
Import JS.

#[local] Abbreviation M := (M W).

Lemma emits_runCommand command suppress :
  emits (only [(pipe, command)] []) (runCommand command suppress).
Proof. unfold runCommand. repeat emits_step. all: in_footprint. Qed.

Lemma emits_runCommandStdIO command :
  emits (only [(inherit, command)] []) (runCommandStdIO command).
Proof. unfold runCommandStdIO. repeat emits_step. all: in_footprint. Qed.

End Footprints.

#[global] Hint Extern 1 (emits _ (runCommand _ _)) => footprint emits_runCommand : footprints.
#[global] Hint Extern 1 (emits _ (runCommandStdIO _)) => footprint emits_runCommandStdIO : footprints.

Section Footprints.
Context `{World W}.
Import JS.

#[local] Abbreviation M := (M W).

Lemma emits_readConfig : emits (only [] []) readConfig.
Proof. unfold readConfig. repeat emits_step. Qed.

Lemma emits_updateConfig c : emits (only [] []) (updateConfig c).
Proof. unfold updateConfig. repeat emits_step. Qed.

Lemma emits_getCurrentGitBranch : emits (only branchCommands []) getCurrentGitBranch.
Proof. unfold getCurrentGitBranch, branchCommands. repeat emits_step. Qed.

Lemma emits_getGitStatus_catch b st e P :
  (∀ m, P (Err m)) → (∀ m, P (Warn m)) → emits (W:=W) P (getGitStatus_catch b st e).
Proof. intros. unfold getGitStatus_catch. repeat emits_step; auto. Qed.

Lemma emits_getGitStatus b : emits (only (statusCommands b) []) (getGitStatus b).
Proof.
  unfold getGitStatus, statusCommands.
  repeat (emits_step || (apply emits_getGitStatus_catch; intros; exact I)).
Qed.

Lemma emits_displaySyncStatus st b op :
  emits (only (pushCommands b) []) (displaySyncStatus st b op).
Proof. unfold displaySyncStatus, pushCommands. repeat emits_step. Qed.

Lemma emits_commitAndPush m b p :
  emits (allows (λ io _, io = inherit) (λ _, False)) (commitAndPush m b p).
Proof. unfold commitAndPush. repeat emits_step; done. Qed.

Lemma emits_forcePushCleaned b :
  emits (only [(inherit, "git push --force origin " +:+ b)] [forcePushQuery])
        (forcePushCleaned b).
Proof. unfold forcePushCleaned. repeat emits_step; in_footprint. Qed.

Lemma emits_logOldCommits index l : emits (W:=W) (only [] []) (logOldCommits index l).
Proof.
  revert index. induction l as [|c l IH]; intros index; simpl; repeat emits_step.
Qed.

End Footprints.

#[global] Hint Extern 1 (emits _ (forcePushCleaned _)) =>
  footprint emits_forcePushCleaned : footprints.
#[global] Hint Extern 1 (emits _ (logOldCommits _ _)) =>
  footprint (emits_logOldCommits) : footprints.

(** ** Stepping through a run *)

Section Steps.
Context `{World W}.
Import JS.
Implicit Types (w : W) (t : list event).

Lemma wp_exec io cmd w Q :
  (∀ r w', Q r w' [Exec io cmd r]) → wp (exec io cmd) w Q.
Proof.
  intros HQ. unfold wp, exec, result, world, trace.
  destruct (execSync io cmd w) as [r w']. apply HQ.
Qed.

Lemma wp_askQuestion query w Q :
  (∀ a w', Q (inr (trim a)) w' [Asked query a]) → wp (askQuestion query) w Q.
Proof.
  intros HQ. unfold wp, askQuestion, result, world, trace.
  destruct (question query w) as [a w']. apply HQ.
Qed.

Lemma wp_fs_existsSync p w Q :
  Q (inr (existsSync p w)) w [] → wp (fs_existsSync p) w Q.
Proof. done. Qed.

Lemma wp_fs_readFileSync p w Q :
  Q (readFileSync p w) w [] → wp (fs_readFileSync p) w Q.
Proof. done. Qed.

Lemma wp_fs_writeFileSync p s w Q :
  (∀ e, writeFileSync p s w = inl e → Q (inl e) w []) →
  (∀ w', writeFileSync p s w = inr w' → Q (inr tt) w' []) →
  wp (fs_writeFileSync p s) w Q.
Proof.
  intros He Hok. unfold wp, fs_writeFileSync, result, world, trace.
  destruct (writeFileSync p s w) as [e|w'] eqn:Hw; simpl; auto.
Qed.

Lemma wp_fs_appendFileSync p s w Q :
  (∀ e, appendFileSync p s w = inl e → Q (inl e) w []) →
  (∀ w', appendFileSync p s w = inr w' → Q (inr tt) w' []) →
  wp (fs_appendFileSync p s) w Q.
Proof.
  intros He Hok. unfold wp, fs_appendFileSync, result, world, trace.
  destruct (appendFileSync p s w) as [e|w'] eqn:Hw; simpl; auto.
Qed.

(** A command through a pipe: it is announced, run, and its outcome is
    followed by console output only. *)
Lemma wp_runCommand command suppress w Q :
  (∀ out w' t, Forall (only [] []) t →
     Q (inr (trim out)) w'
       (Log ("Executing: " +:+ command) :: Exec pipe command (inr out) :: t)) →
  (∀ e w' t, Forall (only [] []) t →
     Q (inl e) w'
       (Log ("Executing: " +:+ command) :: Exec pipe command (inl e) :: t)) →
  wp (runCommand command suppress) w Q.
Proof.
  intros Hok Herr. unfold runCommand.
  apply wp_try_catch, wp_bind, wp_emit, wp_bind, wp_exec. intros [e|out] w'.
  - apply wp_bind, wp_when; intros _.
    + apply wp_emit, wp_throw. apply Herr. by repeat constructor.
    + apply wp_throw. apply Herr. constructor.
  - cbv zeta. apply wp_bind, wp_when; intros _.
    + apply wp_emit, wp_ret. apply Hok. by repeat constructor.
    + apply wp_ret. apply Hok. constructor.
Qed.

Lemma wp_runCommandStdIO command w Q :
  (∀ out w', Q (inr true) w'
       [Log ("Executing (stdio): " +:+ command); Exec inherit command (inr out)]) →
  (∀ e w' m, Q (inl e) w'
       [Log ("Executing (stdio): " +:+ command); Exec inherit command (inl e); Err m]) →
  wp (runCommandStdIO command) w Q.
Proof.
  intros Hok Herr. unfold runCommandStdIO.
  apply wp_try_catch, wp_bind, wp_emit, wp_bind, wp_exec. intros [e|out] w'.
  - apply wp_bind, wp_emit, wp_throw. apply Herr.
  - apply wp_ret. apply Hok.
Qed.

End Steps.

(** One step of a run, by the shape of the fragment. *)
Ltac wp_seq :=
  lazy beta iota;
  lazymatch goal with
  | |- wp (mbind _ _) _ _ => apply wp_bind
  | |- wp (try_catch _ _) _ _ => apply wp_try_catch
  | |- wp (attempt _ _ _) _ _ => apply wp_attempt
  | |- wp (mret _) _ _ => apply wp_ret
  | |- wp (throw _) _ _ => apply wp_throw
  | |- wp (of_result _) _ _ => apply wp_of_result
  | |- wp (emit _) _ _ => apply wp_emit
  | |- wp (console_log _) _ _ => apply wp_emit
  | |- wp (console_warn _) _ _ => apply wp_emit
  | |- wp (console_error _) _ _ => apply wp_emit
  | |- wp (when_ _ _) _ _ => apply wp_when; intros ?
  | |- wp (fs_existsSync _) _ _ => apply wp_fs_existsSync
  | |- wp (fs_readFileSync _) _ _ =>
      apply wp_fs_readFileSync; destruct (readFileSync _ _) eqn:?
  | |- wp (fs_writeFileSync _ _) _ _ => apply wp_fs_writeFileSync; intros ? ?
  | |- wp (fs_appendFileSync _ _) _ _ => apply wp_fs_appendFileSync; intros ? ?
  | |- wp (runCommand _ _) _ _ => apply wp_runCommand; intros ? ? ? ?
  | |- wp (runCommandStdIO _) _ _ => apply wp_runCommandStdIO; [intros ? ?|intros ? ? ?]
  | |- wp (askQuestion _) _ _ => apply wp_askQuestion; intros ? ?
  | |- wp (let _ := _ in _) _ _ => cbv zeta
  end.

(** The same, also splitting on the tests of the fragment. *)
Ltac wp_step :=
  first
    [ wp_seq
    | lazymatch goal with
      | |- wp (if ?b then _ else _) _ _ => destruct b eqn:?
      | |- wp (match ?x with Some _ => _ | None => _ end) _ _ => destruct x eqn:?
      end ].

(** Steps over a call using only what the called function may emit. *)
Ltac wp_call lem :=
  lazy beta iota;
  first [ apply (wp_emits _ _ _ _ lem) | apply (wp_emits _ _ _ _ (lem _))
        | apply (wp_emits _ _ _ _ (lem _ _)) | apply (wp_emits _ _ _ _ (lem _ _ _)) ];
  intros [?|?] ? ? ?; lazy beta iota.

(** Every event of a trace given piece by piece is allowed. *)
Ltac allowed :=
  repeat first
    [ apply Forall_nil_2
    | apply Forall_cons; split
    | apply Forall_app; split
    | eapply Forall_impl; [eassumption|];
      intros ?; apply allows_mono; [intros ? ?|intros ?]; simpl; (done || set_solver)
    | exact I
    | progress simpl; (done || set_solver) ].

(** Membership of an event in a trace that is known piece by piece. *)
Ltac trace_inv :=
  repeat match goal with
  | H : @eq event _ _ |- _ => simpl in H; simplify_eq
  | H : @eq (stdio * string) _ _ |- _ => simpl in H; simplify_eq
  | H : @eq string _ _ |- _ => progress (simpl in H; simplify_eq)
  | H : True |- _ => clear H
  | H : _ ∈ [] |- _ => by apply elem_of_nil in H
  | H : False |- _ => destruct H
  | H : @eq stdio _ _ |- _ => simplify_eq
  | H : ?e ∈ ?t, HF : Forall _ ?t |- _ =>
      apply (proj1 (Forall_forall _ _) HF) in H; simpl in H
  | H : _ ∈ _ :: _ |- _ => apply elem_of_cons in H as [H|H]
  | H : _ ∈ _ ++ _ |- _ => apply elem_of_app in H as [H|H]
  end.

(** Finds an event in a trace given piece by piece. *)
Ltac in_trace :=
  solve [ assumption
        | apply list_elem_of_here
        | apply list_elem_of_further; in_trace
        | apply elem_of_app; left; in_trace
        | apply elem_of_app; right; in_trace ].

Section Classifier.
Context `{World W}.
Import JS.
Implicit Types (w : W) (t : list event).

Lemma getGitStatus_catch_spec b st e w Q :
  (∀ t, Forall (only [] []) t → Q (inr (set_sync "error" st)) w t) →
  wp (getGitStatus_catch b st e) w Q.
Proof.
  intros HQ. unfold getGitStatus_catch.
  repeat wp_step; apply HQ; by repeat constructor.
Qed.

Lemma truthy_false s : negb (truthy s) = true → s = "".
Proof. unfold truthy. rewrite negb_involutive. by intros ?%String.eqb_eq. Qed.

Lemma truthy_true s : negb (truthy s) = false → s ≠ "".
Proof.
  unfold truthy. rewrite negb_involutive. by intros ?%String.eqb_neq.
Qed.

(** C1: in a Git repository, [getGitStatus] classifies by the fixed decision
    table.  The run yields exactly one observation (a failed command, a
    missing remote branch, or the three hashes), and the [sync] field is the
    table's entry for it: [error] for a failure, [no_remote] for a missing
    remote branch, otherwise the first of local = remote ([uptodate]),
    local = base ([behind]), remote = base ([ahead]) that holds, and
    [diverged] if none does. *)
Theorem getGitStatus_decision_table b w :
  existsSync (path_join projectRoot ".git") w = true →
  ∃ st o,
    result (getGitStatus b w) = inr st
    ∧ observed b (trace (getGitStatus b w)) o
    ∧ sync st = decision_table o
    ∧ ∀ o', observed b (trace (getGitStatus b w)) o' → o' = o.
Proof.
  intros Hrepo.
  change (wp (getGitStatus b) w (λ r _ t,
    ∃ st o, r = inr st ∧ observed b t o ∧ sync st = decision_table o
            ∧ ∀ o', observed b t o' → o' = o)).
  unfold getGitStatus. do 4 wp_step. rewrite Hrepo. simpl negb.
  repeat (wp_step || (apply getGitStatus_catch_spec; intros)).
  all: lazy beta iota.
  all: try match goal with H : negb (truthy _) = true |- _ => apply truthy_false in H end.
  all: try match goal with H : negb (truthy _) = false |- _ => apply truthy_true in H end.
  all: match goal with |- context [observed _ ?T _] =>
         first [ assert (¬ failed T) as Hnf
                   by (intros (io & c & e & Hin); trace_inv)
               | assert (failed T) as Hf by (eexists _, _, _; in_trace) ]
       end.
  all: try solve
    [ (* a command failed *)
      eexists _, CommandFailed; (split; [reflexivity|]); (split; [by constructor|]);
      (split; [done|]); by intros o' [] ].
  - (* the remote branch does not exist *)
    eexists _, NoRemoteBranch. split; [reflexivity|].
    split; [eapply observed_no_remote; [done| unfold printed; in_trace |done]|].
    split; [done|].
    intros o' [Hf| |heads l r m _ Hh Ht _ _ _]; [done..|].
    exfalso; unfold printed in Hh; trace_inv; done.
  - (* all six commands succeeded *)
    lazymatch goal with
    | |- context [Exec pipe "git rev-parse HEAD" (inr ?l)] =>
    lazymatch goal with
    | |- context [Exec pipe ("git rev-parse origin/" +:+ _) (inr ?r)] =>
    lazymatch goal with
    | |- context [Exec pipe ("git merge-base HEAD origin/" +:+ _) (inr ?m)] =>
        eexists _, (Hashes (trim l) (trim r) (trim m))
    end end end.
    split; [reflexivity|].
    split; [eapply observed_hashes; [done| unfold printed; in_trace |done| unfold printed; in_trace..]|].
    split.
    { cbn [localHash remoteHash baseHash set_baseHash set_remoteHash set_localHash
           set_hasChanges decision_table].
      repeat case_match; done. }
    intros o' [Hf|heads _ Hh Ht|heads l r m _ Hh Ht Hl Hr Hm]; [done| |].
    + exfalso; unfold printed in Hh; trace_inv; done.
    + unfold printed in *; clear Hh. trace_inv; done.
Qed.

Lemma syncStates_NoDup : NoDup syncStates.
Proof. unfold syncStates. repeat (constructor; [set_solver|]). constructor. Qed.

(** C2 (amended): [getGitStatus] always returns a status.  In a Git
    repository its [sync] field is one of the six states of the
    specification, which are pairwise distinct; outside a repository the
    field keeps its initial value [unknown] and [isRepo] is false. *)
Theorem getGitStatus_sync_values b w :
  ∃ st, result (getGitStatus b w) = inr st
      ∧ isRepo st = existsSync (path_join projectRoot ".git") w
      ∧ (if isRepo st then sync st ∈ syncStates else sync st = "unknown")
      ∧ NoDup syncStates.
Proof.
  change (wp (getGitStatus b) w (λ r _ _,
    ∃ st, r = inr st ∧ isRepo st = existsSync (path_join projectRoot ".git") w
          ∧ (if isRepo st then sync st ∈ syncStates else sync st = "unknown")
          ∧ NoDup syncStates)).
  unfold getGitStatus. do 4 wp_step.
  destruct (existsSync (path_join projectRoot ".git") w) eqn:Hrepo; simpl negb.
  - repeat (wp_step || (apply getGitStatus_catch_spec; intros)).
    all: lazy beta iota; eexists; (split; [reflexivity|]).
    all: cbn [isRepo sync localHash remoteHash baseHash set_baseHash set_remoteHash
              set_localHash set_hasChanges set_sync].
    all: repeat case_match; simplify_eq/=.
    all: split; [done|]; split; [|apply syncStates_NoDup].
    all: unfold syncStates; set_solver.
  - repeat wp_step. eexists. split; [reflexivity|].
    split; [done|]. split; [done|apply syncStates_NoDup].
Qed.

End Classifier.

(** ** Strings *)

Section Strings.
Import JS.

Lemma startsWith_app p s : startsWith (p +:+ s) p = true.
Proof.
  induction p as [|a p IH]; simpl; [by destruct s|].
  by rewrite Ascii.eqb_refl.
Qed.

Lemma includes_startsWith s p : startsWith s p = true → includes s p = true.
Proof. intros Hp. destruct s; cbn [includes]; by rewrite Hp. Qed.

Lemma includes_cons a s p : includes s p = true → includes (String a s) p = true.
Proof. intros Hp. cbn [includes]. rewrite Hp. apply orb_true_r. Qed.

Lemma includes_app_r s1 s2 p : includes s2 p = true → includes (s1 +:+ s2) p = true.
Proof. intros Hp. induction s1; simpl; [done|]. by apply includes_cons. Qed.

(** A string that has [p] in the middle includes [p]. *)
Lemma includes_middle s1 p s2 : includes (s1 +:+ p +:+ s2) p = true.
Proof. apply includes_app_r, includes_startsWith, startsWith_app. Qed.

Lemma startsWith_inv s p : startsWith s p = true → ∃ s2, s = p +:+ s2.
Proof.
  revert s. induction p as [|a p IH]; intros s; [by exists s|].
  destruct s as [|b s]; simpl; [done|].
  intros [->%Ascii.eqb_eq [s2 ->]%IH]%andb_true_iff. by exists s2.
Qed.

Lemma includes_substring s p : includes s p = true ↔ substring p s.
Proof.
  split.
  - induction s as [|a s IH]; cbn [includes].
    + rewrite orb_false_r. intros [s2 ->]%startsWith_inv. by exists "", s2.
    + intros [[s2 ->]%startsWith_inv|[s1 [s2 ->]]%IH]%orb_true_iff.
      * by exists "", s2.
      * by exists (String a s1), s2.
  - intros (s1 & s2 & ->). apply includes_middle.
Qed.




Lemma trimEnd_idemp s : trimEnd (trimEnd s) = trimEnd s.
Proof.
  induction s as [|c s IH]; [done|]. simpl.
  destruct (trimEnd s) as [|c' s'] eqn:Hs.
  - destruct (isWhiteSpace c) eqn:Hc; [done|]. simpl. by rewrite Hc.
  - cbn [trimEnd] in *. by rewrite IH.
Qed.

(** What [trimStart] leaves does not start with white space, and neither
    does what [trimEnd] makes of it. *)
Lemma trimStart_trimmedStart s : trimmedStart (trimStart s).
Proof. induction s as [|c s IH]; [done|]. simpl. by destruct (isWhiteSpace c) eqn:Hc. Qed.

Lemma trimStart_id s : trimmedStart s → trimStart s = s.
Proof. destruct s as [|c s]; [done|]. simpl. by intros ->. Qed.

Lemma trimEnd_trimmedStart s : trimmedStart s → trimmedStart (trimEnd s).
Proof.
  destruct s as [|c s]; [done|]. simpl. intros Hc.
  destruct (trimEnd s); by rewrite ?Hc.
Qed.

Lemma trim_idemp s : trim (trim s) = trim s.
Proof.
  unfold trim. rewrite trimStart_id; [apply trimEnd_idemp|].
  apply trimEnd_trimmedStart, trimStart_trimmedStart.
Qed.

End Strings.

(** ** The author partition *)

Section Partition.
Import JS.
Implicit Types (u : string) (c : Commit).

Lemma isCurrentUser_full_record u h n e s :
  isCurrentUser u (mkCommit h (Some n) (Some e) s)
  = inr (bool_decide (n = u) || includes e u).
Proof.
  unfold isCurrentUser. simpl. case_bool_decide as Hn.
  - simplify_eq. by rewrite bool_decide_eq_true_2.
  - rewrite bool_decide_eq_false_2 by congruence. simpl. f_equal.
    destruct (includes e u) eqn:Hi; [done|]. simpl.
    destruct (e === u +:+ "@users.noreply.github.com") eqn:He; [|done].
    apply String.eqb_eq in He. subst e.
    by rewrite (includes_startsWith _ _ (startsWith_app _ _)) in Hi.
Qed.

Lemma partitionCommits_acc u lines cur0 old0 cur old :
  partitionCommits u lines cur0 old0 = inr (cur, old) →
  cur = cur0 ++ filter (λ c, isCurrentUser u c = inr true) (parseCommit <$> lines)
  ∧ old = old0 ++ filter (λ c, isCurrentUser u c = inr false) (parseCommit <$> lines).
Proof.
  revert cur0 old0. induction lines as [|line lines IH]; intros cur0 old0; simpl.
  - intros [= <- <-]. by rewrite !app_nil_r.
  - destruct (isCurrentUser u (parseCommit line)) as [e|[]] eqn:Hc; [done|..];
      intros [-> ->]%IH; rewrite !filter_cons, Hc; simpl;
      repeat case_decide; try done; by rewrite <- ?app_assoc.
Qed.

Lemma partitionCommits_total u lines cur0 old0 :
  Forall (λ line, is_Some (authorEmail (parseCommit line))) lines →
  ∃ cur old, partitionCommits u lines cur0 old0 = inr (cur, old).
Proof.
  intros Hl. revert cur0 old0. induction Hl as [|line lines [e He] _ IH]; intros cur0 old0.
  - by eexists _, _.
  - simpl. unfold isCurrentUser. rewrite He.
    case_bool_decide; [apply IH|]. destruct (_ || _); apply IH.
Qed.

Lemma partitionCommits_perm u lines cur0 old0 cur old :
  partitionCommits u lines cur0 old0 = inr (cur, old) →
  cur ++ old ≡ₚ cur0 ++ old0 ++ (parseCommit <$> lines).
Proof.
  revert cur0 old0. induction lines as [|line lines IH]; intros cur0 old0; simpl.
  - intros [= <- <-]. by rewrite app_nil_r.
  - destruct (isCurrentUser u (parseCommit line)) as [e|[]]; [done|..];
      intros ->%IH; rewrite <- !app_assoc; simpl.
    + by rewrite !Permutation_middle.
    + rewrite <- Permutation_middle. f_equiv.
      by rewrite (Permutation_middle old0).
Qed.

(** C5: the author test of the history rewrite.  On a record with all its
    fields the test never throws and holds exactly when [authorName] is the
    configured user name or [authorEmail] has it as a substring (string
    equality and [includes] are case-sensitive).  When the loop completes,
    the two arrays together are the parsed log, and every commit is in
    exactly one of them, according to the test. *)
Theorem author_partition u lines :
  (∀ h n e s,
     (∃ b, isCurrentUser u (mkCommit h (Some n) (Some e) s) = inr b)
     ∧ (isCurrentUser u (mkCommit h (Some n) (Some e) s) = inr true
        ↔ n = u ∨ substring u e))
  ∧ ∀ cur old,
      partitionCommits u lines [] [] = inr (cur, old) →
      cur ++ old ≡ₚ parseCommit <$> lines
      ∧ ∀ c, c ∈ parseCommit <$> lines →
             (c ∈ cur ∧ (c ∉ old) ∧ isCurrentUser u c = inr true)
             ∨ (c ∈ old ∧ (c ∉ cur) ∧ isCurrentUser u c = inr false).
Proof.
  split.
  - intros h n e s. rewrite isCurrentUser_full_record. split; [by eexists|].
    rewrite <- includes_substring. split.
    + intros [= [?%bool_decide_eq_true|?]%orb_true_iff]; auto.
    + intros [->|Hi]; f_equal; apply orb_true_iff; [left|by right].
      by apply bool_decide_eq_true.
  - intros cur old Hp. split; [by apply partitionCommits_perm in Hp|].
    apply partitionCommits_acc in Hp as Hf. destruct Hf as [-> ->]. simpl.
    intros c Hc. rewrite !list_elem_of_filter.
    assert (c ∈ filter (λ c, isCurrentUser u c = inr true) (parseCommit <$> lines)
                ++ filter (λ c, isCurrentUser u c = inr false) (parseCommit <$> lines))
      as Hin by (by rewrite (partitionCommits_perm _ _ _ _ _ _ Hp)).
    apply elem_of_app in Hin. rewrite !list_elem_of_filter in Hin.
    destruct Hin as [[Ht _]|[Hf _]]; [left|right]; rewrite ?Ht, ?Hf; naive_solver.
Qed.

End Partition.

(** ** Reporting the status *)

Section Reporting.
Context `{World W}.
Import JS.
Implicit Types (w : W) (t : list event).

Lemma displaySyncStatus_ahead st b op w :
  sync st = "ahead" →
  ∃ r, Exec inherit ("git push origin " +:+ b) r ∈ trace (displaySyncStatus st b op w).
Proof.
  intros Hs.
  change (wp (displaySyncStatus st b op) w (λ _ _ t,
            ∃ r, Exec inherit ("git push origin " +:+ b) r ∈ t)).
  unfold displaySyncStatus. rewrite Hs.
  change ("ahead" === "uptodate") with false.
  change ("ahead" === "behind") with false.
  change ("ahead" === "ahead") with true.
  repeat wp_step; eexists; in_trace.
Qed.

Lemma displaySyncStatus_no_remote st b op w :
  sync st = "no_remote" →
  ∃ r, Exec inherit ("git push -u origin " +:+ b) r ∈ trace (displaySyncStatus st b op w).
Proof.
  intros Hs.
  change (wp (displaySyncStatus st b op) w (λ _ _ t,
            ∃ r, Exec inherit ("git push -u origin " +:+ b) r ∈ t)).
  unfold displaySyncStatus. rewrite Hs.
  change ("no_remote" === "uptodate") with false.
  change ("no_remote" === "behind") with false.
  change ("no_remote" === "ahead") with false.
  change ("no_remote" === "diverged") with false.
  change ("no_remote" === "no_remote") with true.
  repeat wp_step; eexists; in_trace.
Qed.

Lemma displaySyncStatus_pushes_here st b op w :
  pushes st b (trace (displaySyncStatus st b op w)).
Proof.
  split; eauto using displaySyncStatus_ahead, displaySyncStatus_no_remote.
Qed.

Lemma pushes_app st b t1 t2 : pushes st b t2 → pushes st b (t1 ++ t2).
Proof.
  intros [Ha Hn]. split; intros Hs; [destruct (Ha Hs) as [r ?]|destruct (Hn Hs) as [r ?]];
    exists r; apply elem_of_app; by right.
Qed.

Lemma checkRemoteSync_pushes w b w1 t1 st w2 t2 :
  getCurrentGitBranch w = (inr b, w1, t1) →
  getGitStatus b w1 = (inr st, w2, t2) →
  isRepo st = true →
  pushes st b (trace (checkRemoteSync w)).
Proof.
  intros Hb Hst Hrepo.
  change (wp checkRemoteSync w (λ _ _ t, pushes st b t)).
  unfold checkRemoteSync. do 4 wp_step.
  apply wp_attempt. eapply wp_run; [exact Hb|]. do 3 wp_step.
  eapply wp_run; [exact Hst|]. lazy beta iota. rewrite Hrepo. simpl negb. lazy beta iota.
  unfold wp. repeat apply pushes_app. apply displaySyncStatus_pushes_here.
Qed.

Lemma opQuickBackup_pushes w cfg c w0 t0 b w1 t1 st w2 t2 :
  readConfig w = (inr cfg, w0, t0) →
  usable projectName cfg = Some c →
  getCurrentGitBranch w0 = (inr b, w1, t1) →
  getGitStatus b w1 = (inr st, w2, t2) →
  isRepo st = true → hasChanges st = false →
  pushes st b (trace (opQuickBackup w)).
Proof.
  intros Hc Hu Hb Hst Hrepo Hch.
  change (wp opQuickBackup w (λ _ _ t, pushes st b t)).
  unfold opQuickBackup. do 5 wp_step.
  eapply wp_run; [exact Hc|]. lazy beta iota. rewrite Hu.
  apply wp_attempt. eapply wp_run; [exact Hb|]. do 1 wp_step.
  eapply wp_run; [exact Hst|]. lazy beta iota. rewrite Hrepo, Hch. simpl negb. lazy beta iota.
  do 2 wp_step.
  unfold wp. repeat apply pushes_app. apply displaySyncStatus_pushes_here.
Qed.

(** C10: reporting the sync status is not read-only.  [displaySyncStatus]
    runs [git push origin <branch>] when the status is [ahead] and
    [git push -u origin <branch>] when it is [no_remote]; hence so do
    [checkRemoteSync] (menu option 3) and the no-changes path of
    [opQuickBackup], in every run that computes such a status. *)
Theorem status_report_pushes :
  (∀ st b op w, pushes st b (trace (displaySyncStatus st b op w)))
  ∧ (∀ w b w1 t1 st w2 t2,
       getCurrentGitBranch w = (inr b, w1, t1) →
       getGitStatus b w1 = (inr st, w2, t2) →
       isRepo st = true →
       pushes st b (trace (checkRemoteSync w)))
  ∧ (∀ w cfg c w0 t0 b w1 t1 st w2 t2,
       readConfig w = (inr cfg, w0, t0) →
       usable projectName cfg = Some c →
       getCurrentGitBranch w0 = (inr b, w1, t1) →
       getGitStatus b w1 = (inr st, w2, t2) →
       isRepo st = true → hasChanges st = false →
       pushes st b (trace (opQuickBackup w))).
Proof.
  split; [apply displaySyncStatus_pushes_here|].
  split; [apply checkRemoteSync_pushes|apply opQuickBackup_pushes].
Qed.

End Reporting.

(** ** The project's .gitignore *)

Section Gitignore.
Context `{World W}.
Import JS.
Implicit Types (w : W) (t : list event).

Lemma append_assoc (s1 s2 s3 : string) : (s1 +:+ s2) +:+ s3 = s1 +:+ s2 +:+ s3.
Proof. induction s1; simpl; by f_equal. Qed.

(** Whatever the tool appends to a file without the marker starts with the
    marker line. *)
Lemma contentToAppend_marker g :
  includes g toolGitignoreMarker = false →
  truthy (contentToAppend g) = true →
  ∃ rest, contentToAppend g = nl +:+ toolGitignoreMarker +:+ rest.
Proof.
  intros Hm. unfold contentToAppend. rewrite Hm.
  destruct (0 <? length (rulesToAdd g))%nat.
  - intros _. eexists. by rewrite !append_assoc.
  - destruct (negb _); [intros _; by eexists|done].
Qed.

(** A present file that carries the marker is left alone. *)
Lemma updateProjectGitignore_marked dir w c :
  existsSync (path_join dir ".gitignore") w = true →
  readFileSync (path_join dir ".gitignore") w = inr c →
  includes c toolGitignoreMarker = true →
  world (updateProjectGitignore dir w) = w.
Proof.
  intros He Hr Hm.
  change (wp (updateProjectGitignore dir) w (λ _ w' _, w' = w)).
  unfold updateProjectGitignore. repeat wp_step; try done.
  all: rewrite ?He, ?Hr in *; simplify_eq/=; congruence.
Qed.

(** One application either changes nothing or leaves a file with the
    marker. *)
Lemma updateProjectGitignore_once dir w :
  let w1 := world (updateProjectGitignore dir w) in
  w1 = w
  ∨ (existsSync (path_join dir ".gitignore") w1 = true
     ∧ ∃ c, readFileSync (path_join dir ".gitignore") w1 = inr c
            ∧ includes c toolGitignoreMarker = true).
Proof.
  change (wp (updateProjectGitignore dir) w (λ _ w1 _,
    w1 = w ∨ (existsSync (path_join dir ".gitignore") w1 = true
     ∧ ∃ c, readFileSync (path_join dir ".gitignore") w1 = inr c
            ∧ includes c toolGitignoreMarker = true))).
  unfold updateProjectGitignore. repeat wp_step; try (by left).
  - (* created *)
    right. match goal with Hw : writeFileSync _ _ _ = _ |- _ =>
      destruct (write_read _ _ _ _ Hw) as [He' Hr'] end.
    split; [done|]. eexists. split; [done|]. vm_compute. reflexivity.
  - (* appended *)
    right. match goal with Hw : appendFileSync _ _ _ = _, Hr : readFileSync _ _ = _ |- _ =>
      destruct (append_read _ _ _ _ _ Hw Hr) as [He' Hr'] end.
    split; [done|]. eexists. split; [done|].
    match goal with Hm : includes _ _ = false, Ht : truthy _ = true |- _ =>
      destruct (contentToAppend_marker _ Hm Ht) as [rest ->] end.
    rewrite <- !append_assoc. rewrite append_assoc. apply includes_middle.
Qed.

(** C6: updating the project's .gitignore is idempotent.  From any world
    (file absent, unreadable, with or without the marker; writes succeeding
    or failing) a second application changes nothing: the world after two
    applications is the world after one, so [.gitignore] exists or not, and
    reads, exactly as after the first.  The guard is the marker
    [# backupTool], which every content the tool writes contains. *)
Theorem updateProjectGitignore_idempotent dir w :
  let w1 := world (updateProjectGitignore dir w) in
  let w2 := world (updateProjectGitignore dir w1) in
  w2 = w1
  ∧ existsSync (path_join dir ".gitignore") w2 = existsSync (path_join dir ".gitignore") w1
  ∧ readFileSync (path_join dir ".gitignore") w2 = readFileSync (path_join dir ".gitignore") w1.
Proof.
  intros w1 w2. assert (w2 = w1) as ->; [|done].
  subst w2. destruct (updateProjectGitignore_once dir w) as [Hw|(He & c & Hr & Hm)].
  - fold w1 in Hw. by rewrite Hw.
  - by eapply updateProjectGitignore_marked.
Qed.

End Gitignore.

(** ** The configuration store *)

Section ConfigStore.
Context `{World W}.
Import JS.
Implicit Types (w : W) (t : list event).


(** [readConfig] on a present, readable file: the parsed content, or
    [null] when parsing throws. *)
Lemma readConfig_stored path raw w :
  configFilePath = Some path →
  existsSync path w = true →
  readFileSync path w = inr raw →
  result (readConfig w)
  = inr (match JSON_parse raw with inl _ => None | inr config => config end).
Proof.
  intros Hp He Hr.
  change (wp readConfig w (λ r _ _,
    r = inr (match JSON_parse raw with inl _ => None | inr config => config end))).
  unfold readConfig. rewrite Hp. do 2 wp_step. rewrite He. simpl negb.
  do 3 wp_step; simplify_eq.
  destruct (JSON_parse raw); by repeat wp_step.
Qed.


End ConfigStore.

(** ** Cancelling a history rewrite *)

Section Cancel.
Context `{World W}.
Import JS.
Implicit Types (w : W) (t : list event).

Lemma eqb_y_false s : (s === "y") = false → s ≠ "y".
Proof. by intros ?%String.eqb_neq. Qed.

Lemma eqb_y_true s : (s === "y") = true → s = "y".
Proof. by intros ?%String.eqb_eq. Qed.

Lemma opCleanAllCommits_cancelled w a :
  toLowerCase (trim a) ≠ "y" →
  Asked cleanAllQuery a ∈ trace (opCleanAllCommits w) →
  result (opCleanAllCommits w) = inr ()
  ∧ Forall (only inspectCommands [cleanAllQuery]) (trace (opCleanAllCommits w)).
Proof.
  intros Ha.
  change (wp opCleanAllCommits w (λ r _ t,
    Asked cleanAllQuery a ∈ t →
    r = inr () ∧ Forall (only inspectCommands [cleanAllQuery]) t)).
  unfold opCleanAllCommits. do 5 wp_step.
  wp_call emits_readConfig; [intros Hin; exfalso; trace_inv|].
  wp_step; [|wp_step; intros Hin; exfalso; trace_inv].
  wp_step. wp_call emits_getCurrentGitBranch.
  { wp_step. intros Hin; exfalso; trace_inv. }
  repeat wp_seq. wp_step.
  - (* cancelled *) wp_step. intros _. split; [done|]. allowed.
  - (* confirmed: the question was answered y *)
    apply negb_false_iff, eqb_y_true in Heqb.
    apply (wp_emits (allows (λ _ _, True) (λ q, q = forcePushQuery))).
    { repeat emits_step; done. }
    intros r w2 t2 Ht2 Hin. exfalso. trace_inv.
Qed.

Lemma opCleanOldUserCommits_cancelled w a :
  toLowerCase (trim a) ≠ "y" →
  Asked cleanHistoryQuery a ∈ trace (opCleanOldUserCommits w) →
  result (opCleanOldUserCommits w) = inr ()
  ∧ Forall (only inspectCommands [cleanHistoryQuery]) (trace (opCleanOldUserCommits w)).
Proof.
  intros Ha.
  change (wp opCleanOldUserCommits w (λ r _ t,
    Asked cleanHistoryQuery a ∈ t →
    r = inr () ∧ Forall (only inspectCommands [cleanHistoryQuery]) t)).
  unfold opCleanOldUserCommits. do 5 wp_step.
  wp_call emits_readConfig; [intros Hin; exfalso; trace_inv|].
  wp_step; [|wp_step; intros Hin; exfalso; trace_inv].
  wp_step. wp_call emits_getCurrentGitBranch.
  { wp_step. intros Hin; exfalso; trace_inv. }
  repeat wp_seq.
  2:{ (* git log failed *) intros Hin; exfalso; trace_inv. }
  wp_step; [wp_step; intros Hin; exfalso; trace_inv|].
  wp_seq. wp_seq.
  destruct (partitionCommits _ _ _ _) as [e|[currentUserCommits oldUserCommits]].
  { wp_seq. intros Hin; exfalso; trace_inv. }
  wp_step; [wp_step; intros Hin; exfalso; trace_inv|].
  do 3 wp_seq. wp_call (emits_logOldCommits (W:=W)).
  { wp_seq. intros Hin; exfalso; trace_inv. }
  repeat wp_seq. wp_step.
  - (* cancelled *) wp_step. intros _. split; [done|]. allowed.
  - (* confirmed: the question was answered y *)
    apply negb_false_iff, eqb_y_true in Heqb1.
    apply wp_bind.
    apply (wp_emits (allows (λ _ _, True) (λ q, q = forcePushQuery))).
    { repeat emits_step; done. }
    intros [e|cleaned] ? ? ?.
    { wp_seq. intros Hin. exfalso. trace_inv. }
    apply (wp_emits (allows (λ _ _, True) (λ q, q = forcePushQuery))).
    { repeat emits_step; done. }
    intros [e|[]] ? ? ?; [wp_seq|]; intros Hin; exfalso; trace_inv.
Qed.

Lemma inspectCommands_read_only : Forall (λ c, mutating c.2 = false) inspectCommands.
Proof. repeat constructor. Qed.

(** C9: declining the confirmation of a history rewrite is a clean abort.
    In every run of [opCleanOldUserCommits] or [opCleanAllCommits] whose
    confirmation question is answered (after trimming) by anything but [y]
    or [Y], the operation returns normally and the only commands it has run
    are the three inspections made before the question: none of them is a
    checkout, reset, branch deletion or renaming, add, commit or push, and
    no further question is asked. *)
Theorem cancelled_rewrite_runs_nothing w a :
  toLowerCase (trim a) ≠ "y" →
  (Asked cleanHistoryQuery a ∈ trace (opCleanOldUserCommits w) →
   result (opCleanOldUserCommits w) = inr ()
   ∧ Forall (only inspectCommands [cleanHistoryQuery]) (trace (opCleanOldUserCommits w)))
  ∧ (Asked cleanAllQuery a ∈ trace (opCleanAllCommits w) →
     result (opCleanAllCommits w) = inr ()
     ∧ Forall (only inspectCommands [cleanAllQuery]) (trace (opCleanAllCommits w)))
  ∧ Forall (λ c, mutating c.2 = false) inspectCommands.
Proof.
  intros Ha. split; [by apply opCleanOldUserCommits_cancelled|].
  split; [by apply opCleanAllCommits_cancelled|apply inspectCommands_read_only].
Qed.

End Cancel.

(** ** Declining an empty commit *)

Section EmptyCommit.
Context `{World W}.
Import JS.
Implicit Types (w : W) (t : list event).

Lemma length_append (s1 s2 : string) :
  String.length (s1 +:+ s2) = (String.length s1 + String.length s2)%nat.
Proof. induction s1; simpl; by f_equal. Qed.

Lemma append_inj_l (s1 s2 x : string) : s1 +:+ x = s2 +:+ x → s1 = s2.
Proof.
  revert s2. induction s1 as [|a s1 IH]; intros [|b s2] Heq; simpl in Heq.
  - done.
  - apply (f_equal String.length) in Heq. simpl in Heq.
    rewrite length_append in Heq. lia.
  - apply (f_equal String.length) in Heq. simpl in Heq.
    rewrite length_append in Heq. lia.
  - injection Heq as -> Heq. f_equal. by apply IH.
Qed.

Lemma emptyCommitQuery_inj b1 b2 : emptyCommitQuery b1 = emptyCommitQuery b2 → b1 = b2.
Proof.
  unfold emptyCommitQuery. simpl. intros Heq. simplify_eq.
  by eapply append_inj_l.
Qed.




End EmptyCommit.

(** ** Resetting to the earliest own commit *)

Section Reset.
Context `{World W}.
Import JS.
Implicit Types (w : W) (t : list event).

(** The last element that passes a filter splits the list: nothing after
    it passes. *)
Lemma last_filter_split {A} (P : A → Prop) `{!∀ x, Decision (P x)} (l : list A) c :
  last (filter P l) = Some c →
  ∃ newer older, l = newer ++ c :: older ∧ P c ∧ Forall (λ x, ¬ P x) older.
Proof.
  induction l as [|x l IH]; [done|]. rewrite filter_cons.
  destruct (filter P l) as [|y l'] eqn:Hf.
  - case_decide as Hx; [|done]. intros [= <-]. exists [], l. split; [done|].
    split; [done|]. apply Forall_forall. intros z Hz Pz.
    assert (z ∈ filter P l) as Hin by (by apply list_elem_of_filter).
    rewrite Hf in Hin. by apply elem_of_nil in Hin.
  - intros Hl. assert (last (y :: l') = Some c) as Hl'.
    { by case_decide. }
    destruct (IH Hl') as (newer & older & -> & Hc & Ho).
    by exists (x :: newer), older.
Qed.

Lemma wp_emits_run {A} P (m : M W A) w (Q : Error + A → W → list event → Prop) :
  emits P m →
  (∀ r w' t, result (m w) = r → Forall P t → Q r w' t) →
  wp m w Q.
Proof. unfold wp, emits. intros Hm HQ. by apply HQ. Qed.

Lemma own_commit_facts u lines cur old c0 :
  partitionCommits u lines [] [] = inr (cur, old) →
  c0 ∈ parseCommit <$> lines →
  isCurrentUser u c0 = inr true →
  ∃ c newer older,
    last cur = Some c
    ∧ parseCommit <$> lines = newer ++ c :: older
    ∧ isCurrentUser u c = inr true
    ∧ Forall (λ c', isCurrentUser u c' ≠ inr true) older.
Proof.
  intros [-> _]%partitionCommits_acc Hc0 Hown. simpl.
  destruct (last (filter (λ c, isCurrentUser u c = inr true) (parseCommit <$> lines)))
    as [c|] eqn:Hl.
  - destruct (last_filter_split _ _ _ Hl) as (newer & older & ? & ? & ?).
    by exists c, newer, older.
  - apply last_None in Hl.
    assert (c0 ∈ filter (λ c, isCurrentUser u c = inr true) (parseCommit <$> lines))
      as Hin by (by apply list_elem_of_filter).
    rewrite Hl in Hin. by apply elem_of_nil in Hin.
Qed.

(** C4: resetting to the earliest own commit.  In every confirmed run of
    [opCleanOldUserCommits] whose log has a commit of the configured user,
    the log (newest first, as [git log] prints it) splits around one commit
    [c]: [c] is the user's, and no commit after it in the log, that is, no
    older one, is.  The run issues [git reset --hard] on the hash of [c];
    the commits before [c] in the log, the later ones, the user's own among
    them, play no part.  Besides the three inspections, the reset and the
    optional force push are the only commands run. *)
Theorem reset_to_earliest_user_commit w cfg config out a c0 :
  result (readConfig w) = inr cfg →
  usable githubUsername cfg = Some config →
  printed (trace (opCleanOldUserCommits w)) gitLogCommand out →
  c0 ∈ parseCommit <$> logCommits out →
  isCurrentUser (githubUsername config) c0 = inr true →
  Asked cleanHistoryQuery a ∈ trace (opCleanOldUserCommits w) →
  toLowerCase (trim a) = "y" →
  ∃ c newer older,
    parseCommit <$> logCommits out = newer ++ c :: older
    ∧ isCurrentUser (githubUsername config) c = inr true
    ∧ Forall (λ c', isCurrentUser (githubUsername config) c' ≠ inr true) older
    ∧ (∃ r, Exec inherit ("git reset --hard " +:+ hash c) r
            ∈ trace (opCleanOldUserCommits w))
    ∧ ∃ b, Forall (only (resetCommands c b) [cleanHistoryQuery; forcePushQuery])
                  (trace (opCleanOldUserCommits w)).
Proof.
  intros Hcfg Hu Hlog Hc0 Hown Hask Ha. revert Hlog Hask.
  change (wp opCleanOldUserCommits w (λ _ _ t,
    printed t gitLogCommand out → Asked cleanHistoryQuery a ∈ t →
    ∃ c newer older,
      parseCommit <$> logCommits out = newer ++ c :: older
      ∧ isCurrentUser (githubUsername config) c = inr true
      ∧ Forall (λ c', isCurrentUser (githubUsername config) c' ≠ inr true) older
      ∧ (∃ r, Exec inherit ("git reset --hard " +:+ hash c) r ∈ t)
      ∧ ∃ b, Forall (only (resetCommands c b) [cleanHistoryQuery; forcePushQuery]) t)).
  unfold opCleanOldUserCommits, printed. do 5 wp_step.
  apply (wp_emits_run _ _ _ _ emits_readConfig). intros r w0 t0 Hr Ht0.
  rewrite Hcfg in Hr. subst r. lazy beta iota. rewrite Hu.
  wp_step. wp_call emits_getCurrentGitBranch.
  { wp_step. intros _ Hin; exfalso; trace_inv. }
  repeat wp_seq.
  2:{ intros _ Hin; exfalso; trace_inv. }
  wp_step; [wp_step; intros _ Hin; exfalso; trace_inv|].
  wp_seq. wp_seq.
  destruct (partitionCommits _ _ _ _) as [e|[currentUserCommits oldUserCommits]] eqn:Hpart.
  { wp_seq. intros _ Hin; exfalso; trace_inv. }
  wp_step; [wp_step; intros _ Hin; exfalso; trace_inv|].
  do 3 wp_seq. wp_call (emits_logOldCommits (W:=W)).
  { wp_seq. intros _ Hin; exfalso; trace_inv. }
  repeat wp_seq. wp_step.
  { wp_step. intros _ Hin. exfalso. trace_inv.
    apply negb_true_iff, String.eqb_neq in Heqb1. done. }
  apply negb_false_iff, eqb_y_true in Heqb1.
  destruct (length currentUserCommits =? 0)%nat eqn:Hlen.
  - (* no own commit: excluded by the hypothesis *)
    apply wp_bind.
    apply (wp_emits (allows (λ io _, io = inherit) (λ q, q = forcePushQuery))).
    { repeat emits_step; done. }
    intros [e|cleaned] ? ? ?; [wp_seq|].
    2: apply (wp_emits (allows (λ io _, io = inherit) (λ q, q = forcePushQuery)));
         [repeat emits_step; done | intros [e|[]] ? ? ?; [wp_seq|]].
    all: intros Hlog _; exfalso; unfold logCommits, branchCommands, gitLogCommand in *;
      clear Ha; trace_inv.
    all: destruct (own_commit_facts _ _ _ _ _ Hpart Hc0 Hown) as (c & ? & ? & Hl & _).
    all: destruct currentUserCommits; simpl in Hl, Hlen; congruence.
  - lazy beta iota. do 5 wp_seq.
    destruct (last currentUserCommits) as [c|] eqn:Hlast.
    2:{ apply last_None in Hlast. subst. simpl in Hlen. congruence. }
    unfold forcePushCleaned. repeat wp_step.
    all: try done.
    all: intros Hlog _; unfold logCommits, branchCommands, gitLogCommand in *;
      clear Ha; trace_inv.
    all: destruct (own_commit_facts _ _ _ _ _ Hpart Hc0 Hown)
           as (c' & newer & older & Hl & Hsplit & Hc & Holder).
    all: rewrite Hlast in Hl; injection Hl as <-.
    all: exists c, newer, older; do 3 (split; [done|]).
    all: split; [eexists; in_trace|].
    all: exists s; unfold resetCommands, inspectCommands; allowed.
Qed.

End Reset.

(** ** A fresh history when no commit is the user's *)

Section Orphan.
Context `{World W}.
Import JS.
Implicit Types (w : W) (t : list event).

Lemma stdioCommands_app t1 t2 :
  stdioCommands (t1 ++ t2) = stdioCommands t1 ++ stdioCommands t2.
Proof.
  induction t1 as [|[[] ? ?| | | |] t1 IH]; simpl; by rewrite ?IH.
Qed.

(** A fragment that runs through pipes only contributes nothing. *)
Lemma stdioCommands_piped t :
  Forall (allows (λ io _, io = pipe) (λ _, True)) t → stdioCommands t = [].
Proof.
  induction 1 as [|[[] ? ?| | | |] t Hx _ IH]; simpl in *; by rewrite ?IH.
Qed.


Lemma stdioCommands_only cmds queries t :
  Forall (only cmds queries) t → Forall (λ c, c.1 = pipe) cmds → stdioCommands t = [].
Proof.
  intros Ht Hc. apply stdioCommands_piped. eapply Forall_impl; [exact Ht|].
  intros e. apply allows_mono; [|done]. intros io cmd Hin.
  by apply (proj1 (Forall_forall _ _) Hc (io, cmd)).
Qed.

Lemma wp_emits_world {A} P (m : M W A) w (Q : Error + A → W → list event → Prop) :
  emits P m →
  (∀ r t, result (m w) = r → Forall P t → Q r (world (m w)) t) →
  wp m w Q.
Proof. unfold wp, emits. intros Hm HQ. by apply HQ. Qed.

(** Reading the configuration leaves the world as it is. *)
Lemma readConfig_world w : world (readConfig w) = w.
Proof.
  change (wp readConfig w (λ _ w' _, w' = w)). unfold readConfig.
  repeat first [ wp_step
               | match goal with |- context [JSON_parse ?x] => destruct (JSON_parse x) end ];
    done.
Qed.


End Orphan.

(** ** Runs over the git model *)

Section GitRuns.
Context (dir : string) (versioned := Git.world dir).
#[local] Existing Instance versioned.
Import JS.
Implicit Types (s : Git.state) (r : Git.repository) (t : list event).

Lemma replay_app t1 t2 r :
  Git.replay (t1 ++ t2) r = Git.replay t1 r ≫= Git.replay t2.
Proof.
  revert r. induction t1 as [|e t1 IH]; intros r; [done|].
  destruct e as [io cmd [err|out]| | | |]; simpl; try apply IH.
  - destruct (Git.git cmd r); [apply IH|done].
  - destruct (Git.step cmd r); simpl; [apply IH|done].
Qed.

Lemma replays_ret {A} (a : A) : replays (mret a).
Proof. done. Qed.

Lemma replays_throw {A} e : replays (throw e : M Git.state A).
Proof. done. Qed.

Lemma replays_of_result {A} (x : Error + A) : replays (of_result x).
Proof. done. Qed.

Lemma replays_console_log msg : replays (console_log msg).
Proof. done. Qed.

Lemma replays_console_warn msg : replays (console_warn msg).
Proof. done. Qed.

Lemma replays_console_error msg : replays (console_error msg).
Proof. done. Qed.

Lemma replays_bind {A B} (m : M Git.state A) (k : A → M Git.state B) :
  replays m → (∀ a, replays (k a)) → replays (m ≫= k).
Proof.
  intros Hm Hk s. specialize (Hm s).
  unfold mbind, M_bind, bind, trace, world in *.
  destruct (m s) as [[[e|a] s1] t1]; simpl in *; [done|].
  specialize (Hk a s1). unfold trace, world in Hk.
  destruct (k a s1) as [[r2 s2] t2]. simpl in *. by rewrite replay_app, Hm.
Qed.

Lemma replays_try_catch {A} (m : M Git.state A) h :
  replays m → (∀ e, replays (h e)) → replays (try_catch m h).
Proof.
  intros Hm Hh s. specialize (Hm s). unfold try_catch, trace, world in *.
  destruct (m s) as [[[e|a] s1] t1]; simpl in *; [|done].
  specialize (Hh e s1). unfold trace, world in Hh.
  destruct (h e s1) as [[r2 s2] t2]. simpl in *. by rewrite replay_app, Hm.
Qed.

Lemma replays_attempt {A B} (m : M Git.state A) h (k : A → M Git.state B) :
  replays m → (∀ e, replays (h e)) → (∀ a, replays (k a)) → replays (attempt m h k).
Proof.
  intros Hm Hh Hk s. specialize (Hm s). unfold attempt, trace, world in *.
  destruct (m s) as [[[e|a] s1] t1]; simpl in *.
  - specialize (Hh e s1). unfold trace, world in Hh.
    destruct (h e s1) as [[r2 s2] t2]. simpl in *. by rewrite replay_app, Hm.
  - specialize (Hk a s1). unfold trace, world in Hk.
    destruct (k a s1) as [[r2 s2] t2]. simpl in *. by rewrite replay_app, Hm.
Qed.

Lemma replays_when b (m : M Git.state unit) : replays m → replays (when_ b m).
Proof. intros Hm. destruct b; [done|apply replays_ret]. Qed.

Lemma replays_exec io cmd : replays (exec io cmd).
Proof.
  intros s. unfold exec, trace, world. simpl. unfold Git.run, Git.step.
  destruct (Git.git cmd (Git.repo s)) as [e|[out r]] eqn:Hg; simpl;
    unfold Git.step; by rewrite Hg.
Qed.

Lemma replays_askQuestion query : replays (askQuestion query).
Proof.
  intros s. unfold askQuestion, trace, world. simpl. unfold Git.readLine.
  by destruct (Scripted.readLine query (Git.io s)).
Qed.

Lemma replays_fs_existsSync p : replays (fs_existsSync p).
Proof. done. Qed.

Lemma replays_fs_readFileSync p : replays (fs_readFileSync p).
Proof. done. Qed.

End GitRuns.

Create HintDb replays.

(** Breaks a fragment down along its syntax, as [emits_step] does. *)
Ltac replays_step :=
  lazymatch goal with
  | |- replays (mbind _ _) => apply replays_bind; [|intros ?]
  | |- replays (try_catch _ _) => apply replays_try_catch; [|intros ?]
  | |- replays (attempt _ _ _) => apply replays_attempt; [|intros ?|intros ?]
  | |- replays (when_ _ _) => apply replays_when
  | |- replays (mret _) => apply replays_ret
  | |- replays (throw _) => apply replays_throw
  | |- replays (of_result _) => apply replays_of_result
  | |- replays (console_log _) => apply replays_console_log
  | |- replays (console_warn _) => apply replays_console_warn
  | |- replays (console_error _) => apply replays_console_error
  | |- replays (exec _ _) => apply replays_exec
  | |- replays (askQuestion _) => apply replays_askQuestion
  | |- replays (fs_existsSync _) => apply replays_fs_existsSync
  | |- replays (fs_readFileSync _) => apply replays_fs_readFileSync
  | |- replays (if ?b then _ else _) => destruct b
  | |- replays (match ?x with _ => _ end) => destruct x
  | |- replays (let _ := _ in _) => cbv zeta
  | |- replays _ => solve [auto with replays]
  end.

Section GitRuns.
Context (dir : string) (versioned := Git.world dir).
#[local] Existing Instance versioned.
Import JS.
Implicit Types (s : Git.state) (r : Git.repository) (t : list event).

Lemma replays_runCommand command suppress : replays (runCommand command suppress).
Proof. unfold runCommand. repeat replays_step. Qed.

Lemma replays_runCommandStdIO command : replays (runCommandStdIO command).
Proof. unfold runCommandStdIO. repeat replays_step. Qed.

#[local] Hint Resolve replays_runCommand replays_runCommandStdIO : replays.

Lemma replays_readConfig : replays readConfig.
Proof. unfold readConfig. repeat replays_step. Qed.

Lemma replays_getCurrentGitBranch : replays getCurrentGitBranch.
Proof. unfold getCurrentGitBranch. repeat replays_step. Qed.

Lemma replays_logOldCommits index l : replays (logOldCommits index l).
Proof.
  revert index. induction l as [|c l IH]; intros index; simpl; repeat replays_step.
Qed.

Lemma replays_forcePushCleaned b : replays (forcePushCleaned b).
Proof. unfold forcePushCleaned. repeat replays_step. Qed.

#[local] Hint Resolve replays_readConfig replays_getCurrentGitBranch replays_logOldCommits
  replays_forcePushCleaned : replays.

(** The repository a rewrite ends in is the one its commands lead to. *)
Lemma replays_opCleanOldUserCommits : replays opCleanOldUserCommits.
Proof. unfold opCleanOldUserCommits. repeat replays_step. Qed.

Lemma replays_opCleanAllCommits : replays opCleanAllCommits.
Proof. unfold opCleanAllCommits. repeat replays_step. Qed.

End GitRuns.

Section GitSemantics.
Import JS.
Implicit Types (r : Git.repository) (t : list event).



(** The inspections leave the repository as it is. *)
Lemma inspect_step cmd r r' :
  (pipe, cmd) ∈ inspectCommands → Git.step cmd r = Some r' → r' = r.
Proof.
  unfold inspectCommands, Git.step. intros Hin.
  repeat (apply elem_of_cons in Hin as [[= ->]|Hin]).
  - unfold Git.git. simpl. case_bool_decide; naive_solver.
  - unfold Git.git. simpl. naive_solver.
  - unfold Git.git. rewrite String.eqb_refl.
    replace (gitLogCommand === "git rev-parse --abbrev-ref HEAD") with false by done.
    replace (gitLogCommand === "git branch --show-current") with false by done.
    naive_solver.
  - by apply elem_of_nil in Hin.
Qed.


End GitSemantics.

Section OrphanSemantics.
Import JS.
Implicit Types (r : Git.repository) (t : list event).










End OrphanSemantics.

Section GitBranch.
Context (dir : string) (versioned := Git.world dir).
#[local] Existing Instance versioned.
Import JS.
Implicit Types (s : Git.state) (r : Git.repository) (t : list event).



End GitBranch.

(** ** Cancelling over the git model *)

Section GitCancel.
Context (dir : string) (versioned := Git.world dir).
#[local] Existing Instance versioned.
Import JS.
Implicit Types (s : Git.state) (r : Git.repository) (t : list event).

(** A trace of inspections replays to the repository it started from. *)
Lemma replay_inspections queries t r r' :
  Forall (only inspectCommands queries) t → Git.replay t r = Some r' → r' = r.
Proof.
  intros Ht. revert r. induction Ht as [|e t He _ IH]; intros r; simpl.
  { by intros [= <-]. }
  destruct e as [io cmd [err|out]| | | |]; try apply IH.
  - destruct (Git.git cmd r); [apply IH|done].
  - simpl in He. assert (io = pipe) as -> by (unfold inspectCommands in He; set_solver).
    destruct (Git.step cmd r) as [r1|] eqn:Hs; [|done]. simpl.
    rewrite (inspect_step _ _ _ He Hs). apply IH.
Qed.

(** Over the git model, a declined rewrite leaves the repository as it
    was. *)
Lemma cancelled_rewrite_keeps_repository s a :
  toLowerCase (trim a) ≠ "y" →
  (Asked cleanHistoryQuery a ∈ trace (opCleanOldUserCommits s) →
   Git.repo (world (opCleanOldUserCommits s)) = Git.repo s)
  ∧ (Asked cleanAllQuery a ∈ trace (opCleanAllCommits s) →
     Git.repo (world (opCleanAllCommits s)) = Git.repo s).
Proof.
  intros Ha. split; intros Hask.
  - destruct (opCleanOldUserCommits_cancelled s a Ha Hask) as [_ Ht].
    eapply replay_inspections; [exact Ht|]. apply (replays_opCleanOldUserCommits dir).
  - destruct (opCleanAllCommits_cancelled s a Ha Hask) as [_ Ht].
    eapply replay_inspections; [exact Ht|]. apply replays_opCleanAllCommits.
Qed.

End GitCancel.

(** ** A fresh history on the current branch *)

Section FreshHistory.
Context (dir : string) (versioned := Git.world dir).
#[local] Existing Instance versioned.
Import JS.
Implicit Types (s : Git.state) (r : Git.repository) (t : list event).



End FreshHistory.

(** * Further properties of the script *)

(** ** The configuration file *)

Section ConfigFile.
Context `{World W}.
Import JS.
Implicit Types (w : W) (t : list event).

(** X1: [readConfig] never throws, runs and asks nothing and leaves the world
    as it is; what it returns other than [null] is the parsed content of
    the configuration file, which exists and is readable. *)
Theorem readConfig_never_throws w :
  ∃ c, result (readConfig w) = inr c
       ∧ world (readConfig w) = w
       ∧ Forall (only [] []) (trace (readConfig w))
       ∧ ∀ config, c = Some config →
           ∃ path raw, configFilePath = Some path ∧ existsSync path w = true
                       ∧ readFileSync path w = inr raw
                       ∧ JSON_parse raw = inr (Some config).
Proof.
  change (wp readConfig w (λ r w' t,
    ∃ c, r = inr c ∧ w' = w ∧ Forall (only [] []) t
         ∧ ∀ config, c = Some config →
             ∃ path raw, configFilePath = Some path ∧ existsSync path w = true
                         ∧ readFileSync path w = inr raw
                         ∧ JSON_parse raw = inr (Some config))).
  unfold readConfig. destruct configFilePath as [path|] eqn:Hp.
  2:{ repeat wp_seq. exists None. repeat split; [allowed|done]. }
  wp_seq. wp_seq. destruct (existsSync path w) eqn:He; simpl negb; lazy iota.
  2:{ repeat wp_seq. exists None. repeat split; [allowed|done]. }
  wp_seq. wp_seq. wp_seq.
  - repeat wp_seq. exists None. repeat split; [allowed|done].
  - wp_seq. destruct (JSON_parse s) as [e|c] eqn:Hj.
    + repeat wp_seq. exists None. repeat split; [allowed|done].
    + exists c. repeat split; [allowed|]. intros config ->. by exists path, s.
Qed.

(** X2: [updateConfig] never throws and runs nothing.  It answers [true]
    exactly when the serialised configuration has been written to the
    configuration file; when it answers [false], nothing has changed and an
    error has been logged. *)
Theorem updateConfig_reports_write c w :
  ∃ ok, result (updateConfig c w) = inr ok
        ∧ Forall (only [] []) (trace (updateConfig c w))
        ∧ if ok
          then ∃ path, configFilePath = Some path
                 ∧ writeFileSync path (JSON_stringify c) w = inr (world (updateConfig c w))
          else world (updateConfig c w) = w
               ∧ (∃ m, Err m ∈ trace (updateConfig c w))
               ∧ ∀ path w', configFilePath = Some path →
                   writeFileSync path (JSON_stringify c) w ≠ inr w'.
Proof.
  change (wp (updateConfig c) w (λ r w1 t,
    ∃ ok, r = inr ok ∧ Forall (only [] []) t
          ∧ if ok
            then ∃ path, configFilePath = Some path
                   ∧ writeFileSync path (JSON_stringify c) w = inr w1
            else w1 = w ∧ (∃ m, Err m ∈ t)
                 ∧ ∀ path w', configFilePath = Some path →
                     writeFileSync path (JSON_stringify c) w ≠ inr w')).
  unfold updateConfig. destruct configFilePath as [path|] eqn:Hp.
  - repeat wp_seq.
    + exists false. split; [done|]. split; [allowed|]. split; [done|].
      split; [eexists; in_trace|]. intros ? ? [= <-]. congruence.
    + exists true. split; [done|]. split; [allowed|]. by exists path.
  - repeat wp_seq. exists false. split; [done|]. split; [allowed|]. split; [done|].
    split; [eexists; in_trace|]. done.
Qed.

End ConfigFile.

(** ** The current branch *)

Section CurrentBranch.
Context `{World W}.
Import JS.
Implicit Types (w : W) (t : list event).

Lemma trim_nonempty_eqb s : (s === "") = false → s ≠ "".
Proof. by intros ?%String.eqb_neq. Qed.

(** X3: what [getCurrentGitBranch] returns is never empty and has no white
    space around it.  It is the trimmed output of [git rev-parse
    --abbrev-ref HEAD], unless that is empty or [HEAD] (a detached head):
    then, and only then, [git branch --show-current] is run and its trimmed
    output is returned.  In every other case the function throws, after
    logging the error. *)
Theorem getCurrentGitBranch_result w :
  let t := trace (getCurrentGitBranch w) in
  match result (getCurrentGitBranch w) with
  | inr b =>
      b ≠ "" ∧ trim b = b
      ∧ ∃ out, printed t "git rev-parse --abbrev-ref HEAD" out
          ∧ if (trim out === "") || (trim out === "HEAD")
            then ∃ out', printed t "git branch --show-current" out' ∧ b = trim out'
            else b = trim out
                 ∧ ∀ r, Exec pipe "git branch --show-current" r ∉ t
  | inl e => Err ("Error getting current branch: " +:+ message e) ∈ t
  end.
Proof.
  change (wp getCurrentGitBranch w (λ res _ t,
    match res with
    | inr b =>
        b ≠ "" ∧ trim b = b
        ∧ ∃ out, printed t "git rev-parse --abbrev-ref HEAD" out
            ∧ if (trim out === "") || (trim out === "HEAD")
              then ∃ out', printed t "git branch --show-current" out' ∧ b = trim out'
              else b = trim out
                   ∧ ∀ r, Exec pipe "git branch --show-current" r ∉ t
    | inl e => Err ("Error getting current branch: " +:+ message e) ∈ t
    end)).
  unfold getCurrentGitBranch, printed. wp_seq. wp_seq. wp_seq.
  2:{ repeat wp_seq. in_trace. }
  wp_seq. unfold truthy. rewrite negb_involutive, trim_idemp.
  destruct ((trim out === "") || (trim out === "HEAD")) eqn:Hfirst.
  - wp_seq.
    2:{ repeat wp_seq. in_trace. }
    rewrite negb_involutive, trim_idemp.
    destruct ((trim out0 === "") || (trim out0 === "")) eqn:Hsecond; repeat wp_seq;
      [in_trace|].
    apply orb_false_iff in Hsecond as [Hne _]. apply trim_nonempty_eqb in Hne.
    split; [done|]. split; [apply trim_idemp|].
    exists out. split; [in_trace|]. rewrite Hfirst. exists out0. split; [in_trace|done].
  - wp_seq. rewrite negb_involutive, ?trim_idemp.
    destruct ((trim out === "") || (trim out === "")) eqn:Hsecond; repeat wp_seq;
      [in_trace|].
    apply orb_false_iff in Hsecond as [Hne _]. apply trim_nonempty_eqb in Hne.
    split; [done|]. split; [apply trim_idemp|].
    exists out. split; [in_trace|]. rewrite Hfirst. split; [done|].
    intros r Hin. trace_inv.
Qed.

End CurrentBranch.

(** ** Local changes and the status report *)

Section Status.
Context `{World W}.
Import JS.
Implicit Types (w : W) (t : list event).

(** X4: [hasChanges] is true exactly when [git status --porcelain] printed
    something other than white space.  It is set before the other commands
    run, so it also holds in a status whose [sync] is [error]; when
    [git status] itself fails, or outside a repository, it is false. *)
Theorem getGitStatus_hasChanges b w :
  let t := trace (getGitStatus b w) in
  ∃ st, result (getGitStatus b w) = inr st
    ∧ (∀ out, printed t "git status --porcelain" out →
         hasChanges st = truthy (trim out))
    ∧ ((∀ out, ¬ printed t "git status --porcelain" out) → hasChanges st = false).
Proof.
  change (wp (getGitStatus b) w (λ r _ t,
    ∃ st, r = inr st
      ∧ (∀ out, printed t "git status --porcelain" out →
           hasChanges st = truthy (trim out))
      ∧ ((∀ out, ¬ printed t "git status --porcelain" out) → hasChanges st = false))).
  unfold getGitStatus, printed. do 4 wp_step.
  destruct (existsSync _ w); simpl negb; lazy iota.
  2:{ repeat wp_seq. eexists. split; [done|]. split; [|done].
      intros out Hin. exfalso. trace_inv. }
  wp_seq. wp_seq.
  2:{ apply getGitStatus_catch_spec. intros t1 Ht1. eexists. split; [done|].
      split; [|done]. intros out Hin. exfalso. trace_inv. }
  assert (hasChanges_length : (0 <? String.length (trim out))%nat = truthy (trim out)).
  { unfold truthy. by destruct (trim out). }
  repeat (wp_step || (apply getGitStatus_catch_spec; intros)).
  all: eexists; (split; [reflexivity|]).
  all: cbn [hasChanges isRepo sync localHash remoteHash baseHash set_baseHash set_remoteHash
            set_localHash set_hasChanges set_sync].
  all: repeat case_match; cbn [hasChanges set_sync].
  all: split; [intros out' Hin; trace_inv; done|].
  all: intros Hno; exfalso; apply (Hno out); in_trace.
Qed.

(** X5: [displaySyncStatus] never throws, not even when a push fails.  Unless
    the status is [ahead] or [no_remote] it only writes to the console: it
    runs no command, asks nothing and leaves the world as it is. *)
Theorem displaySyncStatus_quiet st b op w :
  result (displaySyncStatus st b op w) = inr ()
  ∧ (sync st ≠ "ahead" → sync st ≠ "no_remote" →
     world (displaySyncStatus st b op w) = w
     ∧ Forall (only [] []) (trace (displaySyncStatus st b op w))).
Proof.
  change (wp (displaySyncStatus st b op) w (λ r w' t,
    r = inr () ∧ (sync st ≠ "ahead" → sync st ≠ "no_remote" →
                  w' = w ∧ Forall (only [] []) t))).
  unfold displaySyncStatus. repeat wp_step.
  all: split; [done|]; intros Ha Hn.
  all: repeat match goal with
         | Heq : (_ === _) = true |- _ => apply String.eqb_eq in Heq
         end; try done.
  all: split; [done|allowed].
Qed.

End Status.

(** ** The time stamp *)

Section Timestamp.
Context `{World W}.
Import JS.
Implicit Types (w : W).

Lemma wp_getFormattedTimestamp w Q :
  Q (result (getFormattedTimestamp w)) w [] → wp getFormattedTimestamp w Q.
Proof. done. Qed.

Lemma take_app_length a b : take (String.length a) (a +:+ b) = a.
Proof. induction a as [|c a IH]; simpl; [by destruct b|]. by rewrite IH. Qed.

Lemma replaceFirst_app c r a b :
  Forall (λ x, x ≠ c) (String.list_ascii_of_string a) →
  replaceFirst c r (a +:+ String c b) = a +:+ r +:+ b.
Proof.
  induction a as [|x a IH]; simpl.
  - intros _. by rewrite Ascii.eqb_refl.
  - intros [Hx Ha]%Forall_cons. apply Ascii.eqb_neq in Hx. rewrite Hx.
    by rewrite IH.
Qed.

(** X6: the time stamp is the clock's ISO string seven hours ahead
    ([YYYY-MM-DDTHH:MM:SS.sssZ]) with the [T] turned into a space and cut
    after the seconds.  Taking it changes nothing. *)
Theorem getFormattedTimestamp_format w date time rest :
  toISOString (7 * 60 * 60 * 1000) w = date +:+ "T" +:+ time +:+ rest →
  String.length date = 10%nat →
  Forall (λ c, c ≠ "T"%char) (String.list_ascii_of_string date) →
  String.length time = 8%nat →
  result (getFormattedTimestamp w) = inr (date +:+ " " +:+ time)
  ∧ world (getFormattedTimestamp w) = w
  ∧ trace (getFormattedTimestamp w) = [].
Proof.
  intros Hiso Hdate HT Htime. split; [|done].
  unfold getFormattedTimestamp, result. cbn [fst]. rewrite Hiso. f_equal.
  change (date +:+ "T" +:+ time +:+ rest) with (date +:+ String "T" (time +:+ rest)).
  rewrite replaceFirst_app by done.
  replace (date +:+ " " +:+ time +:+ rest) with ((date +:+ " " +:+ time) +:+ rest)
    by (by rewrite !append_assoc).
  replace 19%nat with (String.length (date +:+ " " +:+ time)).
  - apply take_app_length.
  - rewrite !length_append, Hdate, Htime. reflexivity.
Qed.

End Timestamp.

(** ** Committing and pushing *)

Section Commit.
Context `{World W}.
Import JS.
Implicit Types (w : W) (t : list event).

(** One run of [commitAndPush]: it returns [true] after its three commands,
    or [false] after the first of them that failed. *)
Lemma wp_commitAndPush m b p w Q :
  let cmds := ["git add -A";
               "git commit -m " +:+ dq +:+ replaceAll "034" ("\" +:+ dq) m +:+ dq;
               "git push origin " +:+ b] in
  (∀ w' t, ¬ failed t → stdioCommands t = cmds →
           Forall (allows (λ io _, io = inherit) (λ _, False)) t →
           Q (inr true) w' t) →
  (∀ w' t cmds' cmd e,
     stdioCommands t = cmds' ++ [cmd] → (cmds' ++ [cmd]) `prefix_of` cmds →
     Exec inherit cmd (inl e) ∈ t →
     (∀ cmd' e', Exec inherit cmd' (inl e') ∈ t → cmd' = cmd) →
     Forall (allows (λ io _, io = inherit) (λ _, False)) t →
     Q (inr false) w' t) →
  wp (commitAndPush m b p) w Q.
Proof.
  intros cmds Hok Hfail. unfold commitAndPush. repeat wp_step.
  all: first
    [ apply Hok;
      [ intros (io & cmd & e' & Hin); trace_inv
      | reflexivity
      | allowed ]
    | eapply (Hfail _ _ []);
      [ reflexivity | by eexists | in_trace | intros ? ? Hin; trace_inv; done | allowed ]
    | eapply (Hfail _ _ [_]);
      [ reflexivity | by eexists | in_trace | intros ? ? Hin; trace_inv; done | allowed ]
    | eapply (Hfail _ _ [_; _]);
      [ reflexivity | by eexists | in_trace | intros ? ? Hin; trace_inv; done | allowed ] ].
Qed.

(** X7: [commitAndPush] never throws and asks nothing.  It runs [git add -A],
    [git commit] with the message (its double quotes escaped) and
    [git push origin <branch>], in this order and each only if the one
    before succeeded; it answers [true] exactly when none of them failed, so
    it never pushes after a failed commit. *)
Theorem commitAndPush_sequence m b p w :
  let t := trace (commitAndPush m b p w) in
  let cmds := ["git add -A";
               "git commit -m " +:+ dq +:+ replaceAll "034" ("\" +:+ dq) m +:+ dq;
               "git push origin " +:+ b] in
  ∃ ok, result (commitAndPush m b p w) = inr ok
    ∧ (ok = true ↔ ¬ failed t)
    ∧ stdioCommands t `prefix_of` cmds
    ∧ (ok = true → stdioCommands t = cmds)
    ∧ (∀ cmd e, Exec inherit cmd (inl e) ∈ t → last (stdioCommands t) = Some cmd)
    ∧ Forall (allows (λ io _, io = inherit) (λ _, False)) t.
Proof.
  change (wp (commitAndPush m b p) w (λ r _ t,
    let cmds := ["git add -A";
                 "git commit -m " +:+ dq +:+ replaceAll "034" ("\" +:+ dq) m +:+ dq;
                 "git push origin " +:+ b] in
    ∃ ok, r = inr ok
      ∧ (ok = true ↔ ¬ failed t)
      ∧ stdioCommands t `prefix_of` cmds
      ∧ (ok = true → stdioCommands t = cmds)
      ∧ (∀ cmd e, Exec inherit cmd (inl e) ∈ t → last (stdioCommands t) = Some cmd)
      ∧ Forall (allows (λ io _, io = inherit) (λ _, False)) t)).
  apply wp_commitAndPush.
  - intros w' t Hnf Hcmds Ht. exists true. split; [done|]. split; [done|].
    rewrite Hcmds. split; [done|]. split; [done|]. split; [|done].
    intros cmd e Hin. exfalso. apply Hnf. by exists inherit, cmd, e.
  - intros w' t cmds' cmd e Hcmds Hpre Hin Hlast Ht. exists false.
    split; [done|]. split.
    { split; [done|]. intros Hnf. exfalso. apply Hnf. by exists inherit, cmd, e. }
    rewrite Hcmds. split; [done|]. split; [done|]. split; [|done].
    intros cmd' e' Hin'. rewrite (Hlast _ _ Hin'). apply last_snoc.
Qed.

End Commit.

(** ** The quick backup *)

Section QuickBackup.
Context `{World W}.
Import JS.
Implicit Types (w : W) (t : list event).


End QuickBackup.

(** ** More on the project's .gitignore *)

Section GitignoreContent.
Context `{World W}.
Import JS.
Implicit Types (w : W) (t : list event).

Lemma append_nil_r (s : string) : s +:+ "" = s.
Proof. induction s; simpl; by f_equal. Qed.

(** Without the marker in the file, the marker line itself is the first of
    the rules to add. *)
Lemma rulesToAdd_marker g :
  includes g toolGitignoreMarker = false →
  ∃ rules, rulesToAdd g = toolGitignoreMarker :: rules.
Proof.
  intros Hm. unfold rulesToAdd.
  let l := eval vm_compute in (split "010" toolGitignoreContent) in
  change (split "010" toolGitignoreContent) with l.
  rewrite filter_cons. destruct (decide _) as [Hd|_]; [vm_compute in Hd; done|].
  rewrite filter_cons. destruct (decide _) as [_|Hn]; [by eexists|].
  exfalso. apply Hn. change (negb (includes g toolGitignoreMarker) = true).
  by rewrite Hm.
Qed.

Lemma join_cons_nl x l : ∃ rest, join nl (x :: l) +:+ nl = x +:+ nl +:+ rest.
Proof.
  destruct l as [|y l]; cbn [join].
  - by exists "".
  - exists (join nl (y :: l) +:+ nl). by rewrite !append_assoc.
Qed.

Lemma contentToAppend_header g :
  includes g toolGitignoreMarker = false →
  ∃ rest, contentToAppend g
          = nl +:+ toolGitignoreMarker +:+ nl +:+ "# backupTool rules" +:+ nl
            +:+ toolGitignoreMarker +:+ nl +:+ rest.
Proof.
  intros Hm. unfold contentToAppend. rewrite Hm.
  destruct (rulesToAdd_marker g Hm) as [rules ->]. cbn [length Nat.ltb Nat.leb].
  destruct (join_cons_nl toolGitignoreMarker rules) as [rest ->].
  exists rest. by rewrite !append_assoc.
Qed.

(** X9: the update of an existing [.gitignore] has no no-op branch besides the
    marker test.  A file without the marker always gets a section appended,
    which starts with the marker line, a title line and the marker line
    again; the branches for "no rule is missing" are never taken, and the
    message that all rules are present is never printed. *)
Theorem updateProjectGitignore_always_appends :
  (∀ g, includes g toolGitignoreMarker = false →
        ∃ rest, contentToAppend g
                = nl +:+ "# backupTool" +:+ nl +:+ "# backupTool rules" +:+ nl
                  +:+ "# backupTool" +:+ nl +:+ rest)
  ∧ ∀ dir w,
      Log "All necessary backupTool .gitignore rules seem to be present. No changes made."
      ∉ trace (updateProjectGitignore dir w).
Proof.
  split; [exact contentToAppend_header|]. intros dir w.
  change (wp (updateProjectGitignore dir) w (λ _ _ t,
    Log "All necessary backupTool .gitignore rules seem to be present. No changes made."
    ∉ t)).
  unfold updateProjectGitignore. repeat wp_step.
  all: try (intros Hin; trace_inv; fail).
  exfalso.
  match goal with Hm : includes _ toolGitignoreMarker = false |- _ =>
    destruct (contentToAppend_header _ Hm) as [rest Hc] end.
  match goal with Ht : truthy _ = false |- _ => rewrite Hc in Ht; done end.
Qed.

(** X10: updating never throws and never loses what an existing [.gitignore]
    holds: the file afterwards reads as before, followed by what was
    appended, which is nothing if the file has the marker or the append
    fails. *)
Theorem updateProjectGitignore_keeps_content dir w :
  result (updateProjectGitignore dir w) = inr ()
  ∧ ∀ c, existsSync (path_join dir ".gitignore") w = true →
         readFileSync (path_join dir ".gitignore") w = inr c →
         ∃ added,
           readFileSync (path_join dir ".gitignore") (world (updateProjectGitignore dir w))
           = inr (c +:+ added)
           ∧ (includes c toolGitignoreMarker = true → added = "").
Proof.
  change (wp (updateProjectGitignore dir) w (λ r w' _,
    r = inr ()
    ∧ ∀ c, existsSync (path_join dir ".gitignore") w = true →
           readFileSync (path_join dir ".gitignore") w = inr c →
           ∃ added, readFileSync (path_join dir ".gitignore") w' = inr (c +:+ added)
                    ∧ (includes c toolGitignoreMarker = true → added = ""))).
  unfold updateProjectGitignore. repeat wp_step.
  all: split; [done|]; intros c He Hr.
  all: rewrite ?He, ?Hr in *; simplify_eq/=.
  all: try (exists ""; rewrite append_nil_r; by split).
  match goal with Hw : appendFileSync _ _ _ = _, Hr : readFileSync _ _ = _ |- _ =>
    destruct (append_read _ _ _ _ _ Hw Hr) as [_ Hr'] end.
  eexists. split; [exact Hr'|]. congruence.
Qed.

End GitignoreContent.

(** ** Operations that end early *)

Section EarlyExits.
Context `{World W}.
Import JS.
Implicit Types (w : W) (t : list event).

Lemma messageQuery_not_emptyCommitQuery b : emptyCommitQuery b ≠ messageQuery.
Proof. unfold emptyCommitQuery, messageQuery. simpl. congruence. Qed.

(** X11: [--commit] without a message: when the message asked for is blank too,
    the operation returns having run nothing but the branch queries; no
    status is fetched and nothing is committed or pushed. *)
Theorem opCommitWithMessage_no_message msg w a :
  Asked messageQuery a ∈ trace (opCommitWithMessage msg w) →
  trim a = "" →
  result (opCommitWithMessage msg w) = inr ()
  ∧ Forall (only branchCommands [messageQuery]) (trace (opCommitWithMessage msg w))
  ∧ Log "No commit message provided. Aborting commit operation."
    ∈ trace (opCommitWithMessage msg w).
Proof.
  intros Hin Ha. revert Hin.
  change (wp (opCommitWithMessage msg) w (λ r _ t,
    Asked messageQuery a ∈ t →
    r = inr () ∧ Forall (only branchCommands [messageQuery]) t
    ∧ Log "No commit message provided. Aborting commit operation." ∈ t)).
  unfold opCommitWithMessage. do 5 wp_step.
  apply (wp_emits _ _ _ _ emits_readConfig). intros [?|cfg] wc tc Htc; lazy beta iota;
    [intros Hin; exfalso; trace_inv|].
  destruct (usable projectName cfg) as [c|]; [|wp_step; intros Hin; exfalso; trace_inv].
  wp_step. apply (wp_emits _ _ _ _ emits_getCurrentGitBranch).
  intros [?|s] wb tb Htb; lazy beta iota.
  { wp_step. intros Hin; exfalso; trace_inv. }
  cbv zeta. wp_seq.
  assert (∀ m (w1 : W),
    wp (if negb (truthy m) || (trim m === "")
        then console_log "No commit message provided. Aborting commit operation."
        else
          gitStatus ← getGitStatus s;
          if negb (isRepo gitStatus) then mret ()
          else
            proceed ←
              (if negb (hasChanges gitStatus) then
                 commitEmpty ← askQuestion (emptyCommitQuery s);
                 if negb (startsWith (toLowerCase commitEmpty) "y") then
                   console_log "Commit aborted as there are no local changes and user chose not to create an empty commit.";;
                   displaySyncStatus gitStatus s "CommitWithMessage";;
                   mret false
                 else
                   console_log "Proceeding with an empty commit as requested.";;
                   mret true
               else mret true);
            if negb proceed then mret ()
            else
              console_log ("Committing changes on branch '" +:+ s +:+ "'...");;
              commitAndPush m s (projectName c);;
              mret ())
       w1
       (λ r _ t2,
          (negb (truthy m) || (trim m === "") = true →
           r = inr () ∧ t2 = [Log "No commit message provided. Aborting commit operation."])
          ∧ Forall (allows (λ _ _, True) (λ q, q = emptyCommitQuery s)) t2)) as Hrest.
  { intros m w1. destruct (negb (truthy m) || (trim m === "")) eqn:Hm.
    - wp_seq. split; [done|]. allowed.
    - apply (wp_emits (allows (λ _ _, True) (λ q, q = emptyCommitQuery s))).
      + repeat emits_step; try done.
        * eapply emits_mono; [|apply emits_getGitStatus]. intros ?. apply allows_mono; [done|set_solver].
        * eapply emits_mono; [|apply emits_displaySyncStatus]. intros ?. apply allows_mono; [done|set_solver].
        * eapply emits_mono; [|apply emits_commitAndPush]. intros ?. apply allows_mono; [done|set_solver].
      + intros r w2 t2 Ht2. split; [done|exact Ht2]. }
  destruct (negb (truthy msg) || (trim msg === "")) eqn:Hmsg.
  - wp_seq. eapply wp_mono; [apply (Hrest (trim a0) w')|].
    intros r w2 t2 [Habort Ht2] Hin. simpl in Hin.
    assert (a0 = a) as ->.
    { unfold branchCommands in *.
      trace_inv; first [done | exfalso; by eapply messageQuery_not_emptyCommitQuery]. }
    rewrite trim_idemp, Ha in Habort. destruct (Habort eq_refl) as [-> ->].
    split; [done|]. split; [|in_trace]. unfold messageQuery. allowed.
  - wp_seq. eapply wp_mono; [apply (Hrest msg wb)|].
    intros r w2 t2 [_ Ht2] Hin. exfalso. unfold branchCommands in *.
    trace_inv; try by eapply messageQuery_not_emptyCommitQuery.
Qed.

End EarlyExits.

(** ** The partition loop *)

Section PartitionLoop.
Import JS.
Implicit Types (u : string) (c : Commit).

Lemma length_split sep s : length (split sep s) = S (occurrences sep s).
Proof.
  induction s as [|a s IH]; [done|]. simpl.
  destruct (Ascii.eqb a sep); simpl; [by rewrite IH|].
  destruct (split sep s); simpl in *; [done|lia].
Qed.

Lemma parseCommit_email line :
  (2 ≤ occurrences "|" line)%nat → is_Some (authorEmail (parseCommit line)).
Proof.
  intros Hn. unfold parseCommit. cbn [authorEmail].
  apply lookup_lt_is_Some. rewrite length_split. lia.
Qed.

(** X12: on a log whose lines have at least two [|] each, as the lines that
    [git log] prints in the format of the tool have, the partition loop
    does not throw, and its two arrays are the commits that pass the author
    test and those that fail it, each in the order of the log. *)
Theorem partitionCommits_ordered u lines :
  Forall (λ line, (2 ≤ occurrences "|" line)%nat) lines →
  partitionCommits u lines [] []
  = inr (filter (λ c, isCurrentUser u c = inr true) (parseCommit <$> lines),
         filter (λ c, isCurrentUser u c = inr false) (parseCommit <$> lines)).
Proof.
  intros Hl.
  destruct (partitionCommits_total u lines [] []) as (cur & old & Hp).
  { eapply Forall_impl; [exact Hl|]. intros line. apply parseCommit_email. }
  rewrite Hp. by apply partitionCommits_acc in Hp as [-> ->].
Qed.

End PartitionLoop.

(** ** A history with nothing to rewrite *)

Section NothingToClean.
Context `{World W}.
Import JS.
Implicit Types (w : W) (t : list event).

Lemma partitionCommits_all_own u lines cur old :
  partitionCommits u lines [] [] = inr (cur, old) →
  Forall (λ c, isCurrentUser u c = inr true) (parseCommit <$> lines) →
  old = [].
Proof.
  intros [_ ->]%partitionCommits_acc Hall. simpl.
  induction Hall as [|c l Hc _ IH]; [done|].
  rewrite filter_cons. case_decide; [congruence|done].
Qed.

Lemma partitionCommits_throws u lines cur old :
  Exists (λ c, ∃ e, isCurrentUser u c = inl e) (parseCommit <$> lines) →
  ∃ e, partitionCommits u lines cur old = inl e.
Proof.
  revert cur old. induction lines as [|line lines IH]; intros cur old Hex; simpl in *.
  { by apply Exists_nil in Hex. }
  apply Exists_cons in Hex as [[e He]|Hex].
  - rewrite He. by exists e.
  - destruct (isCurrentUser u (parseCommit line)) as [e|[]]; [by exists e|by apply IH..].
Qed.

(** X13: [--clean-history] with nothing to rewrite.  When every commit of the
    log is the configured user's (an empty log included), or when a line of
    the log lacks the e-mail field so that the author test throws, the
    operation returns after its three inspections: it asks no question and
    runs no other command.  In the second case the error is logged. *)
Theorem opCleanOldUserCommits_nothing_to_clean w cfg config out :
  result (readConfig w) = inr cfg →
  usable githubUsername cfg = Some config →
  printed (trace (opCleanOldUserCommits w)) gitLogCommand out →
  Forall (λ c, isCurrentUser (githubUsername config) c = inr true)
         (parseCommit <$> logCommits out)
  ∨ Exists (λ c, ∃ e, isCurrentUser (githubUsername config) c = inl e)
           (parseCommit <$> logCommits out) →
  result (opCleanOldUserCommits w) = inr ()
  ∧ Forall (only inspectCommands []) (trace (opCleanOldUserCommits w))
  ∧ (Exists (λ c, ∃ e, isCurrentUser (githubUsername config) c = inl e)
            (parseCommit <$> logCommits out) →
     ∃ m, Err ("Error analyzing commit history: " +:+ m)
          ∈ trace (opCleanOldUserCommits w)).
Proof.
  intros Hcfg Hu Hlog Hcase. revert Hlog.
  change (wp opCleanOldUserCommits w (λ r _ t,
    printed t gitLogCommand out →
    r = inr () ∧ Forall (only inspectCommands []) t
    ∧ (Exists (λ c, ∃ e, isCurrentUser (githubUsername config) c = inl e)
              (parseCommit <$> logCommits out) →
       ∃ m, Err ("Error analyzing commit history: " +:+ m) ∈ t))).
  unfold opCleanOldUserCommits, printed. do 5 wp_step.
  apply (wp_emits_run _ _ _ _ emits_readConfig). intros r w0 t0 Hr Ht0.
  rewrite Hcfg in Hr. subst r. lazy beta iota. rewrite Hu.
  wp_step. apply (wp_emits _ _ _ _ emits_getCurrentGitBranch).
  intros [?|b] wb tb Htb; lazy beta iota.
  { wp_step. intros Hin; exfalso; unfold branchCommands in *; trace_inv. }
  repeat wp_seq.
  2:{ intros Hin; exfalso; unfold branchCommands in *; trace_inv. }
  destruct (length _ =? 0)%nat eqn:Hlen.
  { wp_seq. intros Hin.
    assert (out0 = out) as -> by (unfold branchCommands, gitLogCommand in *; trace_inv; done).
    split; [done|]. split; [unfold branchCommands, inspectCommands in *; allowed|].
    intros Hex. exfalso. unfold logCommits in Hex.
    apply Nat.eqb_eq, nil_length_inv in Hlen. rewrite Hlen in Hex.
    by apply Exists_nil in Hex. }
  wp_seq. wp_seq.
  destruct (partitionCommits _ _ _ _) as [e|[currentUserCommits oldUserCommits]] eqn:Hpart.
  { wp_seq. intros Hin.
    split; [done|]. split; [unfold branchCommands, inspectCommands in *; allowed|].
    intros _. eexists. in_trace. }
  lazy beta iota.
  assert (out0 = out → oldUserCommits = []) as Hold.
  { intros ->. destruct Hcase as [Hall|Hex].
    - by eapply partitionCommits_all_own.
    - destruct (partitionCommits_throws _ _ [] [] Hex) as [e He].
      unfold logCommits in He. congruence. }
  destruct (length oldUserCommits =? 0)%nat eqn:Hlen'.
  { wp_seq. intros Hin.
    assert (out0 = out) as -> by (unfold branchCommands, gitLogCommand in *; trace_inv; done).
    split; [done|]. split; [unfold branchCommands, inspectCommands in *; allowed|].
    intros Hex. exfalso. destruct (partitionCommits_throws _ _ [] [] Hex) as [e He].
    unfold logCommits in He. congruence. }
  apply (wp_emits (allows (λ io _, io = inherit) (λ _, True))).
  { repeat emits_step; try done.
    all: eapply emits_mono; [|first [apply (emits_logOldCommits (W:=W))
                                    |apply emits_forcePushCleaned
                                    |apply emits_runCommandStdIO]].
    all: intros ?; apply allows_mono; [set_solver|done]. }
  intros [e|[]] w2 t2 Ht2; [wp_seq|]; intros Hin; exfalso.
  all: assert (out0 = out) as ->
         by (unfold branchCommands, gitLogCommand in *; trace_inv; done).
  all: rewrite (Hold eq_refl) in Hlen'; done.
Qed.

End NothingToClean.

(** ** Names built from what the user typed *)

Section Names.
Import JS.

Lemma dashRuns_spaceless afterSpace s : spaceless (dashRuns afterSpace s).
Proof.
  unfold spaceless. revert afterSpace.
  induction s as [|c s IH]; intros afterSpace; simpl; [constructor|].
  destruct (isWhiteSpace c) eqn:Hc; [destruct afterSpace|]; simpl; auto.
Qed.

Lemma dashRuns_nonempty s : s ≠ "" → dashRuns false s ≠ "".
Proof. destruct s as [|c s]; [done|]. simpl. by destruct (isWhiteSpace c). Qed.

Lemma keepChars_Forall p s :
  Forall (λ c, p c = true) (String.list_ascii_of_string (keepChars p s)).
Proof.
  induction s as [|c s IH]; simpl; [constructor|].
  destruct (p c) eqn:Hc; simpl; auto.
Qed.

Lemma dropLeading_Forall (P : ascii → Prop) p s :
  Forall P (String.list_ascii_of_string s) →
  Forall P (String.list_ascii_of_string (dropLeading p s)).
Proof.
  induction s as [|c s IH]; simpl; [done|].
  intros [Hc Hs]%Forall_cons. destruct (p c); [by apply IH|by constructor].
Qed.

Lemma dropTrailing_Forall (P : ascii → Prop) p s :
  Forall P (String.list_ascii_of_string s) →
  Forall P (String.list_ascii_of_string (dropTrailing p s)).
Proof.
  induction s as [|c s IH]; simpl; [done|].
  intros [Hc Hs]%Forall_cons. specialize (IH Hs).
  destruct (dropTrailing p s); [destruct (p c)|]; simpl in *; auto.
Qed.

Lemma dropLeading_first p s c : firstChar (dropLeading p s) = Some c → p c = false.
Proof.
  induction s as [|a s IH]; simpl; [done|].
  destruct (p a) eqn:Ha; [done|]. by intros [= <-].
Qed.

Lemma dropTrailing_first p s c :
  firstChar (dropTrailing p s) = Some c → firstChar s = Some c.
Proof.
  destruct s as [|a s]; simpl; [done|].
  destruct (dropTrailing p s); [destruct (p a)|]; simpl; done.
Qed.

Lemma dropTrailing_last p s c : lastChar (dropTrailing p s) = Some c → p c = false.
Proof.
  induction s as [|a s IH]; simpl; [done|].
  destruct (dropTrailing p s) as [|b rest] eqn:Hd.
  - destruct (p a) eqn:Ha; simpl; [done|]. by intros [= <-].
  - intros Hl. apply IH. exact Hl.
Qed.

(** X14: the name proposed for a new GitHub repository is never empty; it is
    made of letters, digits, [_], [.] and [-] only, and neither starts nor
    ends with one of [-], [.], [_].  A project name with nothing usable in
    it gives [new-backup-repository]. *)
Theorem baseRepoName_valid projectName :
  let name := baseRepoName projectName in
  name ≠ ""
  ∧ Forall (λ c, isRepoNameChar c = true) (String.list_ascii_of_string name)
  ∧ (∀ c, firstChar name = Some c ∨ lastChar name = Some c → isNameSeparator c = false)
  ∧ (String.length (trim projectName) = 0%nat → name = "new-backup-repository").
Proof.
  intros name. subst name. unfold baseRepoName.
  set (kept := keepChars isRepoNameChar (dashWhiteSpace (trim projectName))).
  destruct (truthy (dropTrailing _ (dropLeading _ kept))) eqn:Hname; cbv zeta.
  - split; [by apply negb_true_iff, String.eqb_neq in Hname|].
    split; [apply dropTrailing_Forall, dropLeading_Forall, keepChars_Forall|].
    split.
    + intros c [Hc|Hc].
      * by apply dropTrailing_first, dropLeading_first in Hc.
      * by apply dropTrailing_last in Hc.
    + intros Hempty. exfalso. subst kept.
      destruct (trim projectName); [|done]. by vm_compute in Hname.
  - split; [done|]. split; [by repeat constructor|]. split; [|done].
    intros c [[= <-]|[= <-]]; reflexivity.
Qed.

(** The name of the new branch is what the user typed with each run of
    white space turned into a dash: it is not empty and has no white
    space. *)
Lemma newBranchName_spaceless a :
  trim a ≠ "" →
  dashWhiteSpace (trim a) ≠ "" ∧ spaceless (dashWhiteSpace (trim a)).
Proof.
  intros Ha. split; [by apply dashRuns_nonempty|apply dashRuns_spaceless].
Qed.

End Names.

(** ** Operations without a configuration *)

Section Guards.
Context `{World W}.
Import JS.
Implicit Types (w : W) (t : list event).

(** Runs [op] up to the guard on the configuration and closes the branch
    in which it refuses. *)
Ltac refuse Hcfg Hu :=
  do 5 wp_step;
  apply (wp_emits_world _ _ _ _ emits_readConfig); intros r t0 Hr Ht0;
  rewrite Hcfg in Hr; subst r; lazy beta iota; rewrite Hu;
  wp_seq; rewrite readConfig_world;
  split; [done|]; split; [done|allowed].

(** X15: every operation that needs the configuration refuses to work without
    it: when [readConfig] returns [null], or a configuration whose
    [projectName] (for the backups) or [githubUsername] (for the history
    rewrites) is empty, the operation returns having only written to the
    console. *)
Theorem operations_need_configuration w cfg :
  result (readConfig w) = inr cfg →
  (usable projectName cfg = None →
   (result (opQuickBackup w) = inr () ∧ untouched w (opQuickBackup w))
   ∧ (∀ msg, result (opCommitWithMessage msg w) = inr ()
             ∧ untouched w (opCommitWithMessage msg w))
   ∧ (result (opBackupToNewBranch w) = inr () ∧ untouched w (opBackupToNewBranch w)))
  ∧ (usable githubUsername cfg = None →
     (result (opCleanOldUserCommits w) = inr () ∧ untouched w (opCleanOldUserCommits w))
     ∧ (result (opCleanAllCommits w) = inr () ∧ untouched w (opCleanAllCommits w))).
Proof.
  intros Hcfg. split; intros Hu.
  - split; [|split; [intros msg|]].
    + change (wp opQuickBackup w (λ r w' t, r = inr () ∧ w' = w ∧ Forall (only [] []) t)).
      unfold opQuickBackup. refuse Hcfg Hu.
    + change (wp (opCommitWithMessage msg) w
                (λ r w' t, r = inr () ∧ w' = w ∧ Forall (only [] []) t)).
      unfold opCommitWithMessage. refuse Hcfg Hu.
    + change (wp opBackupToNewBranch w
                (λ r w' t, r = inr () ∧ w' = w ∧ Forall (only [] []) t)).
      unfold opBackupToNewBranch. refuse Hcfg Hu.
  - split.
    + change (wp opCleanOldUserCommits w
                (λ r w' t, r = inr () ∧ w' = w ∧ Forall (only [] []) t)).
      unfold opCleanOldUserCommits. refuse Hcfg Hu.
    + change (wp opCleanAllCommits w
                (λ r w' t, r = inr () ∧ w' = w ∧ Forall (only [] []) t)).
      unfold opCleanAllCommits. refuse Hcfg Hu.
Qed.

(** The footprint of a called function, weakened to what the caller
    allows. *)
Ltac within :=
  eapply emits_mono;
  [|first [ apply emits_readConfig | apply emits_getCurrentGitBranch
          | apply emits_getGitStatus | apply emits_displaySyncStatus
          | apply emits_commitAndPush | apply emits_runCommandStdIO
          | apply emits_runCommand ]];
  intros ?; apply allows_mono; [try done; set_solver|try done; set_solver].

(** X16: the quick backup, the sync check and the pull never ask anything: they
    can run unattended. *)
Theorem unattended_operations w :
  Forall (allows (λ _ _, True) (λ _, False)) (trace (opQuickBackup w))
  ∧ Forall (allows (λ _ _, True) (λ _, False)) (trace (checkRemoteSync w))
  ∧ Forall (allows (λ _ _, True) (λ _, False)) (trace (pullChanges w)).
Proof.
  assert (emits (allows (λ _ _, True) (λ _, False)) opQuickBackup) as Hq.
  { unfold opQuickBackup. repeat first [within | emits_step]. }
  assert (emits (allows (λ _ _, True) (λ _, False)) checkRemoteSync) as Hc.
  { unfold checkRemoteSync. repeat first [within | emits_step]. }
  assert (emits (allows (λ _ _, True) (λ _, False)) pullChanges) as Hp.
  { unfold pullChanges. repeat first [within | emits_step]. }
  split; [apply Hq|]. split; [apply Hc|apply Hp].
Qed.

End Guards.

(** ** Pulling, and setting up the repository *)

Section Setup.
Context `{World W}.
Import JS.
Implicit Types (w : W) (t : list event).

(** X17: [pullChanges] never throws.  It pulls the branch that is checked out,
    with the one command [git pull origin <branch>], and runs nothing else
    with stdio; when the branch cannot be determined it pulls nothing. *)
Theorem pullChanges_current_branch w :
  result (pullChanges w) = inr ()
  ∧ stdioCommands (trace (pullChanges w))
    = match result (getCurrentGitBranch w) with
      | inr b => ["git pull origin " +:+ b]
      | inl _ => []
      end
  ∧ Forall (allows (λ _ _, True) (λ _, False)) (trace (pullChanges w)).
Proof.
  change (wp pullChanges w (λ r _ t,
    r = inr ()
    ∧ stdioCommands t = match result (getCurrentGitBranch w) with
                        | inr b => ["git pull origin " +:+ b]
                        | inl _ => []
                        end
    ∧ Forall (allows (λ _ _, True) (λ _, False)) t)).
  unfold pullChanges. do 4 wp_step. apply wp_attempt.
  apply (wp_emits_run _ _ _ _ emits_getCurrentGitBranch). intros r w' t Hr Ht.
  rewrite Hr. assert (stdioCommands t = []) as Hs.
  { eapply stdioCommands_only; [exact Ht|]. by repeat constructor. }
  destruct r as [e|b]; repeat wp_seq.
  all: rewrite ?stdioCommands_app, ?Hs; cbn [stdioCommands app].
  all: split; [done|]; split; [done|].
  all: unfold branchCommands in *; allowed.
Qed.


(** X19: [setupProjectConfigAndGhUser] never throws and asks nothing.  A user
    name that the configuration already has is kept, and then no command
    runs; an empty one is replaced by the trimmed output of
    [gh api user --jq .login].  The answer is [true] exactly when the
    configuration, with that user name, has been written to the
    configuration file. *)
Theorem setupProjectConfigAndGhUser_result config w :
  let run := setupProjectConfigAndGhUser config w in
  ∃ ok config', result run = inr (ok, config')
    ∧ Forall (only [(pipe, "gh api user --jq .login")] []) (trace run)
    ∧ (githubUsername config ≠ "" → config' = config ∧ Forall (only [] []) (trace run))
    ∧ (ok = true →
       (∃ path, configFilePath = Some path ∧ existsSync path (world run) = true
                ∧ readFileSync path (world run) = inr (JSON_stringify config'))
       ∧ (githubUsername config = "" →
          ∃ out, printed (trace run) "gh api user --jq .login" out
                 ∧ config' = set_githubUsername (trim out) config))
    ∧ (ok = false → ∃ m, Err m ∈ trace run).
Proof.
  change (wp (setupProjectConfigAndGhUser config) w (λ r w' t,
    ∃ ok config', r = inr (ok, config')
      ∧ Forall (only [(pipe, "gh api user --jq .login")] []) t
      ∧ (githubUsername config ≠ "" → config' = config ∧ Forall (only [] []) t)
      ∧ (ok = true →
         (∃ path, configFilePath = Some path ∧ existsSync path w' = true
                  ∧ readFileSync path w' = inr (JSON_stringify config'))
         ∧ (githubUsername config = "" →
            ∃ out, printed t "gh api user --jq .login" out
                   ∧ config' = set_githubUsername (trim out) config))
      ∧ (ok = false → ∃ m, Err m ∈ t))).
  unfold setupProjectConfigAndGhUser, updateConfig, printed.
  destruct configFilePath as [path|] eqn:Hp.
  all: wp_seq; destruct (negb (truthy (githubUsername config))) eqn:Hname.
  all: first [apply truthy_false in Hname | apply truthy_true in Hname].
  all: repeat wp_step.
  all: eexists _, _; (split; [reflexivity|]).
  all: split; [allowed|].
  all: split; [first [done | intros _; split; [done|allowed]]|].
  all: split; [|first [done | intros _; eexists; in_trace]].
  all: try done.
  all: intros _.
  all: match goal with Hw : writeFileSync _ _ _ = inr _ |- _ =>
         destruct (write_read _ _ _ _ Hw) as [He Hr] end.
  all: split; [by exists path|].
  all: first [done | intros _; eexists; split; [in_trace|done]].
Qed.

End Setup.

(** ** Backing up to a new branch *)

Section NewBranch.
Context `{World W}.
Import JS.
Implicit Types (w : W) (t : list event).

Lemma newBranchQuery_not_message n : newBranchMessageQuery n ≠ newBranchQuery.
Proof. unfold newBranchMessageQuery, newBranchQuery. simpl. congruence. Qed.

(** X20: backing up to a new branch, once a name has been typed.  The name is
    what was typed with its runs of white space turned into dashes.  The
    operation never throws; its first command is [git checkout -b <name>].
    When no command fails it goes on with the add, the commit (under the
    message typed or, if none was, [Initial commit for new branch <name>])
    and the push, and stays on the new branch.  When a command fails it tries to switch back to the
    branch it started from. *)
Theorem opBackupToNewBranch_switches_back w cfg config prev a :
  result (readConfig w) = inr cfg →
  usable projectName cfg = Some config →
  result (getCurrentGitBranch w) = inr prev →
  Asked newBranchQuery a ∈ trace (opBackupToNewBranch w) →
  trim a ≠ "" →
  let t := trace (opBackupToNewBranch w) in
  let n := dashWhiteSpace (trim a) in
  result (opBackupToNewBranch w) = inr ()
  ∧ n ≠ "" ∧ spaceless n
  ∧ (∃ rest, stdioCommands t = ("git checkout -b " +:+ n) :: rest)
  ∧ (failedStdio t → ∃ r, Exec inherit ("git checkout " +:+ prev) r ∈ t)
  ∧ (¬ failedStdio t →
     ∃ a',
       Asked (newBranchMessageQuery n) a' ∈ t
       ∧ let m := if truthy (trim a') then trim a'
                  else "Initial commit for new branch " +:+ n in
         stdioCommands t
         = ["git checkout -b " +:+ n; "git add -A";
            "git commit -m " +:+ dq +:+ replaceAll "034" ("\" +:+ dq) m +:+ dq;
            "git push origin " +:+ n]).
Proof.
  intros Hcfg Hu Hb Hask Ha. revert Hask.
  rewrite <- (readConfig_world w) in Hb.
  change (wp opBackupToNewBranch w (λ r _ t,
    Asked newBranchQuery a ∈ t →
    let n := dashWhiteSpace (trim a) in
    r = inr ()
    ∧ n ≠ "" ∧ spaceless n
    ∧ (∃ rest, stdioCommands t = ("git checkout -b " +:+ n) :: rest)
    ∧ (failedStdio t → ∃ r, Exec inherit ("git checkout " +:+ prev) r ∈ t)
    ∧ (¬ failedStdio t →
       ∃ a',
         Asked (newBranchMessageQuery n) a' ∈ t
         ∧ let m := if truthy (trim a') then trim a'
                    else "Initial commit for new branch " +:+ n in
           stdioCommands t
           = ["git checkout -b " +:+ n; "git add -A";
              "git commit -m " +:+ dq +:+ replaceAll "034" ("\" +:+ dq) m +:+ dq;
              "git push origin " +:+ n]))).
  unfold opBackupToNewBranch. do 5 wp_step.
  apply (wp_emits_world _ _ _ _ emits_readConfig). intros r t0 Hr Ht0.
  rewrite Hcfg in Hr. subst r. lazy beta iota. rewrite Hu.
  apply wp_attempt. apply (wp_emits_run _ _ _ _ emits_getCurrentGitBranch).
  intros r w1 t1 Hr Ht1. rewrite Hb in Hr. subst r. lazy beta iota.
  assert (stdioCommands t0 = []) as Hs0
    by (eapply stdioCommands_only; [eassumption|constructor]).
  assert (stdioCommands t1 = []) as Hs1
    by (eapply stdioCommands_only; [eassumption|by repeat constructor]).
  wp_seq. wp_seq.
  destruct (negb (truthy (trim a0)) || (trim (trim a0) === "")) eqn:Hblank.
  { wp_seq. intros Hin. exfalso. unfold branchCommands in *. trace_inv.
    rewrite trim_idemp in Hblank. unfold truthy in Hblank.
    rewrite negb_involutive, orb_diag in Hblank. by apply String.eqb_eq in Hblank. }
  cbv zeta. do 5 wp_seq.
  2:{ (* the checkout of the new branch failed *)
      repeat wp_seq.
      all: intros Hin.
      all: assert (a0 = a) as -> by (unfold branchCommands in *; trace_inv; done).
      all: rewrite ?trim_idemp.
      all: split; [done|]; split; [by apply dashRuns_nonempty|].
      all: split; [apply dashRuns_spaceless|].
      all: rewrite ?stdioCommands_app, ?Hs0, ?Hs1; cbn [stdioCommands app].
      all: split; [by eexists|].
      all: split; [intros _; eexists; in_trace|].
      all: intros Hnf; exfalso; apply Hnf; eexists _, _; in_trace. }
  repeat wp_seq.
  apply wp_commitAndPush.
  - (* committed and pushed *)
    intros w3 t3 Hnf3 Hcmds3 Ht3. repeat wp_seq. intros Hin.
    assert (a0 = a) as ->.
    { unfold branchCommands in *.
      trace_inv; first [done | exfalso; by eapply newBranchQuery_not_message]. }
    rewrite ?trim_idemp in *.
    split; [done|]. split; [by apply dashRuns_nonempty|].
    split; [apply dashRuns_spaceless|].
    rewrite ?stdioCommands_app, ?Hs0, ?Hs1, ?Hcmds3; cbn [stdioCommands app].
    rewrite ?stdioCommands_app, ?Hcmds3; cbn [stdioCommands app].
    split; [by eexists|]. split.
    + intros (cmd & e & Hf). exfalso. clear Ht3. unfold branchCommands in *.
      trace_inv; apply Hnf3; by eexists _, _, _.
    + intros _. exists a1. split; [in_trace|reflexivity].
  - (* the commit or the push failed *)
    intros w3 t3 cmds' cmd e Hcmds3 Hpre Hfail Hlast Ht3. repeat wp_seq.
    all: intros Hin.
    all: assert (a0 = a) as ->
           by (unfold branchCommands in *; trace_inv;
               first [done | exfalso; by eapply newBranchQuery_not_message]).
    all: rewrite ?trim_idemp in *.
    all: split; [done|]; split; [by apply dashRuns_nonempty|].
    all: split; [apply dashRuns_spaceless|].
    all: rewrite ?stdioCommands_app, ?Hs0, ?Hs1; cbn [stdioCommands app].
    all: split; [by eexists|].
    all: split; [intros _; eexists; in_trace|].
    all: intros Hnf; exfalso; apply Hnf; exists cmd, e; in_trace.
Qed.

End NewBranch.

(** ** The menu *)

Section Menu.
Context `{World W}.
Import JS.
Implicit Types (w : W) (t : list event).

Lemma pushes_app_l st b t1 t2 : pushes st b t1 → pushes st b (t1 ++ t2).
Proof.
  intros [Ha Hn]. split; intros Hs; [destruct (Ha Hs) as [r ?]|destruct (Hn Hs) as [r ?]];
    exists r; apply elem_of_app; by left.
Qed.

Lemma pushes_cons st b e t : pushes st b t → pushes st b (e :: t).
Proof. apply (pushes_app st b [e]). Qed.

Lemma wp_any {A} (m : M W A) w (Q : Error + A → W → list event → Prop) :
  (∀ r w' t, Q r w' t) → wp m w Q.
Proof. unfold wp. auto. Qed.

(** X21: the menu acts on the options [1] to [6] only.  As long as no answer to
    its prompt is one of them, it never throws, runs no command and asks
    nothing but its own question, again after each invalid answer; and it
    returns only once [0] has been answered. *)
Theorem opShowBackupMenu_invalid_choices fuel w :
  (∀ a, Asked menuQuery a ∈ trace (opShowBackupMenu fuel w) →
        trim a ∉ ["1"; "2"; "3"; "4"; "5"; "6"]) →
  Forall (only [] [menuQuery]) (trace (opShowBackupMenu fuel w))
  ∧ (result (opShowBackupMenu fuel w) = inr None
     ∨ (result (opShowBackupMenu fuel w) = inr (Some ())
        ∧ ∃ a, Asked menuQuery a ∈ trace (opShowBackupMenu fuel w) ∧ trim a = "0")).
Proof.
  change (wp (opShowBackupMenu fuel) w (λ r _ t,
    (∀ a, Asked menuQuery a ∈ t → trim a ∉ ["1"; "2"; "3"; "4"; "5"; "6"]) →
    Forall (only [] [menuQuery]) t
    ∧ (r = inr None
       ∨ (r = inr (Some ()) ∧ ∃ a, Asked menuQuery a ∈ t ∧ trim a = "0")))).
  revert w. induction fuel as [|fuel IH]; intros w.
  { intros _. split; [constructor|by left]. }
  cbn [opShowBackupMenu]. do 19 wp_seq. apply wp_askQuestion. intros a w'.
  lazy beta iota.
  repeat match goal with
  | |- wp (if ?b then _ else _) _ _ => destruct b eqn:?
  end.
  all: try (apply wp_any; intros r w2 t2 Hall; exfalso; apply (Hall a); [in_trace|];
            match goal with Heq : (trim _ === _) = true |- _ =>
              apply String.eqb_eq in Heq; rewrite Heq end;
            solve [repeat first [apply list_elem_of_here | apply list_elem_of_further]]).
  - repeat wp_seq. intros _. split; [unfold menuQuery; allowed|]. right.
    split; [done|]. exists a. split; [in_trace|]. by apply String.eqb_eq.
  - wp_seq. wp_seq. eapply wp_mono; [apply (IH w')|].
    intros r w2 t2 HQ Hall. destruct HQ as [Ht2 Hr].
    { intros a' Hin. apply Hall. in_trace. }
    split; [unfold menuQuery in *; allowed|].
    destruct Hr as [->|[-> (a' & Hin & Ha')]]; [by left|right].
    split; [done|]. exists a'. split; [in_trace|done].
Qed.

(** X22: option [3] of the menu is the sync check, so it pushes too: when the
    status it computes is [ahead] or [no_remote], choosing [3] runs the
    push. *)
Theorem menu_sync_check_pushes fuel w a w1 b w2 t2 st w3 t3 :
  question menuQuery w = (a, w1) →
  trim a = "3" →
  getCurrentGitBranch w1 = (inr b, w2, t2) →
  getGitStatus b w2 = (inr st, w3, t3) →
  isRepo st = true →
  pushes st b (trace (opShowBackupMenu (S fuel) w)).
Proof.
  intros Hq Ha Hb Hst Hrepo.
  pose proof (checkRemoteSync_pushes w1 b w2 t2 st w3 t3 Hb Hst Hrepo) as Hpush.
  change (wp (opShowBackupMenu (S fuel)) w (λ _ _ t, pushes st b t)).
  cbn [opShowBackupMenu]. do 19 wp_seq.
  unfold wp at 1, askQuestion, result, world, trace. rewrite Hq. simpl. rewrite Ha.
  simpl. apply wp_bind.
  apply (wp_mono _ _ (λ _ _ t, pushes st b t)); [exact Hpush|].
  intros [e|[]] w4 t4 Ht4; [|wp_seq]; repeat apply pushes_cons;
    [done|by apply pushes_app_l].
Qed.

End Menu.

(** ** Cleaning all history *)

Section CleanAll.
Context `{World W}.
Import JS.
Implicit Types (w : W) (t : list event).


End CleanAll.

Section CleanAllCommands.
Context `{World W}.
Import JS.
Implicit Types (w : W) (t : list event).


End CleanAllCommands.

Section CleanAllGit.
Context (dir : string) (versioned := Git.world dir).
#[local] Existing Instance versioned.
Import JS.
Implicit Types (s : Git.state) (r : Git.repository) (t : list event).


End CleanAllGit.

(** ** The default configuration *)

Section DefaultConfig.
Context `{World W} `{!FileTree W}.
Import JS.
Implicit Types (w : W) (t : list event).

Lemma wp_fs_mkdirSync p w Q :
  (∀ e, mkdirSync p w = inl e → Q (inl e) w []) →
  (∀ w', mkdirSync p w = inr w' → Q (inr tt) w' []) →
  wp (fs_mkdirSync p) w Q.
Proof.
  intros He Hok. unfold wp, fs_mkdirSync, result, world, trace.
  destruct (mkdirSync p w) as [e|w'] eqn:Hw; simpl; auto.
Qed.

(** One run of [createProjectConfig] on a project without a configuration
    file: the file holds the default configuration, or an error is
    logged. *)
Lemma createProjectConfig_fresh target w stamp :
  let path := path_join (path_join target TOOL_DIR) CONFIG_FILE in
  existsSync path w = false →
  result (getFormattedTimestamp w) = inr stamp →
  let w' := world (createProjectConfig target w) in
  result (createProjectConfig target w) = inr ()
  ∧ Forall (only [] []) (trace (createProjectConfig target w))
  ∧ ((existsSync path w' = true
      ∧ readFileSync path w'
        = inr (JSON_stringify (defaultConfig (path_basename target) stamp)))
     ∨ ∃ m, Err m ∈ trace (createProjectConfig target w)).
Proof.
  intros path Hnew Hstamp.
  change (wp (createProjectConfig target) w (λ r w' t,
    r = inr () ∧ Forall (only [] []) t
    ∧ ((existsSync path w' = true
        ∧ readFileSync path w'
          = inr (JSON_stringify (defaultConfig (path_basename target) stamp)))
       ∨ ∃ m, Err m ∈ t))).
  unfold createProjectConfig. cbv zeta.
  apply wp_bind, wp_fs_existsSync. fold path. rewrite Hnew. lazy beta iota.
  apply wp_bind, wp_emit, wp_bind, wp_getFormattedTimestamp. rewrite Hstamp.
  lazy beta iota. apply wp_try_catch, wp_bind, wp_fs_existsSync.
  destruct (existsSync (path_join target TOOL_DIR) w); simpl negb.
  all: repeat first [wp_seq | apply wp_fs_mkdirSync; intros ? ?].
  all: try done.
  all: split; [done|]; split; [allowed|].
  all: first [ right; eexists; in_trace
             | left;
               by match goal with Hw : writeFileSync _ _ _ = inr _ |- _ =>
                 destruct (write_read _ _ _ _ Hw) end ].
Qed.

(** X25: [createProjectConfig] never throws, and runs and asks nothing.  It
    never overwrites: with a configuration file in place the world stays as
    it is.  Without one, the file afterwards holds the default
    configuration, named after the last segment of the project path and
    stamped with the current time, unless an error has been logged. *)
Theorem createProjectConfig_default target w :
  let path := path_join (path_join target TOOL_DIR) CONFIG_FILE in
  let run := createProjectConfig target w in
  result run = inr ()
  ∧ Forall (only [] []) (trace run)
  ∧ if existsSync path w then world run = w
    else ∃ stamp,
           result (getFormattedTimestamp w) = inr stamp
           ∧ ((existsSync path (world run) = true
               ∧ readFileSync path (world run)
                 = inr (JSON_stringify (defaultConfig (path_basename target) stamp)))
              ∨ ∃ m, Err m ∈ trace run).
Proof.
  intros path run. subst run. destruct (existsSync path w) eqn:He.
  - change (wp (createProjectConfig target) w (λ r w' t,
      r = inr () ∧ Forall (only [] []) t ∧ w' = w)).
    unfold createProjectConfig. cbv zeta.
    apply wp_bind, wp_fs_existsSync. fold path. rewrite He. lazy beta iota.
    wp_seq. split; [done|]. split; [allowed|done].
  - destruct (createProjectConfig_fresh target w _ He eq_refl) as (Hr & Ht & Hcase).
    split; [done|]. split; [done|]. eexists. split; [reflexivity|done].
Qed.

(** X26: the first [--init] of an installed tool.  When the project has no
    configuration file and the default one is created without an error,
    [readConfig] then returns the default configuration (provided it
    survives the runtime's JSON round trip).  Its [githubUsername] is
    empty, so until the setup has filled it in both history rewrites refuse
    to run. *)
Theorem first_configuration w stamp :
  let path := path_join (path_join projectRoot TOOL_DIR) CONFIG_FILE in
  let config := defaultConfig (path_basename projectRoot) stamp in
  configFilePath = Some path →
  existsSync path w = false →
  result (getFormattedTimestamp w) = inr stamp →
  JSON_parse (JSON_stringify config) = inr (Some config) →
  (∀ m, Err m ∉ trace (createProjectConfig projectRoot w)) →
  let w' := world (createProjectConfig projectRoot w) in
  result (readConfig w') = inr (Some config)
  ∧ usable githubUsername (Some config) = None
  ∧ untouched w' (opCleanOldUserCommits w')
  ∧ untouched w' (opCleanAllCommits w').
Proof.
  intros path config Hpath Hnew Hstamp Hjson Hok w'.
  destruct (createProjectConfig_fresh projectRoot w stamp Hnew Hstamp)
    as (_ & _ & [[He Hr]|[m Hm]]); [|by destruct (Hok m)].
  fold path config w' in He, Hr. clearbody w'.
  assert (result (readConfig w') = inr (Some config)) as Hcfg.
  { rewrite (readConfig_stored _ _ _ Hpath He Hr). by rewrite Hjson. }
  split; [done|]. split; [done|]. split.
  - change (wp opCleanOldUserCommits w' (λ _ w2 t, w2 = w' ∧ Forall (only [] []) t)).
    unfold opCleanOldUserCommits. do 5 wp_step.
    apply (wp_emits_world _ _ _ _ emits_readConfig); intros r t0 Hr0 Ht0.
    rewrite Hcfg in Hr0. subst r. lazy beta iota.
    change (usable githubUsername (Some config)) with (@None Config).
    wp_seq. rewrite readConfig_world. split; [done|allowed].
  - change (wp opCleanAllCommits w' (λ _ w2 t, w2 = w' ∧ Forall (only [] []) t)).
    unfold opCleanAllCommits. do 5 wp_step.
    apply (wp_emits_world _ _ _ _ emits_readConfig); intros r t0 Hr0 Ht0.
    rewrite Hcfg in Hr0. subst r. lazy beta iota.
    change (usable githubUsername (Some config)) with (@None Config).
    wp_seq. rewrite readConfig_world. split; [done|allowed].
Qed.

End DefaultConfig.

(** ** The classifier on reference inputs *)

#[local] Existing Instance Sample.installed.

Lemma getGitStatus_decision_table_witness :
  existsSync (path_join projectRoot ".git")
             Sample.behindRemote = true
  ∧ ∃ st o,
      result (getGitStatus "main" Sample.behindRemote) = inr st
      ∧ observed "main"
          (trace (getGitStatus "main" Sample.behindRemote)) o
      ∧ sync st = decision_table o
      ∧ ∀ o', observed "main"
                (trace (getGitStatus "main" Sample.behindRemote)) o'
              → o' = o.
Proof.
  split; [reflexivity|].
  apply (getGitStatus_decision_table "main" Sample.behindRemote).
  reflexivity.
Defined.

(** The scenario of the specification: local hash = merge base, remote hash
    differs. *)
Example getGitStatus_behind :
  ∃ st, result (getGitStatus "main" Sample.behindRemote) = inr st ∧ sync st = "behind".
Proof. eexists. split; vm_compute; reflexivity. Qed.

(** C2 as stated fails: outside a Git repository the returned [sync] is
    [unknown], which is none of the six states. *)
Lemma getGitStatus_unknown_outside_repository :
  ∃ st, result (getGitStatus "main" Sample.plainDirectory) = inr st
        ∧ sync st = "unknown" ∧ sync st ∉ syncStates.
Proof.
  eexists. split; [vm_compute; reflexivity|]. split; [reflexivity|].
  simpl. unfold syncStates. set_solver.
Qed.

Lemma status_report_pushes_witness :
  ∃ r, Exec inherit "git push origin main" r ∈ trace (checkRemoteSync Sample.aheadOfRemote).
Proof.
  destruct (status_report_pushes (H:=Sample.installed)) as (_ & Hcheck & _).
  edestruct (Hcheck Sample.aheadOfRemote) as [Hahead _].
  - vm_compute. reflexivity.
  - vm_compute. reflexivity.
  - reflexivity.
  - apply Hahead. reflexivity.
Defined.

(** ** The author partition on a reference log *)

Lemma author_partition_witness :
  ∃ cur old,
    partitionCommits "alice" Sample.logLines [] [] = inr (cur, old)
    ∧ hash <$> cur = ["c2"; "c1"] ∧ hash <$> old = ["c3"; "c0"]
    ∧ cur ++ old ≡ₚ parseCommit <$> Sample.logLines.
Proof.
  eexists _, _. split; [vm_compute; reflexivity|]. do 2 (split; [reflexivity|]).
  apply (proj2 (author_partition "alice" Sample.logLines)). reflexivity.
Defined.

(** ** The .gitignore update on reference inputs *)

Example updateProjectGitignore_appends :
  Scripted.files (world (updateProjectGitignore "/proj" Sample.withGitignore))
    !! "/proj/.gitignore"
  = Some ("node_modules/" +:+ JS.nl +:+ JS.nl +:+ "# backupTool" +:+ JS.nl
          +:+ "# backupTool rules" +:+ JS.nl +:+ "# backupTool" +:+ JS.nl
          +:+ "/backupTool/" +:+ JS.nl +:+ ".env*" +:+ JS.nl +:+ "*.key" +:+ JS.nl
          +:+ "*.pem" +:+ JS.nl +:+ "config.local.*" +:+ JS.nl).
Proof. vm_compute. reflexivity. Qed.

Example updateProjectGitignore_creates :
  Scripted.files (world (updateProjectGitignore "/proj" Sample.plainDirectory))
    !! "/proj/.gitignore"
  = Some ("# Generated by backupTool" +:+ JS.nl +:+ JS.nl +:+ "# backupTool" +:+ JS.nl
          +:+ "/backupTool/" +:+ JS.nl +:+ ".env*" +:+ JS.nl +:+ "*.key" +:+ JS.nl
          +:+ "*.pem" +:+ JS.nl +:+ "config.local.*" +:+ JS.nl).
Proof. vm_compute. reflexivity. Qed.

(** ** The configuration store on reference inputs *)


(** ** Cancelling on reference inputs *)

Lemma cancelled_rewrite_runs_nothing_witness :
  Forall (only inspectCommands [cleanHistoryQuery])
         (trace (opCleanOldUserCommits Sample.decliningCleanHistory))
  ∧ Forall (only inspectCommands [cleanAllQuery])
           (trace (opCleanAllCommits Sample.decliningCleanAll)).
Proof.
  split.
  - apply (cancelled_rewrite_runs_nothing (H:=Sample.installed)
             Sample.decliningCleanHistory " No "); [by vm_compute|].
    vm_compute. in_trace.
  - apply (cancelled_rewrite_runs_nothing (H:=Sample.installed)
             Sample.decliningCleanAll "n"); [by vm_compute|].
    vm_compute. in_trace.
Defined.

(** ** Declining an empty commit on a reference input *)


(** ** Resetting on a reference input *)

Lemma reset_to_earliest_user_commit_witness :
  ∃ r, Exec inherit "git reset --hard c1" r
       ∈ trace (opCleanOldUserCommits Sample.confirmingCleanHistory).
Proof.
  destruct (reset_to_earliest_user_commit (H:=Sample.installed)
              Sample.confirmingCleanHistory (Some Sample.config) Sample.config
              (JS.join JS.nl Sample.logLines) "y"
              (parseCommit "c2|alice|a@example.org|second"))
    as (c & newer & older & Hsplit & Hc & Holder & Hreset & _).
  - vm_compute. reflexivity.
  - reflexivity.
  - unfold printed. vm_compute. in_trace.
  - vm_compute. in_trace.
  - vm_compute. reflexivity.
  - vm_compute. in_trace.
  - reflexivity.
  - assert (c = parseCommit "c1|Carol|12345+alice@users.noreply.github.com|first") as ->.
    { vm_compute in Hsplit.
      destruct newer as [|? [|? [|? [|? [|? ?]]]]]; simplify_eq; [|reflexivity].
      exfalso. apply Forall_cons in Holder as [Hn _]. apply Hn. reflexivity. }
    exact Hreset.
Defined.

(** Over the git model the reset drops the user's later commit [a3] with
    the other author's [b2], and keeps what is older than the user's first
    commit [a1]. *)
Example reset_keeps_older_history :
  Git.heads (Git.repo (world (opCleanOldUserCommits (H:=Sample.versioned)
                                Sample.mixedHistory)))
  = {[ "main" := [Sample.alice "a1" 1 "second"; Sample.bob "b0" 0 "first"] ]}.
Proof. vm_compute. reflexivity. Qed.

(** ** The fresh history on reference inputs *)



(** With one branch and no remote, and git committing as the configured
    user, the claim does hold. *)
Example fresh_history_single_branch :
  Git.singleCommitBy "alice"
    (Git.repo (world (opCleanOldUserCommits (H:=Sample.versioned) Sample.foreignHistory))).
Proof.
  eexists. split; [vm_compute; reflexivity|]. by left.
Qed.

(** The author of the fresh commit is git's identity: when that is not the
    configured user, the one commit is not the user's by the tool's own
    test, although its summary names the user. *)
Example fresh_history_other_identity :
  ∃ c, Git.reachable
         (Git.repo (world (opCleanOldUserCommits (H:=Sample.versioned)
                             Sample.foreignHistoryOtherIdentity))) = [c]
       ∧ Git.summary c = "Clean repository - Initial commit by alice"
       ∧ Git.name c = "Build Bot"
       ∧ ¬ Git.authoredAs "alice" c.
Proof.
  eexists. split; [vm_compute; reflexivity|]. do 2 (split; [reflexivity|]).
  intros [Hn|He]; [done|]. vm_compute in He. done.
Qed.

(** ** Further properties on reference inputs *)

Lemma operations_need_configuration_witness :
  untouched Scenario.bare (opQuickBackup Scenario.bare)
  ∧ untouched Scenario.bare (opCleanAllCommits Scenario.bare).
Proof.
  destruct (operations_need_configuration (H:=Sample.installed) Scenario.bare None)
    as [Hbackup Hclean]; [vm_compute; reflexivity|].
  split; [apply Hbackup; reflexivity|apply Hclean; reflexivity].
Defined.

Lemma opCommitWithMessage_no_message_witness :
  result (opCommitWithMessage "" Scenario.noMessage) = inr ()
  ∧ Forall (only branchCommands [messageQuery])
           (trace (opCommitWithMessage "" Scenario.noMessage)).
Proof.
  destruct (opCommitWithMessage_no_message (H:=Sample.installed) "" Scenario.noMessage "  ")
    as (Hr & Ht & _); [vm_compute; in_trace|reflexivity|].
  by split.
Defined.

Lemma opCleanOldUserCommits_nothing_to_clean_witness :
  Forall (only inspectCommands []) (trace (opCleanOldUserCommits Scenario.ownHistory)).
Proof.
  destruct (opCleanOldUserCommits_nothing_to_clean (H:=Sample.installed)
              Scenario.ownHistory (Some Sample.config) Sample.config
              (JS.join JS.nl ["c2|alice|a@example.org|second";
                              "c1|alice|a@example.org|first"]))
    as (_ & Ht & _).
  - vm_compute. reflexivity.
  - reflexivity.
  - unfold printed. vm_compute. in_trace.
  - left.
    let l := eval vm_compute in
      (parseCommit <$> logCommits (JS.join JS.nl ["c2|alice|a@example.org|second";
                                                  "c1|alice|a@example.org|first"])) in
    change (Forall (λ c, isCurrentUser (githubUsername Sample.config) c = inr true) l).
    repeat constructor.
  - exact Ht.
Defined.

Lemma opBackupToNewBranch_switches_back_witness :
  spaceless "my-branch"
  ∧ ∃ rest, stdioCommands (trace (opBackupToNewBranch Scenario.newBranch))
            = "git checkout -b my-branch" :: rest.
Proof.
  destruct (opBackupToNewBranch_switches_back (H:=Sample.installed) Scenario.newBranch
              (Some Sample.config) Sample.config "main" "my  branch")
    as (_ & _ & Hname & Hfirst & _).
  - vm_compute. reflexivity.
  - reflexivity.
  - vm_compute. reflexivity.
  - vm_compute. in_trace.
  - vm_compute. discriminate.
  - split; [exact Hname|exact Hfirst].
Defined.

Lemma opShowBackupMenu_invalid_choices_witness :
  Forall (only [] [menuQuery]) (trace (opShowBackupMenu 3 Scenario.undecided)).
Proof.
  apply (opShowBackupMenu_invalid_choices (H:=Sample.installed) 3 Scenario.undecided).
  intros a Hin. vm_compute in Hin.
  repeat (apply elem_of_cons in Hin as [Hin|Hin];
          [simplify_eq; vm_compute; intros Hx;
           repeat (apply elem_of_cons in Hx as [Hx|Hx]; [discriminate|]);
           by apply elem_of_nil in Hx|]).
  by apply elem_of_nil in Hin.
Defined.

Lemma menu_sync_check_pushes_witness :
  ∃ r, Exec inherit "git push origin main" r
       ∈ trace (opShowBackupMenu 1 Scenario.menuSync).
Proof.
  edestruct (menu_sync_check_pushes (H:=Sample.installed) 0 Scenario.menuSync)
    as [Hahead _].
  - vm_compute. reflexivity.
  - reflexivity.
  - vm_compute. reflexivity.
  - vm_compute. reflexivity.
  - reflexivity.
  - apply Hahead. reflexivity.
Defined.

Lemma getFormattedTimestamp_format_witness :
  result (getFormattedTimestamp Scenario.bare) = inr "2025-01-01 00:00:00".
Proof.
  apply (getFormattedTimestamp_format (H:=Sample.installed) Scenario.bare
           "2025-01-01" "00:00:00" ".000Z"); [reflexivity|reflexivity| |reflexivity].
  repeat constructor; discriminate.
Defined.

Lemma first_configuration_witness :
  result (readConfig (world (createProjectConfig "/proj" Scenario.bare)))
  = inr (Some (defaultConfig "proj" "2025-01-01 00:00:00")).
Proof.
  apply (first_configuration (H:=Sample.installed) Scenario.bare "2025-01-01 00:00:00").
  - reflexivity.
  - reflexivity.
  - reflexivity.
  - vm_compute. reflexivity.
  - intros m Hin. vm_compute in Hin.
    repeat (apply elem_of_cons in Hin as [Hin|Hin]; [discriminate|]).
    by apply elem_of_nil in Hin.
Defined.



Lemma partitionCommits_ordered_witness :
  ∃ cur old, partitionCommits "alice" Sample.logLines [] [] = inr (cur, old)
             ∧ hash <$> cur = ["c2"; "c1"] ∧ hash <$> old = ["c3"; "c0"].
Proof.
  eexists _, _. split.
  - apply (partitionCommits_ordered "alice" Sample.logLines).
    repeat constructor; vm_compute; lia.
  - split; vm_compute; reflexivity.
Defined.


(** The names on reference inputs. *)
Example baseRepoName_examples :
  baseRepoName "  My Project!! " = "My-Project"
  ∧ baseRepoName "-a b-" = "a-b"
  ∧ baseRepoName "..." = "new-backup-repository"
  ∧ dashWhiteSpace "my  branch" = "my-branch".
Proof. repeat split; vm_compute; reflexivity. Qed.
